(** * The scene store of the diagram editor (src/stores/sceneStore.tsx)

    The store is a zustand store whose state is a [Scene], five arrays of
    entities, and whose actions edit that scene, most of them through an
    immer [produce] recipe that mutates a draft.

    The actions are embedded as programs of a state-and-exception monad:
    the recipes over the draft, the actions over the store, through the
    [set] and [get] that zustand passes to the store's creator.  Two stores
    implement that interface: a store of values, on which the properties of
    the scene are proved, and a store of objects in a heap, on which holding
    a snapshot is holding an address.  The second is shown to stand for the
    first.

    On references the actions are embedded once more, in [Mutable]: there
    [get] returns the address of the published state object, the recipes
    write the objects they are handed in place, and [produce] hands them a
    draft.  These actions are shown to write no object that was there
    before the call, and to publish what the actions on values publish. *)

From Stdlib Require Import Floats.PrimFloat.
From stdpp Require Import base option list gmap strings.

Open Scope string_scope.
Open Scope list_scope.
Open Scope nat_scope.

(** ** Values *)

(** A JavaScript [number] is an IEEE 754 binary64 float. *)
Abbreviation number := float.

(** Data whose TypeScript declaration lives in [src/types] and which the
    store only carries around: a JSON-like value. *)
#[warnings="-register-all"]
Inductive JsValue :=
| JsUndefined
| JsNull
| JsBoolean (b : bool)
| JsNumber (x : number)
| JsString (s : string)
| JsArray (items : list JsValue)
| JsObject (fields : list (string * JsValue)).

(** The own properties of an object that the store never names. *)
Abbreviation Properties := (gmap string JsValue).

(** ** Errors and the monad of the actions *)

(** The entity kinds, as [NotFound(kind, id)] reports them. *)
Inductive Kind := KIcon | KNode | KConnector | KTextBox | KRectangle.

Inductive Error :=
| ValidationError
| NotFound (kind : Kind) (id : string).

Inductive Result (A : Type) :=
| Ok (value : A)
| Throw (e : Error).
Arguments Ok {A} value.
Arguments Throw {A} e.

(** A computation over a mutable state [S] that returns or throws.  A throw
    keeps the state reached so far: JavaScript does not roll back. *)
Definition M (S A : Type) : Type := S → Result A * S.

Definition ret {S A} (a : A) : M S A := λ s, (Ok a, s).

Definition bind {S A B} (m : M S A) (k : A → M S B) : M S B :=
  λ s, match m s with
       | (Ok a, s') => k a s'
       | (Throw e, s') => (Throw e, s')
       end.

Definition lift {S A} (r : Result A) : M S A := λ s, (r, s).

Definition gets {S A} (f : S → A) : M S A := λ s, (Ok (f s), s).

Definition modify {S} (f : S → S) : M S unit := λ s, (Ok tt, f s).

Global Instance M_ret {S} : MRet (M S) := @ret S.
Global Instance M_bind {S} : MBind (M S) := λ A B k m, bind m k.

(** ** The entity model

    The declarations of [src/types] are not among the sources.  Each entity
    is a record of the properties the store reads or writes, plus [other]:
    the rest of its own properties, by name.  [Updates] is the TypeScript
    [Partial] of the entity: a key is absent ([None], not in [u_other]) or
    carries a value of the property's type.  [merge] is the object spread
    [{...entity, ...updates}]: a key of [updates] wins. *)

Definition spread {A} (old : A) (update : option A) : A := default old update.

Module Icon.
Record t := mk { id : string; other : Properties }.
End Icon.

Module Node.
Record t := mk { id : string; other : Properties }.
Record Updates := mkUpdates { u_id : option string; u_other : Properties }.

Definition merge (node : t) (updates : Updates) : t :=
  {| id := spread (id node) (u_id updates);
     other := u_other updates ∪ other node |}.
End Node.

(** [anchor.ref]: [{type: 'NODE', id}] binds the anchor to a node; any other
    [type] is another kind of reference, with or without an [id]. *)
Module Ref.
Record t := mk { type : string; id : option string; other : Properties }.
End Ref.

Module ConnectorAnchor.
Record t := mk { ref : Ref.t; other : Properties }.
End ConnectorAnchor.

Module Connector.
Record t := mk {
  id : string;
  anchors : list ConnectorAnchor.t;
  path : JsValue;
  other : Properties
}.
Record Updates := mkUpdates {
  u_id : option string;
  u_anchors : option (list ConnectorAnchor.t);
  u_path : option JsValue;
  u_other : Properties
}.

Definition merge (connector : t) (updates : Updates) : t :=
  {| id := spread (id connector) (u_id updates);
     anchors := spread (anchors connector) (u_anchors updates);
     path := spread (path connector) (u_path updates);
     other := u_other updates ∪ other connector |}.

(** [connector.path = p] *)
Definition set_path (p : JsValue) (connector : t) : t :=
  {| id := id connector; anchors := anchors connector; path := p;
     other := other connector |}.
End Connector.

Module Rectangle.
Record t := mk { id : string; other : Properties }.
Record Updates := mkUpdates { u_id : option string; u_other : Properties }.

Definition merge (rectangle : t) (updates : Updates) : t :=
  {| id := spread (id rectangle) (u_id updates);
     other := u_other updates ∪ other rectangle |}.
End Rectangle.

Record Size := { width : number; height : number }.

Module TextBox.
Record t := mk {
  id : string;
  text : string;
  fontSize : number;
  size : Size;
  other : Properties
}.
Record Updates := mkUpdates {
  u_id : option string;
  u_text : option string;
  u_fontSize : option number;
  u_size : option Size;
  u_other : Properties
}.

Definition merge (textBox : t) (updates : Updates) : t :=
  {| id := spread (id textBox) (u_id updates);
     text := spread (text textBox) (u_text updates);
     fontSize := spread (fontSize textBox) (u_fontSize updates);
     size := spread (size textBox) (u_size updates);
     other := u_other updates ∪ other textBox |}.

(** [textBox.size = s] *)
Definition set_size (s : Size) (textBox : t) : t :=
  {| id := id textBox; text := text textBox; fontSize := fontSize textBox;
     size := s; other := other textBox |}.
End TextBox.

(** The constraint [T extends { id: string }] of the by-id helpers, with the
    kind that [NotFound] reports. *)
Class Item (T : Type) := { item_id : T → string; item_kind : Kind }.

Global Instance Icon_Item : Item Icon.t :=
  {| item_id := Icon.id; item_kind := KIcon |}.
Global Instance Node_Item : Item Node.t :=
  {| item_id := Node.id; item_kind := KNode |}.
Global Instance Connector_Item : Item Connector.t :=
  {| item_id := Connector.id; item_kind := KConnector |}.
Global Instance Rectangle_Item : Item Rectangle.t :=
  {| item_id := Rectangle.id; item_kind := KRectangle |}.
Global Instance TextBox_Item : Item TextBox.t :=
  {| item_id := TextBox.id; item_kind := KTextBox |}.

Definition ids {T} `{Item T} (items : list T) : list string :=
  item_id <$> items.

(** ** The scene *)

Record Scene := {
  icons : list Icon.t;
  nodes : list Node.t;
  connectors : list Connector.t;
  textBoxes : list TextBox.t;
  rectangles : list Rectangle.t
}.

Definition initialScene : Scene :=
  {| icons := []; nodes := []; connectors := []; textBoxes := [];
     rectangles := [] |}.

(** Assignments to the arrays of a (draft) scene. *)
Definition with_nodes (f : list Node.t → list Node.t) (s : Scene) : Scene :=
  {| icons := icons s; nodes := f (nodes s); connectors := connectors s;
     textBoxes := textBoxes s; rectangles := rectangles s |}.
Definition with_connectors (f : list Connector.t → list Connector.t)
    (s : Scene) : Scene :=
  {| icons := icons s; nodes := nodes s; connectors := f (connectors s);
     textBoxes := textBoxes s; rectangles := rectangles s |}.
Definition with_textBoxes (f : list TextBox.t → list TextBox.t)
    (s : Scene) : Scene :=
  {| icons := icons s; nodes := nodes s; connectors := connectors s;
     textBoxes := f (textBoxes s); rectangles := rectangles s |}.
Definition with_rectangles (f : list Rectangle.t → list Rectangle.t)
    (s : Scene) : Scene :=
  {| icons := icons s; nodes := nodes s; connectors := connectors s;
     textBoxes := textBoxes s; rectangles := f (rectangles s) |}.

(** ** The helpers of [src/utils] that the actions call *)

(** Modelled from the spec: [getItemById] of [src/utils], whose code is not
    among the sources.  "locates the target entity by id within its
    sequence -- fails with [NotFound] if absent"; "Error taxonomy for all
    byId lookups: [NotFound(kind, id)]".  It returns the entity found and its
    index; with several entities of that id the first one is found. *)
Definition getItemById {T} `{Item T} (items : list T) (id : string)
    : Result (T * nat) :=
  match list_find (λ item, item_id item = id) items with
  | Some (index, item) => Ok (item, index)
  | None => Throw (NotFound item_kind id)
  end.

(** Modelled from the spec: [getAllAnchors] of [src/utils], whose code is not
    among the sources.  "[allAnchors] is the flattened anchor set of all
    connectors". *)
Definition getAllAnchors (connectors : list Connector.t)
    : list ConnectorAnchor.t :=
  connectors ≫= Connector.anchors.

(** The callback [(anchor) => anchor.ref.type === 'NODE' && anchor.ref.id === id]. *)
Definition refersToNode (id : string) (anchor : ConnectorAnchor.t) : bool :=
  bool_decide (Ref.type (ConnectorAnchor.ref anchor) = "NODE")
  && bool_decide (Ref.id (ConnectorAnchor.ref anchor) = Some id).

(** [Array.prototype.forEach] over an array of the draft: the length is read
    once, element [i] is read when it is visited, and an index that is no
    longer in the array is skipped. *)
Fixpoint forEach_from {St T} (array : St → list T)
    (callback : T → nat → M St unit) (i n : nat) : M St unit :=
  match n with
  | 0 => mret tt
  | S n' =>
      items ← gets array;
      match items !! i with
      | Some item => callback item i
      | None => mret tt
      end;;
      forEach_from array callback (S i) n'
  end.

Definition forEach {St T} (array : St → list T)
    (callback : T → nat → M St unit) : M St unit :=
  len ← gets (λ s, length (array s));
  forEach_from array callback 0 len.

(** ** The store interface (zustand) and immer's [produce] *)

(** The argument of [set]: an object with some of the scene's keys. *)
Record PartialScene := {
  p_icons : option (list Icon.t);
  p_nodes : option (list Node.t);
  p_connectors : option (list Connector.t);
  p_textBoxes : option (list TextBox.t);
  p_rectangles : option (list Rectangle.t)
}.

(** A scene as an object with all five keys, for [set(newScene)]. *)
Definition allKeys (s : Scene) : PartialScene :=
  {| p_icons := Some (icons s); p_nodes := Some (nodes s);
     p_connectors := Some (connectors s); p_textBoxes := Some (textBoxes s);
     p_rectangles := Some (rectangles s) |}.

(** The values of [Object.assign({}, state, partial)]. *)
Definition assign (s : Scene) (partial : PartialScene) : Scene :=
  {| icons := spread (icons s) (p_icons partial);
     nodes := spread (nodes s) (p_nodes partial);
     connectors := spread (connectors s) (p_connectors partial);
     textBoxes := spread (textBoxes s) (p_textBoxes partial);
     rectangles := spread (rectangles s) (p_rectangles partial) |}.

(** The actions are written against the two functions that zustand hands to
    the store's creator, [createStore((set, get) => ...)]; [St] is what the
    store is made of. *)
Class StoreApi (St : Type) := {
  set : PartialScene → M St unit;
  get : M St Scene
}.

(** immer's [produce(base, recipe)]: the recipe runs on a draft of [base];
    when it returns, the draft is the result; when it throws, the draft is
    dropped and the exception goes on to the caller.  The store is not
    touched. *)
Definition produce {St} (base : Scene) (recipe : M Scene unit) : M St Scene :=
  λ st, match recipe base with
        | (Ok _, draftState) => (Ok draftState, st)
        | (Throw e, _) => (Throw e, st)
        end.

(** An item that [getItemById] finds in an array of the draft is immer's
    draft of that element, the same object as [draftState.array[index]], not
    a copy of it: a later read through the item sees what the recipe has
    written to the element since. *)
Definition deref {T} (array : Scene → list T) (index : nat) (item : T)
    : M Scene T :=
  gets (λ draftState, default item (array draftState !! index)).

(** [a ?? b] *)
Definition nullish {A} (a : option A) (b : A) : A := default b a.

(** [x !== undefined] *)
Definition defined {A} (x : option A) : bool :=
  match x with Some _ => true | None => false end.

(** The [style] argument of [getTextWidth]. *)
Module Style.
Record t := mk { fontSize : number; fontFamily : string; fontWeight : JsValue }.
End Style.

(** ** The collaborators

    What the store imports from [src/utils], [src/validation] and
    [src/config] and uses as given: the schema validator
    ([sceneInput.parse] returns when [validate] holds and throws otherwise),
    the normalisers of caller input, the connector router, the text
    measurement, and two constants.  The router, and the connector
    normaliser that calls it, may throw. *)
Class Collaborators := {
  validate : JsValue → bool;
  sceneInputToScene : JsValue → Scene;
  nodeInputToNode : JsValue → Node.t;
  connectorInputToConnector :
    JsValue → list Node.t → list ConnectorAnchor.t → Result Connector.t;
  rectangleInputToRectangle : JsValue → Rectangle.t;
  textBoxInputToTextBox : JsValue → TextBox.t;
  getConnectorPath :
    list ConnectorAnchor.t → list Node.t → list ConnectorAnchor.t →
    Result JsValue;
  getTextWidth : string → Style.t → number;
  DEFAULT_FONT_FAMILY : string;
  TEXTBOX_DEFAULTS_fontWeight : JsValue
}.

(** ** The actions *)

Section Actions.
Context {St : Type} {api : StoreApi St} {utils : Collaborators}.

Definition sceneInput_parse (scene : JsValue) : Result unit :=
  if validate scene then Ok tt else Throw ValidationError.

Definition setScene (scene : JsValue) : M St Scene :=
  lift (sceneInput_parse scene);;
  let newScene := sceneInputToScene scene in
  set (allKeys newScene);;
  mret newScene.

Definition updateScene (scene : Scene) : M St unit :=
  set {| p_icons := None;
         p_nodes := Some (nodes scene);
         p_connectors := Some (connectors scene);
         p_textBoxes := None;
         p_rectangles := Some (rectangles scene) |}.

Definition createNode_recipe (input : JsValue) : M Scene unit :=
  modify (with_nodes (λ l, l ++ [nodeInputToNode input])).

Definition createNode (input : JsValue) : M St unit :=
  base ← get;
  newScene ← produce base (createNode_recipe input);
  set {| p_icons := None; p_nodes := Some (nodes newScene);
         p_connectors := None; p_textBoxes := None; p_rectangles := None |}.

(** The body of the [forEach] of [updateNode]. *)
Definition reroute (id : string) (connector : Connector.t) (i : nat)
    : M Scene unit :=
  let needsUpdate :=
    List.find (refersToNode id) (Connector.anchors connector) in
  if defined needsUpdate then
    draftState ← gets (λ d, d);
    path ← lift (getConnectorPath (Connector.anchors connector)
                   (nodes draftState)
                   (getAllAnchors (connectors draftState)));
    modify (with_connectors (alter (Connector.set_path path) i))
  else mret tt.

Definition updateNode_recipe (id : string) (updates : Node.Updates)
    : M Scene unit :=
  items ← gets nodes;
  '(found, index) ← lift (getItemById items id);
  node ← deref nodes index found;
  modify (with_nodes (<[index := Node.merge node updates]>));;
  forEach connectors (reroute id).

Definition updateNode (id : string) (updates : Node.Updates) : M St unit :=
  base ← get;
  newScene ← produce base (updateNode_recipe id updates);
  set {| p_icons := None; p_nodes := Some (nodes newScene);
         p_connectors := Some (connectors newScene);
         p_textBoxes := None; p_rectangles := None |}.

(** The callback of the [filter] of [deleteNode]. *)
Definition unbound (id : string) (connector : Connector.t) : bool :=
  negb (defined (List.find (refersToNode id) (Connector.anchors connector))).

Definition deleteNode_recipe (id : string) : M Scene unit :=
  items ← gets nodes;
  '(_, index) ← lift (getItemById items id);
  modify (with_nodes (delete index));;
  modify (with_connectors (List.filter (unbound id))).

Definition deleteNode (id : string) : M St unit :=
  base ← get;
  newScene ← produce base (deleteNode_recipe id);
  set {| p_icons := None; p_nodes := Some (nodes newScene);
         p_connectors := Some (connectors newScene);
         p_textBoxes := None; p_rectangles := None |}.

Definition createConnector_recipe (input : JsValue) : M Scene unit :=
  draftState ← gets (λ d, d);
  new ← lift (connectorInputToConnector input (nodes draftState)
                (getAllAnchors (connectors draftState)));
  modify (with_connectors (λ l, l ++ [new])).

Definition createConnector (input : JsValue) : M St unit :=
  base ← get;
  newScene ← produce base (createConnector_recipe input);
  set {| p_icons := None; p_nodes := None;
         p_connectors := Some (connectors newScene);
         p_textBoxes := None; p_rectangles := None |}.

Definition updateConnector_recipe (id : string) (updates : Connector.Updates)
    : M Scene unit :=
  items ← gets connectors;
  '(found, index) ← lift (getItemById items id);
  connector ← deref connectors index found;
  modify (with_connectors (<[index := Connector.merge connector updates]>)).

Definition updateConnector (id : string) (updates : Connector.Updates)
    : M St unit :=
  base ← get;
  newScene ← produce base (updateConnector_recipe id updates);
  set {| p_icons := None; p_nodes := None;
         p_connectors := Some (connectors newScene);
         p_textBoxes := None; p_rectangles := None |}.

Definition deleteConnector_recipe (id : string) : M Scene unit :=
  items ← gets connectors;
  '(_, index) ← lift (getItemById items id);
  modify (with_connectors (delete index)).

Definition deleteConnector (id : string) : M St unit :=
  base ← get;
  newScene ← produce base (deleteConnector_recipe id);
  set {| p_icons := None; p_nodes := None;
         p_connectors := Some (connectors newScene);
         p_textBoxes := None; p_rectangles := None |}.

Definition createRectangle_recipe (input : JsValue) : M Scene unit :=
  modify (with_rectangles (λ l, l ++ [rectangleInputToRectangle input])).

Definition createRectangle (input : JsValue) : M St unit :=
  base ← get;
  newScene ← produce base (createRectangle_recipe input);
  set {| p_icons := None; p_nodes := None; p_connectors := None;
         p_textBoxes := None; p_rectangles := Some (rectangles newScene) |}.

Definition createTextBox_recipe (input : JsValue) : M Scene unit :=
  modify (with_textBoxes (λ l, l ++ [textBoxInputToTextBox input])).

Definition createTextBox (input : JsValue) : M St unit :=
  base ← get;
  newScene ← produce base (createTextBox_recipe input);
  set {| p_icons := None; p_nodes := None; p_connectors := None;
         p_textBoxes := Some (textBoxes newScene); p_rectangles := None |}.

(** The size that [updateTextBox] measures. *)
Definition measured (textBox : TextBox.t) (updates : TextBox.Updates) : Size :=
  {| width :=
       getTextWidth
         (nullish (TextBox.u_text updates) (TextBox.text textBox))
         {| Style.fontSize :=
              nullish (TextBox.u_fontSize updates) (TextBox.fontSize textBox);
            Style.fontFamily := DEFAULT_FONT_FAMILY;
            Style.fontWeight := TEXTBOX_DEFAULTS_fontWeight |};
     height := 1 |}.

Definition updateTextBox_recipe (id : string) (updates : TextBox.Updates)
    : M Scene unit :=
  items ← gets textBoxes;
  '(found, index) ← lift (getItemById items id);
  (if defined (TextBox.u_text updates) || defined (TextBox.u_fontSize updates)
   then
     textBox ← deref textBoxes index found;
     modify (with_textBoxes
               (alter (TextBox.set_size (measured textBox updates)) index))
   else mret tt);;
  textBox ← deref textBoxes index found;
  modify (with_textBoxes (<[index := TextBox.merge textBox updates]>)).

Definition updateTextBox (id : string) (updates : TextBox.Updates)
    : M St unit :=
  base ← get;
  newScene ← produce base (updateTextBox_recipe id updates);
  set {| p_icons := None; p_nodes := None; p_connectors := None;
         p_textBoxes := Some (textBoxes newScene); p_rectangles := None |}.

Definition deleteTextBox_recipe (id : string) : M Scene unit :=
  items ← gets textBoxes;
  '(_, index) ← lift (getItemById items id);
  modify (with_textBoxes (delete index)).

Definition deleteTextBox (id : string) : M St unit :=
  base ← get;
  newScene ← produce base (deleteTextBox_recipe id);
  set {| p_icons := None; p_nodes := None; p_connectors := None;
         p_textBoxes := Some (textBoxes newScene); p_rectangles := None |}.

Definition updateRectangle_recipe (id : string) (updates : Rectangle.Updates)
    : M Scene unit :=
  items ← gets rectangles;
  '(found, index) ← lift (getItemById items id);
  rectangle ← deref rectangles index found;
  modify (with_rectangles (<[index := Rectangle.merge rectangle updates]>)).

Definition updateRectangle (id : string) (updates : Rectangle.Updates)
    : M St unit :=
  base ← get;
  newScene ← produce base (updateRectangle_recipe id updates);
  set {| p_icons := None; p_nodes := None; p_connectors := None;
         p_textBoxes := None; p_rectangles := Some (rectangles newScene) |}.

Definition deleteRectangle_recipe (id : string) : M Scene unit :=
  items ← gets rectangles;
  '(_, index) ← lift (getItemById items id);
  modify (with_rectangles (delete index)).

Definition deleteRectangle (id : string) : M St unit :=
  base ← get;
  newScene ← produce base (deleteRectangle_recipe id);
  set {| p_icons := None; p_nodes := None; p_connectors := None;
         p_textBoxes := None; p_rectangles := Some (rectangles newScene) |}.

(** A call of one of the store's actions, and its execution. *)
Inductive Action :=
| SetScene (scene : JsValue)
| UpdateScene (scene : Scene)
| CreateNode (input : JsValue)
| UpdateNode (id : string) (updates : Node.Updates)
| DeleteNode (id : string)
| CreateConnector (input : JsValue)
| UpdateConnector (id : string) (updates : Connector.Updates)
| DeleteConnector (id : string)
| CreateRectangle (input : JsValue)
| CreateTextBox (input : JsValue)
| UpdateTextBox (id : string) (updates : TextBox.Updates)
| DeleteTextBox (id : string)
| UpdateRectangle (id : string) (updates : Rectangle.Updates)
| DeleteRectangle (id : string).

Definition call (a : Action) : M St unit :=
  match a with
  | SetScene scene => setScene scene;; mret tt
  | UpdateScene scene => updateScene scene
  | CreateNode input => createNode input
  | UpdateNode id updates => updateNode id updates
  | DeleteNode id => deleteNode id
  | CreateConnector input => createConnector input
  | UpdateConnector id updates => updateConnector id updates
  | DeleteConnector id => deleteConnector id
  | CreateRectangle input => createRectangle input
  | CreateTextBox input => createTextBox input
  | UpdateTextBox id updates => updateTextBox id updates
  | DeleteTextBox id => deleteTextBox id
  | UpdateRectangle id updates => updateRectangle id updates
  | DeleteRectangle id => deleteRectangle id
  end.

End Actions.

(** ** The store as values

    The published scene, and the calls [listener(state, previousState)] made
    to the subscribers so far, oldest first. *)
Record Store := {
  state : Scene;
  listenerCalls : list (Scene * Scene)
}.

Definition initialState : Store :=
  {| state := initialScene; listenerCalls := [] |}.

(** zustand's [set(partial)]: the next state is the previous one with the
    keys of [partial] assigned, and every listener is called with both. *)
Definition Store_set (partial : PartialScene) : M Store unit :=
  modify (λ st, let next := assign (state st) partial in
                {| state := next;
                   listenerCalls := listenerCalls st ++ [(next, state st)] |}).

Global Instance Store_api : StoreApi Store :=
  {| set := Store_set; get := gets state |}.

(** ** The store as objects

    What a caller holds after [get()] or a selector is a reference: to a
    state object, whose five keys refer to arrays.  Here the state objects
    and the arrays live in a heap and are named by their address (their
    position in the heap), so that holding a snapshot is holding an address
    and publishing is making a new object.  In this store [get] hands out a
    value and nothing writes an object in place; the store in which objects
    are written in place is [Mutable], further down. *)
Record StateObject := {
  at_icons : nat;
  at_nodes : nat;
  at_connectors : nat;
  at_textBoxes : nat;
  at_rectangles : nat
}.

Record Heap := {
  iconArrays : list (list Icon.t);
  nodeArrays : list (list Node.t);
  connectorArrays : list (list Connector.t);
  textBoxArrays : list (list TextBox.t);
  rectangleArrays : list (list Rectangle.t);
  stateObjects : list StateObject
}.

(** The heap, the address of the published state object, and the calls
    [listener(state, previousState)] made so far, by address. *)
Record HeapStore := {
  heap : Heap;
  current : nat;
  listened : list (nat * nat)
}.

(** The array at an address (an address that was never handed out reads as
    an empty array). *)
Definition arrayAt {T} (arrays : list (list T)) (address : nat) : list T :=
  default [] (arrays !! address).

Definition objectAt (h : Heap) (address : nat) : StateObject :=
  default {| at_icons := 0; at_nodes := 0; at_connectors := 0;
             at_textBoxes := 0; at_rectangles := 0 |}
          (stateObjects h !! address).

(** What a reader sees through the state object at an address. *)
Definition snapshot (h : Heap) (address : nat) : Scene :=
  let o := objectAt h address in
  {| icons := arrayAt (iconArrays h) (at_icons o);
     nodes := arrayAt (nodeArrays h) (at_nodes o);
     connectors := arrayAt (connectorArrays h) (at_connectors o);
     textBoxes := arrayAt (textBoxArrays h) (at_textBoxes o);
     rectangles := arrayAt (rectangleArrays h) (at_rectangles o) |}.

(** One key of [Object.assign({}, state, partial)]: a key of [partial]
    refers to the array it was given, a new object of the heap; a key that
    [partial] lacks keeps the reference of the previous state.  (When a
    recipe leaves an array untouched, immer hands the old array back; the
    new array of equal content that stands for it here reads the same.) *)
Definition assignKey {T} (key : option (list T)) (previous : nat)
    (arrays : list (list T)) : nat * list (list T) :=
  match key with
  | Some array => (length arrays, arrays ++ [array])
  | None => (previous, arrays)
  end.

(** [Object.assign({}, state, partial)] on the heap, made the published
    state: the next state is a new object, no existing object is written,
    and the call of the listeners is recorded. *)
Definition publish (partial : PartialScene) (hs : HeapStore) : HeapStore :=
  let h := heap hs in
  let previous := objectAt h (current hs) in
  let i := assignKey (p_icons partial) (at_icons previous) (iconArrays h) in
  let n := assignKey (p_nodes partial) (at_nodes previous) (nodeArrays h) in
  let c := assignKey (p_connectors partial) (at_connectors previous)
             (connectorArrays h) in
  let t := assignKey (p_textBoxes partial) (at_textBoxes previous)
             (textBoxArrays h) in
  let r := assignKey (p_rectangles partial) (at_rectangles previous)
             (rectangleArrays h) in
  let next := length (stateObjects h) in
  {| heap :=
       {| iconArrays := i.2; nodeArrays := n.2; connectorArrays := c.2;
          textBoxArrays := t.2; rectangleArrays := r.2;
          stateObjects :=
            stateObjects h ++
            [{| at_icons := i.1; at_nodes := n.1; at_connectors := c.1;
                at_textBoxes := t.1; at_rectangles := r.1 |}] |};
     current := next;
     listened := listened hs ++ [(next, current hs)] |}.

(** zustand's [set(partial)] on the heap. *)
Definition HeapStore_set (partial : PartialScene) : M HeapStore unit :=
  modify (publish partial).

Global Instance HeapStore_api : StoreApi HeapStore :=
  {| set := HeapStore_set;
     get := gets (λ hs, snapshot (heap hs) (current hs)) |}.

(** The store as created: [initialScene], five empty arrays. *)
Definition initialHeapStore : HeapStore :=
  {| heap :=
       {| iconArrays := [[]]; nodeArrays := [[]]; connectorArrays := [[]];
          textBoxArrays := [[]]; rectangleArrays := [[]];
          stateObjects :=
            [{| at_icons := 0; at_nodes := 0; at_connectors := 0;
                at_textBoxes := 0; at_rectangles := 0 |}] |};
     current := 0;
     listened := [] |}.

(** Every reference is to an object of the heap. *)
Definition allocated (h : Heap) (o : StateObject) : Prop :=
  at_icons o < length (iconArrays h) ∧
  at_nodes o < length (nodeArrays h) ∧
  at_connectors o < length (connectorArrays h) ∧
  at_textBoxes o < length (textBoxArrays h) ∧
  at_rectangles o < length (rectangleArrays h).

Definition wellFormed (hs : HeapStore) : Prop :=
  current hs < length (stateObjects (heap hs)) ∧
  Forall (allocated (heap hs)) (stateObjects (heap hs)) ∧
  Forall (λ call, call.1 < length (stateObjects (heap hs)) ∧
                  call.2 < length (stateObjects (heap hs)))
         (listened hs).

(** Every object of [h] is in [h'], at its address and with its content. *)
Definition extends (h h' : Heap) : Prop :=
  iconArrays h `prefix_of` iconArrays h' ∧
  nodeArrays h `prefix_of` nodeArrays h' ∧
  connectorArrays h `prefix_of` connectorArrays h' ∧
  textBoxArrays h `prefix_of` textBoxArrays h' ∧
  rectangleArrays h `prefix_of` rectangleArrays h' ∧
  stateObjects h `prefix_of` stateObjects h'.

(** The store of values that a store of objects stands for. *)
Definition abstraction (hs : HeapStore) : Store :=
  {| state := snapshot (heap hs) (current hs);
     listenerCalls :=
       (λ call, (snapshot (heap hs) call.1, snapshot (heap hs) call.2))
         <$> listened hs |}.

(** ** The vocabulary of the properties *)

(** The connector has an anchor bound to the node [id]. *)
Definition boundTo (id : string) (connector : Connector.t) : Prop :=
  ∃ anchor,
    anchor ∈ Connector.anchors connector ∧
    Ref.type (ConnectorAnchor.ref anchor) = "NODE" ∧
    Ref.id (ConnectorAnchor.ref anchor) = Some id.

(** Every node that an anchor of a connector is bound to is in the scene. *)
Definition resolved (s : Scene) : Prop :=
  ∀ connector id,
    connector ∈ connectors s → boundTo id connector → id ∈ ids (nodes s).

(** No two entities of a sequence share an id. *)
Definition unique (s : Scene) : Prop :=
  NoDup (ids (icons s)) ∧ NoDup (ids (nodes s)) ∧
  NoDup (ids (connectors s)) ∧ NoDup (ids (textBoxes s)) ∧
  NoDup (ids (rectangles s)).

(** An update keeps the id of the entity [id] or gives it one that no
    entity of the sequence has. *)
Definition keepsOrFresh (id : string) (u_id : option string)
    (taken : list string) : Prop :=
  ∀ id', u_id = Some id' → id' = id ∨ id' ∉ taken.

(** What does not write the store. *)
Definition readOnly {St A} (m : M St A) : Prop := ∀ st, (m st).2 = st.

(** The computation on objects does, seen through [abstraction], what the
    computation on values does, and keeps every reference allocated. *)
Definition refines {A} (onObjects : M HeapStore A) (onValues : M Store A)
    : Prop :=
  ∀ hs,
    wellFormed hs →
    onValues (abstraction hs)
    = ((onObjects hs).1, abstraction (onObjects hs).2) ∧
    wellFormed (onObjects hs).2.

Section Reachable.
Context {utils : Collaborators}.

(** The stores that a sequence of calls leads to from the initial one. *)
Inductive reachable : Store → Prop :=
| reachable_initial : reachable initialState
| reachable_call st a r st' :
    reachable st → call a st = (r, st') → reachable st'.

(** The call brings no id into a sequence that the sequence already has:
    what is created has an id not yet in its sequence, an update keeps the
    id or changes it to one not in the sequence, and the sequences given to
    [updateScene], or normalised by [setScene] from a valid input, have no
    id twice. *)
Definition clashFree (a : Action) (s : Scene) : Prop :=
  match a with
  | SetScene scene => validate scene = true → unique (sceneInputToScene scene)
  | UpdateScene scene =>
      NoDup (ids (nodes scene)) ∧ NoDup (ids (connectors scene)) ∧
      NoDup (ids (rectangles scene))
  | CreateNode input => Node.id (nodeInputToNode input) ∉ ids (nodes s)
  | CreateConnector input =>
      ∀ new,
        connectorInputToConnector input (nodes s)
          (getAllAnchors (connectors s)) = Ok new →
        Connector.id new ∉ ids (connectors s)
  | CreateRectangle input =>
      Rectangle.id (rectangleInputToRectangle input) ∉ ids (rectangles s)
  | CreateTextBox input =>
      TextBox.id (textBoxInputToTextBox input) ∉ ids (textBoxes s)
  | UpdateNode id updates =>
      keepsOrFresh id (Node.u_id updates) (ids (nodes s))
  | UpdateConnector id updates =>
      keepsOrFresh id (Connector.u_id updates) (ids (connectors s))
  | UpdateTextBox id updates =>
      keepsOrFresh id (TextBox.u_id updates) (ids (textBoxes s))
  | UpdateRectangle id updates =>
      keepsOrFresh id (Rectangle.u_id updates) (ids (rectangles s))
  | DeleteNode _ | DeleteConnector _ | DeleteTextBox _ | DeleteRectangle _ =>
      True
  end.

Inductive reachableClashFree : Store → Prop :=
| reachableClashFree_initial : reachableClashFree initialState
| reachableClashFree_call st a r st' :
    reachableClashFree st → clashFree a (state st) →
    call a st = (r, st') → reachableClashFree st'.

End Reachable.

(** ** An instance of the collaborators and a scene, for the examples *)

Module Demo.

Definition text_of (v : JsValue) : string :=
  match v with JsString s => s | _ => "" end.

Definition anchorOn (id : string) : ConnectorAnchor.t :=
  {| ConnectorAnchor.ref :=
       {| Ref.type := "NODE"; Ref.id := Some id; Ref.other := ∅ |};
     ConnectorAnchor.other := ∅ |}.

Definition anchorAt (tile : JsValue) : ConnectorAnchor.t :=
  {| ConnectorAnchor.ref :=
       {| Ref.type := "TILE"; Ref.id := None;
          Ref.other := {[ "coords" := tile ]} |};
     ConnectorAnchor.other := ∅ |}.

(** A router that lists the ids of the nodes it is given. *)
Definition route (anchors : list ConnectorAnchor.t) (nodes : list Node.t)
    (allAnchors : list ConnectorAnchor.t) : Result JsValue :=
  Ok (JsArray (JsString ∘ Node.id <$> nodes)).

Definition utils : Collaborators :=
  {| validate := λ raw, match raw with JsObject _ => true | _ => false end;
     sceneInputToScene := λ _, initialScene;
     nodeInputToNode :=
       λ input, {| Node.id := text_of input; Node.other := ∅ |};
     connectorInputToConnector :=
       λ input nodes allAnchors,
         match route [anchorOn (text_of input)] nodes allAnchors with
         | Ok path =>
             Ok {| Connector.id := text_of input;
                   Connector.anchors := [anchorOn (text_of input)];
                   Connector.path := path; Connector.other := ∅ |}
         | Throw e => Throw e
         end;
     rectangleInputToRectangle :=
       λ input, {| Rectangle.id := text_of input; Rectangle.other := ∅ |};
     textBoxInputToTextBox :=
       λ input,
         {| TextBox.id := text_of input; TextBox.text := "";
            TextBox.fontSize := 1; TextBox.size := {| width := 0; height := 1 |};
            TextBox.other := ∅ |};
     getConnectorPath := route;
     getTextWidth := λ text style, Style.fontSize style;
     DEFAULT_FONT_FAMILY := "Roboto";
     TEXTBOX_DEFAULTS_fontWeight := JsString "bold" |}.

Definition n1 : Node.t := {| Node.id := "n1"; Node.other := ∅ |}.
Definition n2 : Node.t := {| Node.id := "n2"; Node.other := ∅ |}.

Definition c1 : Connector.t :=
  {| Connector.id := "c1";
     Connector.anchors := [anchorOn "n1"; anchorOn "n2"];
     Connector.path := JsNull; Connector.other := ∅ |}.
Definition c2 : Connector.t :=
  {| Connector.id := "c2";
     Connector.anchors := [anchorOn "n2"; anchorAt (JsNumber 3)];
     Connector.path := JsNull; Connector.other := ∅ |}.

Definition t1 : TextBox.t :=
  {| TextBox.id := "t1"; TextBox.text := "old"; TextBox.fontSize := 2;
     TextBox.size := {| width := 5; height := 1 |}; TextBox.other := ∅ |}.

Definition scene : Scene :=
  {| icons := []; nodes := [n1; n2]; connectors := [c1; c2];
     textBoxes := [t1]; rectangles := [] |}.

Definition store : Store := {| state := scene; listenerCalls := [] |}.

(** Updates: a node moved, a connector recoloured, a text box retitled, and
    a text box retitled with a size of the caller's. *)
Definition moved : Node.Updates :=
  {| Node.u_id := None; Node.u_other := {[ "tile" := JsNumber 7 ]} |}.

Definition recoloured : Connector.Updates :=
  {| Connector.u_id := None; Connector.u_anchors := None;
     Connector.u_path := None;
     Connector.u_other := {[ "color" := JsString "red" ]} |}.

Definition retitled : TextBox.Updates :=
  {| TextBox.u_id := None; TextBox.u_text := Some "Hello";
     TextBox.u_fontSize := None; TextBox.u_size := None;
     TextBox.u_other := ∅ |}.

Definition resized : TextBox.Updates :=
  {| TextBox.u_id := None; TextBox.u_text := Some "Hello";
     TextBox.u_fontSize := None;
     TextBox.u_size := Some {| width := 9; height := 4 |};
     TextBox.u_other := ∅ |}.

End Demo.

(** ** More vocabulary: the keys an action sets, updates, references *)

Global Instance Kind_eq_dec : EqDecision Kind.
Proof. solve_decision. Defined.

(** The keys that a partial scene has. *)
Definition keys (partial : PartialScene) : list Kind :=
  (if defined (p_icons partial) then [KIcon] else []) ++
  (if defined (p_nodes partial) then [KNode] else []) ++
  (if defined (p_connectors partial) then [KConnector] else []) ++
  (if defined (p_textBoxes partial) then [KTextBox] else []) ++
  (if defined (p_rectangles partial) then [KRectangle] else []).

(** The keys of the object that each action passes to [set]. *)
Definition keysOf (a : Action) : list Kind :=
  match a with
  | SetScene _ => [KIcon; KNode; KConnector; KTextBox; KRectangle]
  | UpdateScene _ => [KNode; KConnector; KRectangle]
  | CreateNode _ => [KNode]
  | UpdateNode _ _ | DeleteNode _ => [KNode; KConnector]
  | CreateConnector _ | UpdateConnector _ _ | DeleteConnector _ =>
      [KConnector]
  | CreateRectangle _ | UpdateRectangle _ _ | DeleteRectangle _ =>
      [KRectangle]
  | CreateTextBox _ | UpdateTextBox _ _ | DeleteTextBox _ => [KTextBox]
  end.

(** The store of values after [set(partial)]. *)
Definition published (partial : PartialScene) (st : Store) : Store :=
  (Store_set partial st).2.

(** A computation on a store whose [set(partial)] leads to [pub partial]:
    it throws and leaves the store as it was, or returns after one [set],
    of a partial scene that satisfies [P]. *)
Definition setsOnce {St A} (pub : PartialScene → St → St)
    (P : PartialScene → Prop) (m : M St A) : Prop :=
  ∀ st,
    (∃ e, m st = (Throw e, st)) ∨
    (∃ a partial, P partial ∧ m st = (Ok a, pub partial st)).

(** The updates [{}]. *)
Definition Connector_noUpdates : Connector.Updates :=
  {| Connector.u_id := None; Connector.u_anchors := None;
     Connector.u_path := None; Connector.u_other := ∅ |}.
Definition Rectangle_noUpdates : Rectangle.Updates :=
  {| Rectangle.u_id := None; Rectangle.u_other := ∅ |}.
Definition TextBox_noUpdates : TextBox.Updates :=
  {| TextBox.u_id := None; TextBox.u_text := None;
     TextBox.u_fontSize := None; TextBox.u_size := None;
     TextBox.u_other := ∅ |}.

(** The updates [{...first, ...second}]. *)
Definition Rectangle_bothUpdates (first second : Rectangle.Updates)
    : Rectangle.Updates :=
  {| Rectangle.u_id :=
       match Rectangle.u_id second with
       | Some id => Some id
       | None => Rectangle.u_id first
       end;
     Rectangle.u_other :=
       Rectangle.u_other second ∪ Rectangle.u_other first |}.

(** Every anchor of [anchors] that is bound to a node is bound to one of
    [nodes]. *)
Definition anchorsResolved (anchors : list ConnectorAnchor.t)
    (nodes : list Node.t) : Prop :=
  ∀ anchor id,
    anchor ∈ anchors →
    Ref.type (ConnectorAnchor.ref anchor) = "NODE" →
    Ref.id (ConnectorAnchor.ref anchor) = Some id →
    id ∈ ids nodes.

Section References.
Context {utils : Collaborators}.

(** The call brings no dangling reference: what [setScene] normalises and
    what [updateScene] is given is resolved, a connector that is created or
    given new anchors is bound to nodes of the scene only, and an update of
    a node keeps its id unless no connector is bound to it.  The other
    actions need nothing. *)
Definition keepsReferences (a : Action) (s : Scene) : Prop :=
  match a with
  | SetScene scene => validate scene = true → resolved (sceneInputToScene scene)
  | UpdateScene scene => resolved scene
  | UpdateNode id updates =>
      (∀ id', Node.u_id updates = Some id' → id' = id) ∨
      (∀ connector, connector ∈ connectors s → ¬ boundTo id connector)
  | CreateConnector input =>
      ∀ new,
        connectorInputToConnector input (nodes s)
          (getAllAnchors (connectors s)) = Ok new →
        anchorsResolved (Connector.anchors new) (nodes s)
  | UpdateConnector id updates =>
      ∀ anchors,
        Connector.u_anchors updates = Some anchors →
        anchorsResolved anchors (nodes s)
  | _ => True
  end.

End References.

(** A scene with rectangles, and collaborators whose router throws when an
    anchor is bound to a node that is not there. *)
Module Sample.

(** The anchor is bound to a node that is not in [nodes]. *)
Definition dangles (nodes : list Node.t) (anchor : ConnectorAnchor.t)
    : bool :=
  match Ref.id (ConnectorAnchor.ref anchor) with
  | Some id =>
      bool_decide (Ref.type (ConnectorAnchor.ref anchor) = "NODE")
      && negb (bool_decide (id ∈ ids nodes))
  | None => false
  end.

Definition strictRoute (anchors : list ConnectorAnchor.t)
    (nodes : list Node.t) (allAnchors : list ConnectorAnchor.t)
    : Result JsValue :=
  match List.find (dangles nodes) anchors with
  | Some anchor =>
      Throw (NotFound KNode
               (default "" (Ref.id (ConnectorAnchor.ref anchor))))
  | None => Demo.route anchors nodes allAnchors
  end.

Definition strict : Collaborators :=
  {| validate := validate (Collaborators := Demo.utils);
     sceneInputToScene := sceneInputToScene (Collaborators := Demo.utils);
     nodeInputToNode := nodeInputToNode (Collaborators := Demo.utils);
     connectorInputToConnector :=
       λ input nodes allAnchors,
         match strictRoute [Demo.anchorOn (Demo.text_of input)] nodes
                 allAnchors with
         | Ok path =>
             Ok {| Connector.id := "to-" +:+ Demo.text_of input;
                   Connector.anchors := [Demo.anchorOn (Demo.text_of input)];
                   Connector.path := path; Connector.other := ∅ |}
         | Throw e => Throw e
         end;
     rectangleInputToRectangle :=
       rectangleInputToRectangle (Collaborators := Demo.utils);
     textBoxInputToTextBox :=
       textBoxInputToTextBox (Collaborators := Demo.utils);
     getConnectorPath := strictRoute;
     getTextWidth := getTextWidth (Collaborators := Demo.utils);
     DEFAULT_FONT_FAMILY := "Roboto";
     TEXTBOX_DEFAULTS_fontWeight := JsString "bold" |}.

(** A connector with an anchor on a node that is not there. *)
Definition c3 : Connector.t :=
  {| Connector.id := "c3";
     Connector.anchors := [Demo.anchorOn "n1"; Demo.anchorOn "ghost"];
     Connector.path := JsNull; Connector.other := ∅ |}.

Definition dangling : Store :=
  {| state :=
       {| icons := []; nodes := [Demo.n1; Demo.n2];
          connectors := [Demo.c1; c3]; textBoxes := []; rectangles := [] |};
     listenerCalls := [] |}.

Definition r1 : Rectangle.t :=
  {| Rectangle.id := "r1"; Rectangle.other := {[ "color" := JsString "blue" ]} |}.
Definition r2 : Rectangle.t :=
  {| Rectangle.id := "r2"; Rectangle.other := ∅ |}.

Definition scene : Scene :=
  {| icons := []; nodes := [Demo.n1; Demo.n2];
     connectors := [Demo.c1; Demo.c2];
     textBoxes := [Demo.t1]; rectangles := [r1; r2] |}.

Definition store : Store := {| state := scene; listenerCalls := [] |}.

Definition painted : Rectangle.Updates :=
  {| Rectangle.u_id := None;
     Rectangle.u_other := {[ "color" := JsString "red" ]} |}.

Definition framed : Rectangle.Updates :=
  {| Rectangle.u_id := None;
     Rectangle.u_other := {[ "border" := JsNumber 2 ]} |}.

Definition shifted : TextBox.Updates :=
  {| TextBox.u_id := None; TextBox.u_text := None;
     TextBox.u_fontSize := None; TextBox.u_size := None;
     TextBox.u_other := {[ "tile" := JsNumber 4 ]} |}.

End Sample.

(** ** The store as objects that are written in place

    In JavaScript [get()] hands out a reference, and [push], [splice] and an
    assignment write the object they are given, for everyone who holds it.
    Here the actions are embedded once more, on references: [get] returns
    the address of the published state object, a recipe is a function of
    the address of its draft, and what it does to the draft are writes to
    the heap at that address.  A write through an address that a caller
    holds would show in the caller's snapshot. *)
Module Mutable.

(** The keys of a state object, with the type of the elements of their
    arrays. *)
Inductive Key : Type → Type :=
| Icons : Key Icon.t
| Nodes : Key Node.t
| Connectors : Key Connector.t
| TextBoxes : Key TextBox.t
| Rectangles : Key Rectangle.t.

(** The arrays of the heap that hold the elements of a key. *)
Definition arraysOf {T} (key : Key T) (h : Heap) : list (list T) :=
  match key in Key T return list (list T) with
  | Icons => iconArrays h
  | Nodes => nodeArrays h
  | Connectors => connectorArrays h
  | TextBoxes => textBoxArrays h
  | Rectangles => rectangleArrays h
  end.

Definition withArrays {T} (key : Key T)
    (f : list (list T) → list (list T)) (h : Heap) : Heap :=
  match key in Key T return (list (list T) → list (list T)) → Heap with
  | Icons => λ f,
      {| iconArrays := f (iconArrays h); nodeArrays := nodeArrays h;
         connectorArrays := connectorArrays h;
         textBoxArrays := textBoxArrays h;
         rectangleArrays := rectangleArrays h;
         stateObjects := stateObjects h |}
  | Nodes => λ f,
      {| iconArrays := iconArrays h; nodeArrays := f (nodeArrays h);
         connectorArrays := connectorArrays h;
         textBoxArrays := textBoxArrays h;
         rectangleArrays := rectangleArrays h;
         stateObjects := stateObjects h |}
  | Connectors => λ f,
      {| iconArrays := iconArrays h; nodeArrays := nodeArrays h;
         connectorArrays := f (connectorArrays h);
         textBoxArrays := textBoxArrays h;
         rectangleArrays := rectangleArrays h;
         stateObjects := stateObjects h |}
  | TextBoxes => λ f,
      {| iconArrays := iconArrays h; nodeArrays := nodeArrays h;
         connectorArrays := connectorArrays h;
         textBoxArrays := f (textBoxArrays h);
         rectangleArrays := rectangleArrays h;
         stateObjects := stateObjects h |}
  | Rectangles => λ f,
      {| iconArrays := iconArrays h; nodeArrays := nodeArrays h;
         connectorArrays := connectorArrays h;
         textBoxArrays := textBoxArrays h;
         rectangleArrays := f (rectangleArrays h);
         stateObjects := stateObjects h |}
  end f.

Definition withObjects (f : list StateObject → list StateObject) (h : Heap)
    : Heap :=
  {| iconArrays := iconArrays h; nodeArrays := nodeArrays h;
     connectorArrays := connectorArrays h; textBoxArrays := textBoxArrays h;
     rectangleArrays := rectangleArrays h;
     stateObjects := f (stateObjects h) |}.

(** The reference that a key of a state object holds. *)
Definition refOf {T} (key : Key T) (o : StateObject) : nat :=
  match key with
  | Icons => at_icons o
  | Nodes => at_nodes o
  | Connectors => at_connectors o
  | TextBoxes => at_textBoxes o
  | Rectangles => at_rectangles o
  end.

Definition withRef {T} (key : Key T) (address : nat) (o : StateObject)
    : StateObject :=
  match key with
  | Icons =>
      {| at_icons := address; at_nodes := at_nodes o;
         at_connectors := at_connectors o; at_textBoxes := at_textBoxes o;
         at_rectangles := at_rectangles o |}
  | Nodes =>
      {| at_icons := at_icons o; at_nodes := address;
         at_connectors := at_connectors o; at_textBoxes := at_textBoxes o;
         at_rectangles := at_rectangles o |}
  | Connectors =>
      {| at_icons := at_icons o; at_nodes := at_nodes o;
         at_connectors := address; at_textBoxes := at_textBoxes o;
         at_rectangles := at_rectangles o |}
  | TextBoxes =>
      {| at_icons := at_icons o; at_nodes := at_nodes o;
         at_connectors := at_connectors o; at_textBoxes := address;
         at_rectangles := at_rectangles o |}
  | Rectangles =>
      {| at_icons := at_icons o; at_nodes := at_nodes o;
         at_connectors := at_connectors o; at_textBoxes := at_textBoxes o;
         at_rectangles := address |}
  end.

(** The sequence of a scene under a key. *)
Definition sequence {T} (key : Key T) (s : Scene) : list T :=
  match key in Key T return list T with
  | Icons => icons s
  | Nodes => nodes s
  | Connectors => connectors s
  | TextBoxes => textBoxes s
  | Rectangles => rectangles s
  end.

Definition onHeap (f : Heap → Heap) (hs : HeapStore) : HeapStore :=
  {| heap := f (heap hs); current := current hs; listened := listened hs |}.

(** *** What JavaScript does to objects *)

(** [object.key]: the reference that the key holds. *)
Definition field {T} (key : Key T) (object : nat) : M HeapStore nat :=
  gets (λ hs, refOf key (objectAt (heap hs) object)).

(** The elements of the array at an address. *)
Definition elements {T} (key : Key T) (array : nat)
    : M HeapStore (list T) :=
  gets (λ hs, arrayAt (arraysOf key (heap hs)) array).

(** A method or an assignment that writes an array in place ([push],
    [splice], [array[i] = x], [array[i].size = x]): the array at the address
    has other elements afterwards, for every holder of the address. *)
Definition mutate {T} (key : Key T) (array : nat) (f : list T → list T)
    : M HeapStore unit :=
  modify (onHeap (withArrays key (alter f array))).

(** A new array (an array literal, the result of [filter], an array that
    comes from outside the store): a new object at a new address. *)
Definition new {T} (key : Key T) (items : list T) : M HeapStore nat :=
  λ hs, (Ok (length (arraysOf key (heap hs))),
         onHeap (withArrays key (λ arrays, arrays ++ [items])) hs).

(** [object.key = array]: the state object at the address is written in
    place. *)
Definition assignField {T} (key : Key T) (object array : nat)
    : M HeapStore unit :=
  modify (onHeap (withObjects (alter (withRef key array) object))).

(** A new state object. *)
Definition newObject (o : StateObject) : M HeapStore nat :=
  λ hs, (Ok (length (stateObjects (heap hs))),
         onHeap (withObjects (λ objects, objects ++ [o])) hs).

(** [object.key] read as an array: its elements now. *)
Definition read {T} (key : Key T) (object : nat) : M HeapStore (list T) :=
  array ← field key object;
  elements key array.

(** [object.key.push(x)], [object.key.splice(i, 1)], [object.key[i] = x]:
    the array that the key refers to is written in place. *)
Definition update {T} (key : Key T) (object : nat) (f : list T → list T)
    : M HeapStore unit :=
  array ← field key object;
  mutate key array f.

(** [object.key = items], for [items] a new array. *)
Definition replace {T} (key : Key T) (object : nat) (items : list T)
    : M HeapStore unit :=
  array ← new key items;
  assignField key object array.

(** An item that [getItemById] found in [object.key] is the element
    [object.key[index]] itself: reading it later reads what has been written
    to that element since. *)
Definition deref {T} (key : Key T) (object index : nat) (item : T)
    : M HeapStore T :=
  items ← read key object;
  mret (default item (items !! index)).

(** *** The store interface (zustand) and immer's [produce], on objects *)

(** The argument of [set]: an object with some of the scene's keys, each
    referring to an array. *)
Record Partial := {
  ref_icons : option nat;
  ref_nodes : option nat;
  ref_connectors : option nat;
  ref_textBoxes : option nat;
  ref_rectangles : option nat
}.

(** zustand's [set(partial)]: the next state is a new object,
    [Object.assign({}, state, partial)]; it becomes the published one and
    the listeners are called with it and the previous one.  No existing
    object is written. *)
Definition set (partial : Partial) : M HeapStore unit :=
  modify (λ hs,
    let previous := objectAt (heap hs) (current hs) in
    let next := length (stateObjects (heap hs)) in
    {| heap :=
         withObjects
           (λ objects,
              objects ++
              [{| at_icons := spread (at_icons previous) (ref_icons partial);
                  at_nodes := spread (at_nodes previous) (ref_nodes partial);
                  at_connectors :=
                    spread (at_connectors previous) (ref_connectors partial);
                  at_textBoxes :=
                    spread (at_textBoxes previous) (ref_textBoxes partial);
                  at_rectangles :=
                    spread (at_rectangles previous)
                      (ref_rectangles partial) |}])
           (heap hs);
       current := next;
       listened := listened hs ++ [(next, current hs)] |}).

(** zustand's [get()]: the published state object, by reference. *)
Definition get : M HeapStore nat := gets current.

(** A copy of the array that a key of an object refers to. *)
Definition copy {T} (key : Key T) (object : nat) : M HeapStore nat :=
  items ← read key object;
  new key items.

(** immer's draft of [base]: what is written to the draft, or to an array
    that the draft refers to, is written to a copy and not to [base] or
    its arrays.  immer makes the copy of an object when it is first
    written; here all are made before the recipe runs, so that an array
    which the recipe leaves alone is a new object of equal content where
    immer hands back the old one. *)
Definition draft (base : nat) : M HeapStore nat :=
  i ← copy Icons base;
  n ← copy Nodes base;
  c ← copy Connectors base;
  t ← copy TextBoxes base;
  r ← copy Rectangles base;
  newObject {| at_icons := i; at_nodes := n; at_connectors := c;
               at_textBoxes := t; at_rectangles := r |}.

(** immer's [produce(base, recipe)]: the recipe runs on a draft of [base],
    and the draft is the result.  When the recipe throws, the exception goes
    on to the caller; nothing is undone. *)
Definition produce (base : nat) (recipe : nat → M HeapStore unit)
    : M HeapStore nat :=
  draftState ← draft base;
  recipe draftState;;
  mret draftState.

(** *** The actions *)

Section Actions.
Context {utils : Collaborators}.

(** The arrays of a scene that comes from outside the store are objects
    that the store has not seen. *)
Definition setScene (scene : JsValue) : M HeapStore Scene :=
  lift (sceneInput_parse scene);;
  let newScene := sceneInputToScene scene in
  i ← new Icons (icons newScene);
  n ← new Nodes (nodes newScene);
  c ← new Connectors (connectors newScene);
  t ← new TextBoxes (textBoxes newScene);
  r ← new Rectangles (rectangles newScene);
  set {| ref_icons := Some i; ref_nodes := Some n; ref_connectors := Some c;
         ref_textBoxes := Some t; ref_rectangles := Some r |};;
  mret newScene.

Definition updateScene (scene : Scene) : M HeapStore unit :=
  n ← new Nodes (nodes scene);
  c ← new Connectors (connectors scene);
  r ← new Rectangles (rectangles scene);
  set {| ref_icons := None; ref_nodes := Some n; ref_connectors := Some c;
         ref_textBoxes := None; ref_rectangles := Some r |}.

Definition createNode_recipe (input : JsValue) (draftState : nat)
    : M HeapStore unit :=
  update Nodes draftState (λ l, l ++ [nodeInputToNode input]).

Definition createNode (input : JsValue) : M HeapStore unit :=
  base ← get;
  newScene ← produce base (createNode_recipe input);
  n ← field Nodes newScene;
  set {| ref_icons := None; ref_nodes := Some n; ref_connectors := None;
         ref_textBoxes := None; ref_rectangles := None |}.

(** The body of the [forEach] of [updateNode]. *)
Definition reroute (id : string) (draftState : nat)
    (connector : Connector.t) (i : nat) : M HeapStore unit :=
  let needsUpdate :=
    List.find (refersToNode id) (Connector.anchors connector) in
  if defined needsUpdate then
    draftNodes ← read Nodes draftState;
    draftConnectors ← read Connectors draftState;
    path ← lift (getConnectorPath (Connector.anchors connector) draftNodes
                   (getAllAnchors draftConnectors));
    update Connectors draftState (alter (Connector.set_path path) i)
  else mret tt.

Definition updateNode_recipe (id : string) (updates : Node.Updates)
    (draftState : nat) : M HeapStore unit :=
  items ← read Nodes draftState;
  '(found, index) ← lift (getItemById items id);
  node ← deref Nodes draftState index found;
  update Nodes draftState (<[index := Node.merge node updates]>);;
  array ← field Connectors draftState;
  forEach (λ hs, arrayAt (connectorArrays (heap hs)) array)
    (reroute id draftState).

Definition updateNode (id : string) (updates : Node.Updates)
    : M HeapStore unit :=
  base ← get;
  newScene ← produce base (updateNode_recipe id updates);
  n ← field Nodes newScene;
  c ← field Connectors newScene;
  set {| ref_icons := None; ref_nodes := Some n; ref_connectors := Some c;
         ref_textBoxes := None; ref_rectangles := None |}.

Definition deleteNode_recipe (id : string) (draftState : nat)
    : M HeapStore unit :=
  items ← read Nodes draftState;
  '(_, index) ← lift (getItemById items id);
  update Nodes draftState (delete index);;
  draftConnectors ← read Connectors draftState;
  replace Connectors draftState (List.filter (unbound id) draftConnectors).

Definition deleteNode (id : string) : M HeapStore unit :=
  base ← get;
  newScene ← produce base (deleteNode_recipe id);
  n ← field Nodes newScene;
  c ← field Connectors newScene;
  set {| ref_icons := None; ref_nodes := Some n; ref_connectors := Some c;
         ref_textBoxes := None; ref_rectangles := None |}.

Definition createConnector_recipe (input : JsValue) (draftState : nat)
    : M HeapStore unit :=
  draftNodes ← read Nodes draftState;
  draftConnectors ← read Connectors draftState;
  new ← lift (connectorInputToConnector input draftNodes
                (getAllAnchors draftConnectors));
  update Connectors draftState (λ l, l ++ [new]).

Definition createConnector (input : JsValue) : M HeapStore unit :=
  base ← get;
  newScene ← produce base (createConnector_recipe input);
  c ← field Connectors newScene;
  set {| ref_icons := None; ref_nodes := None; ref_connectors := Some c;
         ref_textBoxes := None; ref_rectangles := None |}.

Definition updateConnector_recipe (id : string)
    (updates : Connector.Updates) (draftState : nat) : M HeapStore unit :=
  items ← read Connectors draftState;
  '(found, index) ← lift (getItemById items id);
  connector ← deref Connectors draftState index found;
  update Connectors draftState
    (<[index := Connector.merge connector updates]>).

Definition updateConnector (id : string) (updates : Connector.Updates)
    : M HeapStore unit :=
  base ← get;
  newScene ← produce base (updateConnector_recipe id updates);
  c ← field Connectors newScene;
  set {| ref_icons := None; ref_nodes := None; ref_connectors := Some c;
         ref_textBoxes := None; ref_rectangles := None |}.

Definition deleteConnector_recipe (id : string) (draftState : nat)
    : M HeapStore unit :=
  items ← read Connectors draftState;
  '(_, index) ← lift (getItemById items id);
  update Connectors draftState (delete index).

Definition deleteConnector (id : string) : M HeapStore unit :=
  base ← get;
  newScene ← produce base (deleteConnector_recipe id);
  c ← field Connectors newScene;
  set {| ref_icons := None; ref_nodes := None; ref_connectors := Some c;
         ref_textBoxes := None; ref_rectangles := None |}.

Definition createRectangle_recipe (input : JsValue) (draftState : nat)
    : M HeapStore unit :=
  update Rectangles draftState (λ l, l ++ [rectangleInputToRectangle input]).

Definition createRectangle (input : JsValue) : M HeapStore unit :=
  base ← get;
  newScene ← produce base (createRectangle_recipe input);
  r ← field Rectangles newScene;
  set {| ref_icons := None; ref_nodes := None; ref_connectors := None;
         ref_textBoxes := None; ref_rectangles := Some r |}.

Definition createTextBox_recipe (input : JsValue) (draftState : nat)
    : M HeapStore unit :=
  update TextBoxes draftState (λ l, l ++ [textBoxInputToTextBox input]).

Definition createTextBox (input : JsValue) : M HeapStore unit :=
  base ← get;
  newScene ← produce base (createTextBox_recipe input);
  t ← field TextBoxes newScene;
  set {| ref_icons := None; ref_nodes := None; ref_connectors := None;
         ref_textBoxes := Some t; ref_rectangles := None |}.

Definition updateTextBox_recipe (id : string) (updates : TextBox.Updates)
    (draftState : nat) : M HeapStore unit :=
  items ← read TextBoxes draftState;
  '(found, index) ← lift (getItemById items id);
  (if defined (TextBox.u_text updates) || defined (TextBox.u_fontSize updates)
   then
     textBox ← deref TextBoxes draftState index found;
     update TextBoxes draftState
       (alter (TextBox.set_size (measured textBox updates)) index)
   else mret tt);;
  textBox ← deref TextBoxes draftState index found;
  update TextBoxes draftState (<[index := TextBox.merge textBox updates]>).

Definition updateTextBox (id : string) (updates : TextBox.Updates)
    : M HeapStore unit :=
  base ← get;
  newScene ← produce base (updateTextBox_recipe id updates);
  t ← field TextBoxes newScene;
  set {| ref_icons := None; ref_nodes := None; ref_connectors := None;
         ref_textBoxes := Some t; ref_rectangles := None |}.

Definition deleteTextBox_recipe (id : string) (draftState : nat)
    : M HeapStore unit :=
  items ← read TextBoxes draftState;
  '(_, index) ← lift (getItemById items id);
  update TextBoxes draftState (delete index).

Definition deleteTextBox (id : string) : M HeapStore unit :=
  base ← get;
  newScene ← produce base (deleteTextBox_recipe id);
  t ← field TextBoxes newScene;
  set {| ref_icons := None; ref_nodes := None; ref_connectors := None;
         ref_textBoxes := Some t; ref_rectangles := None |}.

Definition updateRectangle_recipe (id : string)
    (updates : Rectangle.Updates) (draftState : nat) : M HeapStore unit :=
  items ← read Rectangles draftState;
  '(found, index) ← lift (getItemById items id);
  rectangle ← deref Rectangles draftState index found;
  update Rectangles draftState
    (<[index := Rectangle.merge rectangle updates]>).

Definition updateRectangle (id : string) (updates : Rectangle.Updates)
    : M HeapStore unit :=
  base ← get;
  newScene ← produce base (updateRectangle_recipe id updates);
  r ← field Rectangles newScene;
  set {| ref_icons := None; ref_nodes := None; ref_connectors := None;
         ref_textBoxes := None; ref_rectangles := Some r |}.

Definition deleteRectangle_recipe (id : string) (draftState : nat)
    : M HeapStore unit :=
  items ← read Rectangles draftState;
  '(_, index) ← lift (getItemById items id);
  update Rectangles draftState (delete index).

Definition deleteRectangle (id : string) : M HeapStore unit :=
  base ← get;
  newScene ← produce base (deleteRectangle_recipe id);
  r ← field Rectangles newScene;
  set {| ref_icons := None; ref_nodes := None; ref_connectors := None;
         ref_textBoxes := None; ref_rectangles := Some r |}.

Definition call (a : Action) : M HeapStore unit :=
  match a with
  | SetScene scene => setScene scene;; mret tt
  | UpdateScene scene => updateScene scene
  | CreateNode input => createNode input
  | UpdateNode id updates => updateNode id updates
  | DeleteNode id => deleteNode id
  | CreateConnector input => createConnector input
  | UpdateConnector id updates => updateConnector id updates
  | DeleteConnector id => deleteConnector id
  | CreateRectangle input => createRectangle input
  | CreateTextBox input => createTextBox input
  | UpdateTextBox id updates => updateTextBox id updates
  | DeleteTextBox id => deleteTextBox id
  | UpdateRectangle id updates => updateRectangle id updates
  | DeleteRectangle id => deleteRectangle id
  end.

End Actions.

(** *** The vocabulary of the properties *)

(** The draft [d] and the arrays it refers to are no objects of [h0]. *)
Definition owned (h0 : Heap) (hs : HeapStore) (d : nat) : Prop :=
  length (stateObjects h0) ≤ d ∧
  ∀ T (key : Key T),
    length (arraysOf key h0) ≤ refOf key (objectAt (heap hs) d).

(** A computation that is handed the draft [d] writes no object of [h0],
    keeps the draft apart from [h0], and publishes nothing. *)
Definition writesDraft {A} (h0 : Heap) (d : nat) (m : M HeapStore A)
    : Prop :=
  ∀ hs,
    extends h0 (heap hs) → owned h0 hs d →
    extends h0 (heap (m hs).2) ∧ owned h0 (m hs).2 d ∧
    current (m hs).2 = current hs ∧ listened (m hs).2 = listened hs.

(** A computation that writes no object that was there, and publishes
    nothing. *)
Definition quiet {A} (m : M HeapStore A) : Prop :=
  ∀ hs,
    extends (heap hs) (heap (m hs).2) ∧
    current (m hs).2 = current hs ∧ listened (m hs).2 = listened hs.

(** A computation that writes no object that was there, and that publishes
    a new state object, once, when it returns and nothing when it throws. *)
Definition publishes {A} (m : M HeapStore A) : Prop :=
  ∀ hs,
    extends (heap hs) (heap (m hs).2) ∧
    match (m hs).1 with
    | Ok _ =>
        length (stateObjects (heap hs)) ≤ current (m hs).2 ∧
        listened (m hs).2 = listened hs ++ [(current (m hs).2, current hs)]
    | Throw _ =>
        current (m hs).2 = current hs ∧ listened (m hs).2 = listened hs
    end.

(** The assignment to the sequence of a scene under a key. *)
Definition withSequence {T} (key : Key T) (f : list T → list T) (s : Scene)
    : Scene :=
  match key in Key T return (list T → list T) → Scene with
  | Icons => λ f,
      {| icons := f (icons s); nodes := nodes s; connectors := connectors s;
         textBoxes := textBoxes s; rectangles := rectangles s |}
  | Nodes => λ f, with_nodes f s
  | Connectors => λ f, with_connectors f s
  | TextBoxes => λ f, with_textBoxes f s
  | Rectangles => λ f, with_rectangles f s
  end f.

(** The draft [d] is a state object of the heap, and every state object
    refers to arrays of the heap. *)
Definition live (hs : HeapStore) (d : nat) : Prop :=
  d < length (stateObjects (heap hs)) ∧
  Forall (allocated (heap hs)) (stateObjects (heap hs)).

(** The recipe on the draft at [d] does to the scene seen through [d] what
    the recipe on values does to its draft. *)
Definition mirrors {A} (d : nat) (onObjects : M HeapStore A)
    (onValues : M Scene A) : Prop :=
  ∀ hs,
    live hs d →
    onValues (snapshot (heap hs) d)
    = ((onObjects hs).1, snapshot (heap (onObjects hs).2) d) ∧
    live (onObjects hs).2 d.

(** What follows [produce] in an action does, to the draft at [d] that
    [produce] returned, what follows it on values. *)
Definition continues (d : nat) (onObjects : M HeapStore unit)
    (onValues : Scene → M Store unit) : Prop :=
  ∀ hs,
    wellFormed hs → live hs d →
    onValues (snapshot (heap hs) d) (abstraction hs)
    = ((onObjects hs).1, abstraction (onObjects hs).2) ∧
    wellFormed (onObjects hs).2.

(** The partial scene that a partial state object stands for. *)
Definition valuesOf (h : Heap) (partial : Partial) : PartialScene :=
  {| p_icons := arrayAt (iconArrays h) <$> ref_icons partial;
     p_nodes := arrayAt (nodeArrays h) <$> ref_nodes partial;
     p_connectors := arrayAt (connectorArrays h) <$> ref_connectors partial;
     p_textBoxes := arrayAt (textBoxArrays h) <$> ref_textBoxes partial;
     p_rectangles := arrayAt (rectangleArrays h) <$> ref_rectangles partial |}.

(** Every key of the partial state object refers to an array of the heap. *)
Definition refersWithin (h : Heap) (partial : Partial) : Prop :=
  (∀ a, ref_icons partial = Some a → a < length (iconArrays h)) ∧
  (∀ a, ref_nodes partial = Some a → a < length (nodeArrays h)) ∧
  (∀ a, ref_connectors partial = Some a → a < length (connectorArrays h)) ∧
  (∀ a, ref_textBoxes partial = Some a → a < length (textBoxArrays h)) ∧
  (∀ a, ref_rectangles partial = Some a → a < length (rectangleArrays h)).

End Mutable.

(** * Properties *)

(** ** Looking an id up *)

Section Lookup.
Context {T : Type} `{Item T}.
Implicit Types (items : list T) (id : string).

Lemma getItemById_found items id :
  id ∈ ids items →
  ∃ index item,
    getItemById items id = Ok (item, index) ∧
    items !! index = Some item ∧ item_id item = id ∧
    ∀ j other, items !! j = Some other → j < index → item_id other ≠ id.
Proof.
  intros Hin. unfold ids in Hin.
  apply list_elem_of_fmap in Hin as (x & -> & Hx).
  destruct (list_find_elem_of (λ item, item_id item = item_id x) items x Hx
              eq_refl) as [[index item] Hfind].
  exists index, item. unfold getItemById. rewrite Hfind.
  apply list_find_Some in Hfind as (? & ? & ?). eauto.
Qed.

Lemma getItemById_absent items id :
  id ∉ ids items → getItemById items id = Throw (NotFound item_kind id).
Proof.
  intros Hnin. unfold getItemById.
  destruct (list_find _ items) as [[index item]|] eqn:Hfind; [|done].
  apply list_find_Some in Hfind as (Hl & Hid & _).
  destruct Hnin. unfold ids. apply list_elem_of_fmap. exists item.
  split; [done|]. by eapply list_elem_of_lookup_2.
Qed.

Lemma getItemById_Ok items id item index :
  getItemById items id = Ok (item, index) →
  items !! index = Some item ∧ item_id item = id ∧
  ∀ j other, items !! j = Some other → j < index → item_id other ≠ id.
Proof.
  unfold getItemById.
  destruct (list_find _ items) as [[i x]|] eqn:Hfind; [|done].
  intros [= -> ->]. by apply list_find_Some in Hfind.
Qed.

Lemma getItemById_Throw items id e :
  getItemById items id = Throw e → e = NotFound item_kind id ∧ id ∉ ids items.
Proof.
  unfold getItemById.
  destruct (list_find _ items) as [[i x]|] eqn:Hfind; [done|].
  intros [= <-]. split; [done|].
  rewrite list_find_None, Forall_forall in Hfind.
  unfold ids. intros (x & -> & Hx)%list_elem_of_fmap. by eapply Hfind.
Qed.

End Lookup.

(** Unfolds the monad and the store primitives of an action. *)
Ltac run :=
  unfold get, set, Store_api, Store_set;
  unfold mbind, M_bind, bind, mret, M_ret, ret, gets, produce, lift, deref,
    modify;
  simpl.

(** ** [updateScene] and [setScene] *)

(** C9: [updateScene] replaces the nodes, connectors and rectangles of the
    published scene by those it is given, and leaves its text boxes and
    icons as they were. *)
Theorem updateScene_replaces_three_sequences (st : Store) (scene : Scene) :
  ∃ st',
    updateScene scene st = (Ok tt, st') ∧
    textBoxes (state st') = textBoxes (state st) ∧
    icons (state st') = icons (state st) ∧
    nodes (state st') = nodes scene ∧
    connectors (state st') = connectors scene ∧
    rectangles (state st') = rectangles scene.
Proof. eexists. unfold updateScene. run. by repeat split. Qed.

Section SetScene.
Context {utils : Collaborators}.

Lemma assign_allKeys (s new : Scene) : assign s (allKeys new) = new.
Proof. by destruct new. Qed.

(** C4: [setScene] of an input that the validator rejects throws
    [ValidationError] and leaves the store as it was; of an input that it
    accepts, it publishes the normalised scene, all five of its sequences,
    whatever the scene before. *)
Theorem setScene_validates_then_replaces (st : Store) (raw : JsValue) :
  (validate raw = false ∧ setScene raw st = (Throw ValidationError, st))
  ∨
  (validate raw = true ∧
   ∃ st',
     setScene raw st = (Ok (sceneInputToScene raw), st') ∧
     state st' = sceneInputToScene raw ∧
     icons (state st') = icons (sceneInputToScene raw) ∧
     nodes (state st') = nodes (sceneInputToScene raw) ∧
     connectors (state st') = connectors (sceneInputToScene raw) ∧
     textBoxes (state st') = textBoxes (sceneInputToScene raw) ∧
     rectangles (state st') = rectangles (sceneInputToScene raw)).
Proof.
  unfold setScene, sceneInput_parse.
  destruct (validate raw) eqn:Hvalid; [right|left]; (split; [done|]).
  - eexists. run. rewrite assign_allKeys. by repeat split.
  - by run.
Qed.

End SetScene.

(** ** [updateConnector] *)


(** ** [updateTextBox] *)

(** Assigning to element [i] forgets what was written to it before. *)
Lemma insert_alter_same {A} (f : A → A) (x : A) (i : nat) (l : list A) :
  <[i := x]> (alter f i l) = <[i := x]> l.
Proof. by rewrite !list_insert_alter, list_alter_alter_eq. Qed.

Section UpdateTextBox.
Context {utils : Collaborators}.

Lemma touches_defined (updates : TextBox.Updates) :
  is_Some (TextBox.u_text updates) ∨ is_Some (TextBox.u_fontSize updates) →
  defined (TextBox.u_text updates) || defined (TextBox.u_fontSize updates)
  = true.
Proof.
  intros [[? ->]|[? ->]]; simpl; [done|].
  by destruct (TextBox.u_text updates).
Qed.

(** What [updateTextBox] publishes for an id that is in the scene: the
    element found, with the measured size written to it when the updates
    define a text or a font size, merged with the updates. *)
Lemma updateTextBox_found (st : Store) (id : string)
    (updates : TextBox.Updates) :
  id ∈ ids (textBoxes (state st)) →
  ∃ index old st',
    getItemById (textBoxes (state st)) id = Ok (old, index) ∧
    updateTextBox id updates st = (Ok tt, st') ∧
    textBoxes (state st')
      = <[index :=
            TextBox.merge
              (if defined (TextBox.u_text updates)
                  || defined (TextBox.u_fontSize updates)
               then TextBox.set_size (measured old updates) old
               else old)
              updates]> (textBoxes (state st)) ∧
    index < length (textBoxes (state st)).
Proof.
  intros Hin.
  destruct (getItemById_found _ _ Hin) as (index & old & Hget & Hl & _).
  assert (index < length (textBoxes (state st))) as Hlt
      by by eapply lookup_lt_Some.
  exists index, old.
  unfold updateTextBox, updateTextBox_recipe. run.
  rewrite Hget. simpl.
  destruct (defined (TextBox.u_text updates)
            || defined (TextBox.u_fontSize updates)); simpl.
  - rewrite Hl. simpl. rewrite list_lookup_alter_eq, Hl. simpl.
    eexists. split; [done|]. split; [reflexivity|]. split; [|done].
    simpl. by rewrite insert_alter_same.
  - rewrite Hl. simpl.
    eexists. split; [done|]. split; [reflexivity|]. by split.
Qed.

(** C5: when the updates define a text or a font size and carry no size, the
    text box that [updateTextBox] publishes has the width that
    [getTextWidth] measures for the effective text and font size (those of
    the updates when defined, the old ones otherwise) in the default font
    family and weight, and the height 1: the measured size is still there
    after the merge. *)
Theorem updateTextBox_measures_size (st : Store) (id : string)
    (updates : TextBox.Updates) :
  id ∈ ids (textBoxes (state st)) →
  is_Some (TextBox.u_text updates) ∨ is_Some (TextBox.u_fontSize updates) →
  TextBox.u_size updates = None →
  ∃ index old new st',
    getItemById (textBoxes (state st)) id = Ok (old, index) ∧
    updateTextBox id updates st = (Ok tt, st') ∧
    textBoxes (state st') !! index = Some new ∧
    new = TextBox.merge (TextBox.set_size (measured old updates) old) updates ∧
    width (TextBox.size new)
      = getTextWidth
          (match TextBox.u_text updates with
           | Some text => text
           | None => TextBox.text old
           end)
          {| Style.fontSize :=
               match TextBox.u_fontSize updates with
               | Some fontSize => fontSize
               | None => TextBox.fontSize old
               end;
             Style.fontFamily := DEFAULT_FONT_FAMILY;
             Style.fontWeight := TEXTBOX_DEFAULTS_fontWeight |} ∧
    height (TextBox.size new) = 1%float.
Proof.
  intros Hin Htouch Hsize.
  destruct (updateTextBox_found st id updates Hin)
    as (index & old & st' & Hget & Hrun & Hboxes & Hlt).
  exists index, old. eexists. exists st'. split; [done|]. split; [done|].
  split. { rewrite Hboxes. by apply list_lookup_insert_eq. }
  rewrite (touches_defined _ Htouch). split; [done|].
  simpl. rewrite Hsize. simpl.
  by destruct (TextBox.u_text updates), (TextBox.u_fontSize updates).
Qed.

(** C10: when the updates carry a size together with a text or a font size,
    the text box that [updateTextBox] publishes has the size of the
    updates: it is merged over the element to which the measured size was
    written. *)
Theorem updateTextBox_explicit_size_wins (st : Store) (id : string)
    (updates : TextBox.Updates) (size : Size) :
  id ∈ ids (textBoxes (state st)) →
  is_Some (TextBox.u_text updates) ∨ is_Some (TextBox.u_fontSize updates) →
  TextBox.u_size updates = Some size →
  ∃ index old st',
    getItemById (textBoxes (state st)) id = Ok (old, index) ∧
    updateTextBox id updates st = (Ok tt, st') ∧
    textBoxes (state st') !! index
      = Some (TextBox.merge
                (TextBox.set_size (measured old updates) old) updates) ∧
    TextBox.size
      (TextBox.merge (TextBox.set_size (measured old updates) old) updates)
      = size.
Proof.
  intros Hin Htouch Hsize.
  destruct (updateTextBox_found st id updates Hin)
    as (index & old & st' & Hget & Hrun & Hboxes & Hlt).
  exists index, old, st'. split; [done|]. split; [done|].
  split; [|by simpl; rewrite Hsize].
  by rewrite Hboxes, list_lookup_insert_eq, (touches_defined _ Htouch).
Qed.

End UpdateTextBox.

(** ** Actions on an id that is not there *)

Section NotFound.
Context {utils : Collaborators}.

(** A recipe that starts by looking up an id that is not in the array
    throws, and [produce] passes the exception on. *)
Ltac absent Hnin :=
  run; rewrite (getItemById_absent _ _ Hnin); reflexivity.

(** C3: each of the eight actions that address an entity by id, called with
    an id that is not in the sequence it looks in, throws [NotFound] with
    the kind of that sequence and the id, and leaves the store as it was:
    the published scene is the one from before the call and no listener is
    called. *)
Theorem byId_action_on_absent_id (st : Store) (id : string) :
  (id ∉ ids (nodes (state st)) →
   (∀ updates, updateNode id updates st = (Throw (NotFound KNode id), st)) ∧
   deleteNode id st = (Throw (NotFound KNode id), st))
  ∧
  (id ∉ ids (connectors (state st)) →
   (∀ updates,
      updateConnector id updates st = (Throw (NotFound KConnector id), st)) ∧
   deleteConnector id st = (Throw (NotFound KConnector id), st))
  ∧
  (id ∉ ids (rectangles (state st)) →
   (∀ updates,
      updateRectangle id updates st = (Throw (NotFound KRectangle id), st)) ∧
   deleteRectangle id st = (Throw (NotFound KRectangle id), st))
  ∧
  (id ∉ ids (textBoxes (state st)) →
   (∀ updates,
      updateTextBox id updates st = (Throw (NotFound KTextBox id), st)) ∧
   deleteTextBox id st = (Throw (NotFound KTextBox id), st)).
Proof.
  split; [|split; [|split]]; intros Hnin; (split; [intros updates|]).
  - unfold updateNode, updateNode_recipe. absent Hnin.
  - unfold deleteNode, deleteNode_recipe. absent Hnin.
  - unfold updateConnector, updateConnector_recipe. absent Hnin.
  - unfold deleteConnector, deleteConnector_recipe. absent Hnin.
  - unfold updateRectangle, updateRectangle_recipe. absent Hnin.
  - unfold deleteRectangle, deleteRectangle_recipe. absent Hnin.
  - unfold updateTextBox, updateTextBox_recipe. absent Hnin.
  - unfold deleteTextBox, deleteTextBox_recipe. absent Hnin.
Qed.

End NotFound.

(** ** [deleteNode] *)

Lemma refersToNode_spec (id : string) (anchor : ConnectorAnchor.t) :
  refersToNode id anchor = true ↔
  Ref.type (ConnectorAnchor.ref anchor) = "NODE" ∧
  Ref.id (ConnectorAnchor.ref anchor) = Some id.
Proof.
  unfold refersToNode.
  by rewrite andb_true_iff, !bool_decide_eq_true.
Qed.

Lemma find_refersToNode (id : string) (connector : Connector.t) :
  defined (List.find (refersToNode id) (Connector.anchors connector)) = true
  ↔ boundTo id connector.
Proof.
  unfold boundTo.
  destruct (List.find _ _) as [anchor|] eqn:Hfind; simpl; split.
  - intros _. apply find_some in Hfind as [Hin Htest].
    exists anchor. split; [by apply list_elem_of_In|].
    by apply refersToNode_spec.
  - done.
  - done.
  - intros (anchor & Hin%list_elem_of_In & Htest%refersToNode_spec).
    pose proof (find_none _ _ Hfind anchor Hin). congruence.
Qed.

Lemma unbound_spec (id : string) (connector : Connector.t) :
  unbound id connector = true ↔ ¬ boundTo id connector.
Proof.
  unfold unbound. rewrite <- find_refersToNode, negb_true_iff.
  by destruct (defined _).
Qed.

Lemma boundTo_or_not (id : string) (connector : Connector.t) :
  boundTo id connector ∨ ¬ boundTo id connector.
Proof.
  rewrite <- find_refersToNode. destruct (defined _); [by left|by right].
Qed.

(** Removing one element keeps every element that differs from it. *)
Lemma elem_of_delete_other {A} (l : list A) (i : nat) (removed x : A) :
  l !! i = Some removed → x ∈ l → x ≠ removed → x ∈ delete i l.
Proof.
  intros Hi Hx Hne. rewrite delete_take_drop.
  rewrite <- (take_drop_middle l i removed Hi) in Hx.
  rewrite elem_of_app, elem_of_cons in Hx. rewrite elem_of_app.
  destruct Hx as [?|[?|?]]; [by left|done|by right].
Qed.

Lemma not_elem_of_delete_NoDup {A} (l : list A) (i : nat) (removed : A) :
  l !! i = Some removed → NoDup l → removed ∉ delete i l.
Proof.
  intros Hi Hnd. rewrite delete_take_drop.
  rewrite <- (take_drop_middle l i removed Hi) in Hnd.
  apply NoDup_app in Hnd as (_ & Hdisj & (Hdrop & _)%NoDup_cons).
  rewrite elem_of_app. intros [Htake|?]; [|done].
  apply (Hdisj _ Htake). by left.
Qed.

(** C1: [deleteNode] of an id that is in the scene removes the node found
    (the first of that id) and every connector that has an anchor bound to
    the id, and only those connectors.  With unique node ids no node of that
    id is left, and when every bound anchor referred to a node of the scene
    before, every bound anchor does so afterwards. *)
Theorem deleteNode_cascades (st : Store) (id : string) :
  id ∈ ids (nodes (state st)) →
  ∃ index removed st',
    getItemById (nodes (state st)) id = Ok (removed, index) ∧
    deleteNode id st = (Ok tt, st') ∧
    nodes (state st') = delete index (nodes (state st)) ∧
    connectors (state st')
      = List.filter (unbound id) (connectors (state st)) ∧
    (∀ connector,
       connector ∈ connectors (state st') ↔
       connector ∈ connectors (state st) ∧ ¬ boundTo id connector) ∧
    (NoDup (ids (nodes (state st))) → id ∉ ids (nodes (state st'))) ∧
    (resolved (state st) → resolved (state st')).
Proof.
  intros Hin.
  destruct (getItemById_found _ _ Hin) as (index & removed & Hget & Hl & Hid & _).
  exists index, removed. eexists. split; [done|].
  unfold deleteNode, deleteNode_recipe. run. rewrite Hget. simpl.
  split; [reflexivity|]. simpl.
  assert (∀ connector,
            connector ∈ List.filter (unbound id) (connectors (state st)) ↔
            connector ∈ connectors (state st) ∧ ¬ boundTo id connector)
    as Hfilter.
  { intros c. by rewrite !list_elem_of_In, filter_In, unbound_spec. }
  split; [done|]. split; [done|]. split; [done|]. split.
  - intros Hnd. unfold ids. rewrite list_fmap_delete. rewrite <- Hid.
    apply not_elem_of_delete_NoDup; [|done].
    by rewrite list_lookup_fmap, Hl.
  - intros Hres c id' [Hc Hunbound]%Hfilter Hbound. simpl.
    pose proof (Hres c id' Hc Hbound) as Hid'.
    assert (id' ≠ id) as Hne by (intros ->; done).
    unfold ids in *. rewrite list_fmap_delete.
    eapply elem_of_delete_other; [|done|].
    + by rewrite list_lookup_fmap, Hl.
    + by rewrite Hid.
Qed.

(** ** [updateNode] *)

Lemma getAllAnchors_anchors (cs cs' : list Connector.t) :
  Connector.anchors <$> cs = Connector.anchors <$> cs' →
  getAllAnchors cs = getAllAnchors cs'.
Proof.
  unfold getAllAnchors. revert cs'.
  induction cs as [|c cs IH]; intros [|c' cs']; csimpl; try done.
  intros [= Hc Hcs]. rewrite Hc. f_equal. by apply IH.
Qed.

Lemma anchors_alter_set_path (path : JsValue) (i : nat)
    (cs : list Connector.t) :
  Connector.anchors <$> alter (Connector.set_path path) i cs
  = Connector.anchors <$> cs.
Proof.
  revert i. induction cs as [|c cs IH]; intros [|i]; csimpl; try done.
  by rewrite IH.
Qed.

Section UpdateNode.
Context {utils : Collaborators}.

(** One round of the loop: a connector bound to the node gets the path the
    router returns for the draft as it is; any other is left alone. *)
Lemma reroute_Ok (id : string) (c : Connector.t) (i : nat) (d d' : Scene) :
  reroute id c i d = (Ok tt, d') →
  (boundTo id c ∧
   ∃ path,
     getConnectorPath (Connector.anchors c) (nodes d)
       (getAllAnchors (connectors d)) = Ok path ∧
     d' = with_connectors (alter (Connector.set_path path) i) d)
  ∨ (¬ boundTo id c ∧ d' = d).
Proof.
  unfold reroute.
  pose proof (find_refersToNode id c) as Hfind.
  destruct (defined _); run.
  - destruct (getConnectorPath _ _ _) as [path|e]; [|done].
    intros [= <-]. left. split; [by apply Hfind|]. by exists path.
  - intros [= <-]. right. split; [|done].
    intros Hb. by apply Hfind in Hb.
Qed.

(** The loop over the connectors, from index [i] on: the connectors before
    [i] stay, each connector from [i] on is rerouted when it is bound to the
    node, and nothing but paths changes. *)
Lemma forEach_from_reroute (id : string) (n i : nat) (d d' : Scene) :
  forEach_from connectors (reroute id) i n d = (Ok tt, d') →
  i + n = length (connectors d) →
  icons d' = icons d ∧ nodes d' = nodes d ∧ textBoxes d' = textBoxes d ∧
  rectangles d' = rectangles d ∧
  Connector.anchors <$> connectors d' = Connector.anchors <$> connectors d ∧
  ∀ (j : nat) (c : Connector.t),
    connectors d !! j = Some c →
    (j < i → connectors d' !! j = Some c) ∧
    (i ≤ j →
     (boundTo id c →
      ∃ path,
        getConnectorPath (Connector.anchors c) (nodes d)
          (getAllAnchors (connectors d)) = Ok path ∧
        connectors d' !! j = Some (Connector.set_path path c)) ∧
     (¬ boundTo id c → connectors d' !! j = Some c)).
Proof.
  revert i d. induction n as [|n IH]; intros i d Hrun Hlen.
  - injection Hrun as <-. do 5 (split; [done|]).
    intros j c Hj. split; [done|]. apply lookup_lt_Some in Hj. lia.
  - simpl in Hrun. revert Hrun. run.
    destruct (lookup_lt_is_Some_2 (connectors d) i) as [ci Hci]; [lia|].
    rewrite Hci.
    destruct (reroute id ci i d) as [[[]|e] d1] eqn:Hstep; [|done].
    intros Hrest.
    assert (icons d1 = icons d ∧ nodes d1 = nodes d ∧
            textBoxes d1 = textBoxes d ∧ rectangles d1 = rectangles d ∧
            Connector.anchors <$> connectors d1
              = Connector.anchors <$> connectors d ∧
            length (connectors d1) = length (connectors d) ∧
            (∀ j, j ≠ i → connectors d1 !! j = connectors d !! j))
      as (Hi1 & Hn1 & Ht1 & Hr1 & Ha1 & Hlen1 & Hother1).
    { apply reroute_Ok in Hstep as [(_ & path & _ & ->)|[_ ->]]; simpl.
      - rewrite anchors_alter_set_path, length_alter.
        repeat split; try done. intros j Hj.
        by rewrite list_lookup_alter_ne.
      - done. }
    apply IH in Hrest as (Hi' & Hn' & Ht' & Hr' & Ha' & Hcs'); [|lia].
    split; [congruence|]. split; [congruence|]. split; [congruence|].
    split; [congruence|]. split; [congruence|].
    intros j c Hj.
    destruct (decide (j = i)) as [->|Hne].
    + assert (c = ci) as -> by congruence.
      split; [lia|]. intros _.
      apply reroute_Ok in Hstep as [(Hb & path & Hpath & ->)|[Hnb ->]].
      * split; [|done]. intros _. exists path. split; [done|].
        destruct (Hcs' i (Connector.set_path path ci)) as [Hlook _].
        { simpl. by rewrite list_lookup_alter_eq, Hci. }
        apply Hlook. lia.
      * split; [done|]. intros _.
        destruct (Hcs' i ci Hci) as [Hlook _]. apply Hlook. lia.
    + rewrite <- Hother1 in Hj by done.
      destruct (Hcs' j c Hj) as [Hbefore Hafter].
      split; [intros; apply Hbefore; lia|].
      intros Hle. destruct Hafter as [Hb Hnb]; [lia|]. split; [|done].
      intros Hbound. destruct (Hb Hbound) as (path & Hpath & Hlook).
      exists path. split; [|done].
      by rewrite <- Hn1, <- (getAllAnchors_anchors _ _ Ha1).
Qed.

(** The loop ends when the router returns for every connector bound to
    the node that is still to be visited. *)
Lemma forEach_from_reroute_returns (id : string) (n i : nat) (d : Scene) :
  (∀ (j : nat) (c : Connector.t),
     i ≤ j → connectors d !! j = Some c → boundTo id c →
     ∃ path,
       getConnectorPath (Connector.anchors c) (nodes d)
         (getAllAnchors (connectors d)) = Ok path) →
  ∃ d', forEach_from connectors (reroute id) i n d = (Ok tt, d').
Proof.
  revert i d. induction n as [|n IH]; intros i d Hrouter; simpl.
  - by eexists.
  - run. destruct (connectors d !! i) as [c|] eqn:Hc.
    + destruct (reroute id c i d) as [r d1] eqn:Hstep.
      unfold reroute in Hstep. revert Hstep.
      pose proof (find_refersToNode id c) as Hfind.
      destruct (defined _); run.
      * destruct (Hrouter i c) as [path ->]; [lia|done|by apply Hfind|].
        intros [= <- <-]. apply IH. intros j c' Hj Hc' Hbound. simpl in *.
        rewrite list_lookup_alter_ne in Hc' by lia.
        rewrite (getAllAnchors_anchors _ (connectors d))
          by apply anchors_alter_set_path.
        apply (Hrouter j); [lia|done..].
      * intros [= <- <-]. apply IH. intros j c' Hj. apply Hrouter. lia.
    + apply IH. intros j c' Hj. apply Hrouter. lia.
Qed.

(** [updateNode] of an id that is in the scene returns when the router
    returns for every connector bound to the node, given the updated nodes
    and the anchors of all connectors. *)
Lemma updateNode_returns (st : Store) (id : string) (updates : Node.Updates)
    (index : nat) (old : Node.t) :
  getItemById (nodes (state st)) id = Ok (old, index) →
  (∀ c,
     c ∈ connectors (state st) → boundTo id c →
     ∃ path,
       getConnectorPath (Connector.anchors c)
         (<[index := Node.merge old updates]> (nodes (state st)))
         (getAllAnchors (connectors (state st))) = Ok path) →
  ∃ st', updateNode id updates st = (Ok tt, st').
Proof.
  intros Hget Hrouter.
  pose proof (getItemById_Ok _ _ _ _ Hget) as (Hl & _).
  unfold updateNode, updateNode_recipe, forEach. run.
  rewrite Hget. simpl. rewrite Hl. simpl.
  set (d0 := with_nodes _ (state st)).
  destruct (forEach_from_reroute_returns id (length (connectors (state st)))
              0 d0) as [d' ->]; [|by eexists].
  intros j c _ Hc. apply Hrouter. by eapply list_elem_of_lookup_2.
Qed.

(** What [updateNode] has published when it returns. *)
Lemma updateNode_Ok (st st' : Store) (id : string) (updates : Node.Updates)
    (index : nat) (old : Node.t) :
  getItemById (nodes (state st)) id = Ok (old, index) →
  updateNode id updates st = (Ok tt, st') →
  nodes (state st')
    = <[index := Node.merge old updates]> (nodes (state st)) ∧
  Connector.anchors <$> connectors (state st')
    = Connector.anchors <$> connectors (state st) ∧
  ∀ (i : nat) (c : Connector.t),
    connectors (state st) !! i = Some c →
    (boundTo id c →
     ∃ path,
       getConnectorPath (Connector.anchors c)
         (<[index := Node.merge old updates]> (nodes (state st)))
         (getAllAnchors (connectors (state st))) = Ok path ∧
       connectors (state st') !! i = Some (Connector.set_path path c)) ∧
    (¬ boundTo id c → connectors (state st') !! i = Some c).
Proof.
  intros Hget. pose proof (getItemById_Ok _ _ _ _ Hget) as (Hl & _).
  unfold updateNode, updateNode_recipe, forEach. run.
  rewrite Hget. simpl. rewrite Hl. simpl.
  set (d0 := with_nodes _ (state st)).
  destruct (forEach_from connectors (reroute id) 0 _ d0)
    as [[[]|e] d'] eqn:Hloop; [|done].
  intros [= <-].
  apply forEach_from_reroute in Hloop
    as (_ & Hn & _ & _ & Ha & Hcs); [|done].
  simpl. rewrite Hn. split; [done|]. split; [done|].
  intros i c Hc. destruct (Hcs i c Hc) as [_ Hafter]. apply Hafter. lia.
Qed.

(** C2: for an id that is in the scene, [updateNode] returns when the router
    does, and when it returns the node found is replaced by its merge with
    the updates, and every connector with an anchor bound to the id has the
    path that the router returns for its anchors, the updated nodes and the
    anchors of all connectors; a connector with no anchor bound to the id is
    as it was, path included. *)
Theorem updateNode_reroutes_bound_connectors
    (st : Store) (id : string) (updates : Node.Updates) :
  id ∈ ids (nodes (state st)) →
  ∃ index old,
    getItemById (nodes (state st)) id = Ok (old, index) ∧
    ((∀ c,
        c ∈ connectors (state st) → boundTo id c →
        ∃ path,
          getConnectorPath (Connector.anchors c)
            (<[index := Node.merge old updates]> (nodes (state st)))
            (getAllAnchors (connectors (state st))) = Ok path) →
     ∃ st', updateNode id updates st = (Ok tt, st')) ∧
    ∀ st',
      updateNode id updates st = (Ok tt, st') →
      nodes (state st')
        = <[index := Node.merge old updates]> (nodes (state st)) ∧
      getAllAnchors (connectors (state st'))
        = getAllAnchors (connectors (state st)) ∧
      length (connectors (state st')) = length (connectors (state st)) ∧
      ∀ (i : nat) (c : Connector.t),
        connectors (state st) !! i = Some c →
        ∃ c',
          connectors (state st') !! i = Some c' ∧
          Connector.anchors c' = Connector.anchors c ∧
          (boundTo id c →
           getConnectorPath (Connector.anchors c') (nodes (state st'))
             (getAllAnchors (connectors (state st')))
           = Ok (Connector.path c') ∧
           c' = Connector.set_path (Connector.path c') c) ∧
          (¬ boundTo id c → c' = c).
Proof.
  intros Hin.
  destruct (getItemById_found _ _ Hin) as (index & old & Hget & _).
  exists index, old. split; [done|].
  split; [by apply updateNode_returns|].
  intros st' Hrun.
  destruct (updateNode_Ok st st' id updates index old Hget Hrun)
    as (Hnodes & Ha & Hcs).
  pose proof (getAllAnchors_anchors _ _ Ha) as Hall.
  rewrite Hnodes, Hall. split; [done|]. split; [done|]. split.
  { apply (f_equal length) in Ha. by rewrite !length_fmap in Ha. }
  intros i c Hc. destruct (Hcs i c Hc) as [Hb Hnb].
  destruct (boundTo_or_not id c) as [Hbound|Hunbound].
  - destruct (Hb Hbound) as (path & Hpath & Hlook).
    exists (Connector.set_path path c). by rewrite Hlook.
  - exists c. by rewrite Hnb.
Qed.

End UpdateNode.

(** ** Uniqueness of ids *)

Section UniqueIds.
Context {T : Type} `{Item T}.
Implicit Types (l : list T) (x : T).

Lemma NoDup_ids_snoc l x :
  NoDup (ids l) → item_id x ∉ ids l → NoDup (ids (l ++ [x])).
Proof.
  intros Hnd Hfresh. unfold ids in *. rewrite fmap_app. apply NoDup_app.
  split; [done|]. split; [|apply NoDup_singleton].
  intros y Hy ->%list_elem_of_singleton. done.
Qed.

Lemma NoDup_ids_insert l (i : nat) x x' :
  l !! i = Some x → NoDup (ids l) →
  item_id x' = item_id x ∨ item_id x' ∉ ids l →
  NoDup (ids (<[i := x']> l)).
Proof.
  intros Hi Hnd Hid. unfold ids in *. rewrite list_fmap_insert.
  assert ((item_id <$> l) !! i = Some (item_id x)) as Hi'
      by by rewrite list_lookup_fmap, Hi.
  destruct Hid as [->|Hfresh]; [by rewrite list_insert_id|].
  rewrite insert_take_drop by by eapply lookup_lt_Some.
  rewrite <- (take_drop_middle _ _ _ Hi') in Hnd, Hfresh.
  apply NoDup_app in Hnd as (Htake & Hdisj & (_ & Hdrop)%NoDup_cons).
  rewrite elem_of_app, elem_of_cons in Hfresh.
  apply NoDup_app. split; [done|]. split.
  - intros y Hy [->|Hy']%elem_of_cons; [tauto|].
    apply (Hdisj y Hy). by right.
  - apply NoDup_cons. split; [tauto|done].
Qed.

Lemma NoDup_ids_delete l (i : nat) : NoDup (ids l) → NoDup (ids (delete i l)).
Proof.
  intros Hnd. unfold ids in *. rewrite list_fmap_delete.
  eapply sublist_NoDup; [done|apply sublist_delete].
Qed.

Lemma NoDup_ids_filter l (keep : T → bool) :
  NoDup (ids l) → NoDup (ids (List.filter keep l)).
Proof.
  intros Hnd. eapply sublist_NoDup; [done|]. unfold ids. clear Hnd.
  induction l as [|x l IH]; simpl; [done|].
  destruct (keep x); csimpl; by constructor.
Qed.

End UniqueIds.

Lemma ids_alter_set_path (path : JsValue) (i : nat) (cs : list Connector.t) :
  ids (alter (Connector.set_path path) i cs) = ids cs.
Proof.
  unfold ids. revert i.
  induction cs as [|c cs IH]; intros [|i]; csimpl; try done.
  by rewrite IH.
Qed.

Section Uniqueness.
Context {utils : Collaborators}.

(** The loop of [updateNode] changes no id, whether it ends or throws. *)
Lemma forEach_from_reroute_ids (id : string) (n i : nat) (d d' : Scene)
    (r : Result unit) :
  forEach_from connectors (reroute id) i n d = (r, d') →
  icons d' = icons d ∧ nodes d' = nodes d ∧
  ids (connectors d') = ids (connectors d) ∧
  textBoxes d' = textBoxes d ∧ rectangles d' = rectangles d.
Proof.
  revert i d. induction n as [|n IH]; intros i d; simpl.
  - by intros [= <- <-].
  - run. destruct (connectors d !! i) as [c|]; [|apply IH].
    unfold reroute. destruct (defined _); run; [|apply IH].
    destruct (getConnectorPath _ _ _) as [path|e]; [|by intros [= <- <-]].
    intros (? & ? & Hids & ? & ?)%IH. simpl in *.
    by rewrite ids_alter_set_path in Hids.
Qed.

Lemma keepsOrFresh_spread (id found : string) (u_id : option string)
    (taken : list string) :
  keepsOrFresh id u_id taken → found = id →
  spread found u_id = found ∨ spread found u_id ∉ taken.
Proof.
  intros Hfree ->. destruct u_id as [id'|]; simpl; [|by left].
  destruct (Hfree id' eq_refl) as [->|?]; [by left|by right].
Qed.

(** Splits uniqueness of the published scene into its five sequences and
    closes those that the action left alone. *)
Ltac unique_goal := unfold unique; simpl; repeat split; try done.

Lemma call_preserves_unique (a : Action) (st st' : Store) (r : Result unit) :
  unique (state st) → clashFree a (state st) →
  call a st = (r, st') → unique (state st').
Proof.
  intros Huniq Hfree. pose proof Huniq as (Hi & Hn & Hc & Ht & Hr).
  destruct a; simpl in *.
  - unfold setScene, sceneInput_parse. run.
    destruct (validate scene); run; intros [= <- <-]; [|done].
    simpl. rewrite assign_allKeys. by apply Hfree.
  - unfold updateScene. run. intros [= <- <-].
    destruct Hfree as (? & ? & ?). unique_goal.
  - unfold createNode, createNode_recipe. run. intros [= <- <-].
    unique_goal. by apply NoDup_ids_snoc.
  - unfold updateNode, updateNode_recipe, forEach. run.
    destruct (getItemById (nodes (state st)) id) as [[found index]|e]
      eqn:Hget; simpl; [|by intros [= <- <-]].
    apply getItemById_Ok in Hget as (Hl & Hid & _). rewrite Hl. simpl.
    destruct (forEach_from _ _ _ _ _) as [[[]|e] d'] eqn:Hloop;
      intros [= <- <-]; [|done].
    apply forEach_from_reroute_ids in Hloop as (_ & -> & Hids & _ & _).
    unique_goal; simpl in *; [|by rewrite Hids].
    eapply NoDup_ids_insert; [done..|].
    by apply (keepsOrFresh_spread id).
  - unfold deleteNode, deleteNode_recipe. run.
    destruct (getItemById (nodes (state st)) id) as [[found index]|e]
      eqn:Hget; simpl; intros [= <- <-]; [|done].
    unique_goal; [by apply NoDup_ids_delete|by apply NoDup_ids_filter].
  - unfold createConnector, createConnector_recipe. run.
    destruct (connectorInputToConnector _ _ _) as [new|e] eqn:Hnew; simpl;
      intros [= <- <-]; [|done].
    unique_goal. apply NoDup_ids_snoc; [done|]. by apply Hfree.
  - unfold updateConnector, updateConnector_recipe. run.
    destruct (getItemById (connectors (state st)) id) as [[found index]|e]
      eqn:Hget; simpl; [|by intros [= <- <-]].
    apply getItemById_Ok in Hget as (Hl & Hid & _). rewrite Hl. simpl.
    intros [= <- <-]. unique_goal.
    eapply NoDup_ids_insert; [done..|].
    by apply (keepsOrFresh_spread id).
  - unfold deleteConnector, deleteConnector_recipe. run.
    destruct (getItemById (connectors (state st)) id) as [[found index]|e]
      eqn:Hget; simpl; intros [= <- <-]; [|done].
    unique_goal. by apply NoDup_ids_delete.
  - unfold createRectangle, createRectangle_recipe. run. intros [= <- <-].
    unique_goal. by apply NoDup_ids_snoc.
  - unfold createTextBox, createTextBox_recipe. run. intros [= <- <-].
    unique_goal. by apply NoDup_ids_snoc.
  - unfold updateTextBox, updateTextBox_recipe. run.
    destruct (getItemById (textBoxes (state st)) id) as [[found index]|e]
      eqn:Hget; simpl; [|by intros [= <- <-]].
    apply getItemById_Ok in Hget as (Hl & Hid & _).
    destruct (defined _ || defined _); simpl; rewrite Hl; simpl.
    + rewrite list_lookup_alter_eq, Hl. simpl. intros [= <- <-].
      unique_goal.
      rewrite insert_alter_same.
      eapply NoDup_ids_insert; [done..|].
      by apply (keepsOrFresh_spread id).
    + intros [= <- <-]. unique_goal.
      eapply NoDup_ids_insert; [done..|].
      by apply (keepsOrFresh_spread id).
  - unfold deleteTextBox, deleteTextBox_recipe. run.
    destruct (getItemById (textBoxes (state st)) id) as [[found index]|e]
      eqn:Hget; simpl; intros [= <- <-]; [|done].
    unique_goal. by apply NoDup_ids_delete.
  - unfold updateRectangle, updateRectangle_recipe. run.
    destruct (getItemById (rectangles (state st)) id) as [[found index]|e]
      eqn:Hget; simpl; [|by intros [= <- <-]].
    apply getItemById_Ok in Hget as (Hl & Hid & _). rewrite Hl. simpl.
    intros [= <- <-]. unique_goal.
    eapply NoDup_ids_insert; [done..|].
    by apply (keepsOrFresh_spread id).
  - unfold deleteRectangle, deleteRectangle_recipe. run.
    destruct (getItemById (rectangles (state st)) id) as [[found index]|e]
      eqn:Hget; simpl; intros [= <- <-]; [|done].
    unique_goal. by apply NoDup_ids_delete.
Qed.

End Uniqueness.

(** ** The store as objects: what a call does to the heap *)

Section Heap.
Context {T : Type}.
Implicit Types (arrays : list (list T)) (key : option (list T)).

Lemma assignKey_prefix key previous arrays :
  arrays `prefix_of` (assignKey key previous arrays).2.
Proof. destruct key; simpl; [by eexists|done]. Qed.

Lemma assignKey_allocated key previous arrays :
  previous < length arrays →
  (assignKey key previous arrays).1 < length (assignKey key previous arrays).2.
Proof. destruct key; simpl; [|done]. rewrite length_app. simpl. lia. Qed.

Lemma arrayAt_assignKey key previous arrays :
  arrayAt (assignKey key previous arrays).2 (assignKey key previous arrays).1
  = spread (arrayAt arrays previous) key.
Proof.
  destruct key as [array|]; simpl; [|done].
  unfold arrayAt. by rewrite list_lookup_middle.
Qed.

Lemma arrayAt_prefix arrays arrays' address :
  address < length arrays → arrays `prefix_of` arrays' →
  arrayAt arrays' address = arrayAt arrays address.
Proof.
  intros Hlt [more ->]. unfold arrayAt. by rewrite lookup_app_l.
Qed.

End Heap.

Lemma extends_refl (h : Heap) : extends h h.
Proof. by repeat split. Qed.

Lemma publish_extends (partial : PartialScene) (hs : HeapStore) :
  extends (heap hs) (heap (publish partial hs)).
Proof.
  unfold extends, publish. simpl.
  repeat split; try apply assignKey_prefix. by eexists.
Qed.

Lemma objectAt_extends (h h' : Heap) (address : nat) :
  address < length (stateObjects h) → extends h h' →
  objectAt h' address = objectAt h address.
Proof.
  intros Hlt (_ & _ & _ & _ & _ & [more Hobjects]).
  unfold objectAt. by rewrite Hobjects, lookup_app_l.
Qed.

(** An extension of the heap shows the same scene through every state
    object that was there. *)
Lemma snapshot_extends (h h' : Heap) (address : nat) :
  address < length (stateObjects h) →
  allocated h (objectAt h address) →
  extends h h' →
  snapshot h' address = snapshot h address.
Proof.
  intros Hlt (Hi & Hn & Hc & Ht & Hr) Hext. unfold snapshot.
  rewrite (objectAt_extends h h') by done.
  destruct Hext as (? & ? & ? & ? & ? & _).
  f_equal; by apply arrayAt_prefix.
Qed.

Lemma objectAt_last (h : Heap) (objects : list StateObject)
    (o : StateObject) :
  stateObjects h = objects ++ [o] → objectAt h (length objects) = o.
Proof. intros Hh. unfold objectAt. by rewrite Hh, list_lookup_middle. Qed.

(** The scene published by [set] on the heap is [Object.assign] of the
    previous one and the partial scene. *)
Lemma snapshot_publish (partial : PartialScene) (hs : HeapStore) :
  snapshot (heap (publish partial hs)) (current (publish partial hs))
  = assign (snapshot (heap hs) (current hs)) partial.
Proof.
  unfold snapshot, publish. simpl.
  erewrite objectAt_last; [|reflexivity]. simpl.
  unfold assign. simpl. f_equal; apply arrayAt_assignKey.
Qed.

Lemma allocated_objectAt (hs : HeapStore) (address : nat) :
  wellFormed hs → address < length (stateObjects (heap hs)) →
  allocated (heap hs) (objectAt (heap hs) address).
Proof.
  intros (_ & Hall & _) Hlt. unfold objectAt.
  destruct (lookup_lt_is_Some_2 _ _ Hlt) as [o Ho]. rewrite Ho. simpl.
  by eapply Forall_lookup_1.
Qed.

Lemma allocated_extends (h h' : Heap) (o : StateObject) :
  allocated h o → extends h h' → allocated h' o.
Proof.
  intros (? & ? & ? & ? & ?) (Hi & Hn & Hc & Ht & Hr & _).
  apply prefix_length in Hi, Hn, Hc, Ht, Hr. unfold allocated. lia.
Qed.

Lemma publish_wellFormed (partial : PartialScene) (hs : HeapStore) :
  wellFormed hs → wellFormed (publish partial hs).
Proof.
  intros Hwf. pose proof Hwf as (Hcur & Hall & Hcalls).
  pose proof (allocated_objectAt hs (current hs) Hwf Hcur)
    as (? & ? & ? & ? & ?).
  pose proof (publish_extends partial hs) as Hext.
  unfold wellFormed. split; [|split].
  - simpl. rewrite length_app. simpl. lia.
  - simpl. apply Forall_app. split.
    + eapply Forall_impl; [done|]. intros o Ho.
      by apply (allocated_extends (heap hs)).
    + apply Forall_singleton. unfold allocated. simpl.
      repeat split; by apply assignKey_allocated.
  - simpl. rewrite length_app. simpl. apply Forall_app. split.
    + eapply Forall_impl; [done|]. simpl. lia.
    + apply Forall_singleton. simpl. lia.
Qed.

Lemma readOnly_lift {St A} (r : Result A) : readOnly (lift (S := St) r).
Proof. done. Qed.

Lemma readOnly_produce {St} (base : Scene) (recipe : M Scene unit) :
  readOnly (produce (St := St) base recipe).
Proof. intros st. unfold produce. by destruct (recipe base) as [[] ?]. Qed.

(** ** The store of objects stands for the store of values *)

Lemma abstraction_publish (partial : PartialScene) (hs : HeapStore) :
  wellFormed hs →
  Store_set partial (abstraction hs) = (Ok tt, abstraction (publish partial hs)).
Proof.
  intros Hwf. pose proof Hwf as (Hcur & _ & Hcalls).
  pose proof (snapshot_publish partial hs) as Hnew.
  assert (∀ address, address < length (stateObjects (heap hs)) →
            snapshot (heap (publish partial hs)) address
            = snapshot (heap hs) address) as Hsame.
  { intros address Hlt.
    apply snapshot_extends;
      [done|by apply allocated_objectAt|apply publish_extends]. }
  unfold Store_set, modify, abstraction. f_equal.
  rewrite Hnew. f_equal.
  change (listened (publish partial hs))
    with (listened hs ++ [(current (publish partial hs), current hs)]).
  rewrite fmap_app. f_equal.
  - apply Forall_fmap_ext_1. eapply Forall_impl; [done|].
    intros [next previous] [Hnext Hprevious]. simpl in Hnext, Hprevious.
    cbv beta. by rewrite !Hsame.
  - cbn [fmap list_fmap fst snd]. by rewrite Hnew, (Hsame (current hs)).
Qed.

Lemma refines_ret {A} (a : A) : refines (mret a) (mret a).
Proof. done. Qed.

Lemma refines_lift {A} (r : Result A) : refines (lift r) (lift r).
Proof. done. Qed.

Lemma refines_produce (base : Scene) (recipe : M Scene unit) :
  refines (produce base recipe) (produce base recipe).
Proof.
  intros hs Hwf. unfold produce. by destruct (recipe base) as [[] ?].
Qed.

Lemma refines_get : refines get get.
Proof. done. Qed.

Lemma refines_set (partial : PartialScene) :
  refines (set partial) (set partial).
Proof.
  intros hs Hwf. split; [by apply abstraction_publish|].
  by apply publish_wellFormed.
Qed.

Lemma refines_bind {A B} (m : M HeapStore A) (m' : M Store A)
    (k : A → M HeapStore B) (k' : A → M Store B) :
  refines m m' → (∀ a, refines (k a) (k' a)) → refines (bind m k) (bind m' k').
Proof.
  intros Hm Hk hs Hwf. unfold bind.
  destruct (Hm hs Hwf) as [-> Hwf1].
  destruct (m hs) as [[a|e] hs1]; simpl in *; [|done].
  by apply Hk.
Qed.

Ltac refines_step :=
  unfold mbind, M_bind;
  repeat first
    [ apply refines_set | apply refines_get | apply refines_produce
    | apply refines_lift | apply refines_ret
    | apply refines_bind; [|intros ?] ].

Section Refinement.
Context {utils : Collaborators}.

Lemma call_refines (a : Action) : refines (call a) (call a).
Proof.
  destruct a; simpl;
    unfold setScene, updateScene, createNode, updateNode, deleteNode,
      createConnector, updateConnector, deleteConnector, createRectangle,
      createTextBox, updateTextBox, deleteTextBox, updateRectangle,
      deleteRectangle;
    refines_step.
Qed.

(** Every call keeps the store of objects well formed. *)
Lemma call_wellFormed (a : Action) (hs : HeapStore) :
  wellFormed hs → wellFormed (call a hs).2.
Proof. intros Hwf. by apply call_refines. Qed.

End Refinement.

(** ** Reachable scenes *)

Section ReachableScenes.
Context {utils : Collaborators}.

Lemma unique_initialScene : unique initialScene.
Proof. unfold unique, ids. simpl. repeat split; apply NoDup_nil_2. Qed.

(** C6 (as the code has it): the store checks no id, so uniqueness is kept
    rather than made.  Every scene reached from the initial one by calls
    that bring no clashing id (see [clashFree]) has no id twice in any of its
    five sequences; deletions never need the condition. *)
Theorem reachableClashFree_unique (st : Store) :
  reachableClashFree st → unique (state st).
Proof.
  induction 1 as [|st a r st' _ IH Hfree Hcall].
  - apply unique_initialScene.
  - by eapply call_preserves_unique.
Qed.

(** Creating a node twice from one input leaves two nodes of one id,
    whatever the normaliser is. *)
Lemma createNode_twice_not_unique (input : JsValue) (st st1 st2 : Store) :
  createNode input st = (Ok tt, st1) →
  createNode input st1 = (Ok tt, st2) →
  ¬ NoDup (ids (nodes (state st2))).
Proof.
  unfold createNode, createNode_recipe. run.
  intros [= <-] [= <-]. simpl. unfold ids.
  rewrite <- (assoc_L (++)), fmap_app. simpl.
  intros (_ & _ & Hdup)%NoDup_app.
  apply NoDup_cons in Hdup as [Hnin _]. apply Hnin. by left.
Qed.

End ReachableScenes.

(** ** The properties on the example scene *)

(** Deleting [n1] from the example scene leaves [n2], and of the connectors
    only [c2], which is not bound to [n1]. *)
Lemma deleteNode_cascades_witness :
  "n1" ∈ ids (nodes (state Demo.store)) ∧
  ∃ st',
    deleteNode "n1" Demo.store = (Ok tt, st') ∧
    ids (nodes (state st')) = ["n2"] ∧
    ids (connectors (state st')) = ["c2"].
Proof.
  assert ("n1" ∈ ids (nodes (state Demo.store))) as Hin by (simpl; left).
  split; [exact Hin|].
  destruct (deleteNode_cascades Demo.store "n1" Hin)
    as (index & removed & st' & Hget & Hrun & Hnodes & Hcs & _).
  exists st'. split; [exact Hrun|].
  vm_compute in Hget. injection Hget as <- <-.
  rewrite Hnodes, Hcs. split; reflexivity.
Defined.

(** Moving [n1] gives [c1], which is bound to it, the path of the router. *)
Lemma updateNode_reroutes_bound_connectors_witness :
  "n1" ∈ ids (nodes (state Demo.store)) ∧
  ∃ st' c',
    updateNode (utils := Demo.utils) "n1" Demo.moved Demo.store
    = (Ok tt, st') ∧
    connectors (state st') !! 0 = Some c' ∧
    Connector.path c' = JsArray [JsString "n1"; JsString "n2"] ∧
    connectors (state st') !! 1 = Some Demo.c2.
Proof.
  assert ("n1" ∈ ids (nodes (state Demo.store))) as Hin by (simpl; left).
  split; [exact Hin|].
  destruct (updateNode_reroutes_bound_connectors (utils := Demo.utils)
              Demo.store "n1" Demo.moved Hin)
    as (index & old & Hget & Hreturns & Hpublished).
  destruct Hreturns as [st' Hrun]; [intros c _ _; by eexists|].
  destruct (Hpublished st' Hrun) as (Hnodes & _ & _ & Hcs).
  vm_compute in Hget. injection Hget as <- <-.
  destruct (Hcs 0 Demo.c1 eq_refl) as (c' & Hc' & _ & [Hpath _] & _).
  { exists (Demo.anchorOn "n1"). split; [left|split; reflexivity]. }
  destruct (Hcs 1 Demo.c2 eq_refl) as (c2' & Hc2' & _ & _ & Hsame).
  rewrite Hsame in Hc2'.
  { exists st', c'. split; [exact Hrun|]. split; [exact Hc'|].
    split; [|exact Hc2']. rewrite Hnodes in Hpath.
    injection Hpath as <-. reflexivity. }
  intros (anchor & Hanchor & Htype & Hid).
  apply list_elem_of_In in Hanchor. simpl in Hanchor.
  destruct Hanchor as [<-|[<-|[]]]; discriminate.
Defined.

(** No connector of the example scene has the id [zz]. *)
Lemma byId_action_on_absent_id_witness :
  ("zz" ∉ ids (connectors (state Demo.store))) ∧
  updateConnector "zz" Demo.recoloured Demo.store
  = (Throw (NotFound KConnector "zz"), Demo.store).
Proof.
  assert ("zz" ∉ ids (connectors (state Demo.store))) as Hnin.
  { intros Hin. apply list_elem_of_In in Hin. simpl in Hin.
    destruct Hin as [Hin|[Hin|[]]]; discriminate Hin. }
  split; [exact Hnin|].
  destruct (byId_action_on_absent_id (utils := Demo.utils) Demo.store "zz")
    as (_ & Hconnector & _).
  destruct (Hconnector Hnin) as [Hupdate _]. apply Hupdate.
Defined.


(** Retitling [t1] measures it again: the example measure is the font
    size, 2. *)
Lemma updateTextBox_measures_size_witness :
  "t1" ∈ ids (textBoxes (state Demo.store)) ∧
  ∃ st' new,
    updateTextBox (utils := Demo.utils) "t1" Demo.retitled Demo.store
    = (Ok tt, st') ∧
    textBoxes (state st') !! 0 = Some new ∧
    TextBox.size new = {| width := 2; height := 1 |}.
Proof.
  assert ("t1" ∈ ids (textBoxes (state Demo.store))) as Hin
      by (simpl; left).
  split; [exact Hin|].
  destruct (updateTextBox_measures_size (utils := Demo.utils) Demo.store
              "t1" Demo.retitled Hin (or_introl (mk_is_Some _ _ eq_refl))
              eq_refl)
    as (index & old & new & st' & Hget & Hrun & Hnew & _ & Hwidth & Hheight).
  vm_compute in Hget. injection Hget as <- <-.
  exists st', new. split; [exact Hrun|]. split; [exact Hnew|].
  destruct (TextBox.size new) as [w h]. simpl in *.
  rewrite Hwidth, Hheight. reflexivity.
Defined.

(** Retitling [t1] with a size of the caller's publishes that size. *)
Lemma updateTextBox_explicit_size_wins_witness :
  "t1" ∈ ids (textBoxes (state Demo.store)) ∧
  ∃ st' new,
    updateTextBox (utils := Demo.utils) "t1" Demo.resized Demo.store
    = (Ok tt, st') ∧
    textBoxes (state st') !! 0 = Some new ∧
    TextBox.size new = {| width := 9; height := 4 |}.
Proof.
  assert ("t1" ∈ ids (textBoxes (state Demo.store))) as Hin
      by (simpl; left).
  split; [exact Hin|].
  destruct (updateTextBox_explicit_size_wins (utils := Demo.utils) Demo.store
              "t1" Demo.resized {| width := 9; height := 4 |} Hin
              (or_introl (mk_is_Some _ _ eq_refl)) eq_refl)
    as (index & old & st' & Hget & Hrun & Hnew & Hsize).
  vm_compute in Hget. injection Hget as <- <-.
  eexists st', _. split; [exact Hrun|]. split; [exact Hnew|]. exact Hsize.
Defined.

(** C6, as the specification states it, fails: from the initial scene,
    [createNode] called twice with one input publishes two nodes of one
    id. *)
Lemma createNode_twice_shares_an_id :
  ∃ st1 st2,
    createNode (utils := Demo.utils) (JsString "a") initialState
    = (Ok tt, st1) ∧
    createNode (utils := Demo.utils) (JsString "a") st1 = (Ok tt, st2) ∧
    reachable (utils := Demo.utils) st2 ∧
    ids (nodes (state st2)) = ["a"; "a"] ∧
    ¬ unique (state st2).
Proof.
  eexists _, _. split; [reflexivity|]. split; [reflexivity|]. split.
  - eapply (reachable_call _ (CreateNode (JsString "a"))); [|reflexivity].
    eapply (reachable_call _ (CreateNode (JsString "a"))); [|reflexivity].
    apply reachable_initial.
  - split; [reflexivity|].
    intros (_ & Hnodes & _). simpl in Hnodes.
    apply NoDup_cons in Hnodes as [Hnin _]. apply Hnin. left.
Qed.

(** Two more ways to the same: [updateScene] publishes what it is given,
    and an update may carry the id of another entity. *)
Lemma updateScene_publishes_repeated_ids :
  ∃ st',
    updateScene (with_nodes (λ _, [Demo.n1; Demo.n1]) initialScene)
      initialState = (Ok tt, st') ∧
    reachable (utils := Demo.utils) st' ∧
    ids (nodes (state st')) = ["n1"; "n1"].
Proof.
  eexists. split; [reflexivity|]. split; [|reflexivity].
  eapply (reachable_call _ (UpdateScene _)); [|reflexivity].
  apply reachable_initial.
Qed.

Lemma updateNode_takes_an_id_in_use :
  ∃ st',
    updateNode (utils := Demo.utils) "n1"
      {| Node.u_id := Some "n2"; Node.u_other := ∅ |} Demo.store
    = (Ok tt, st') ∧
    ids (nodes (state st')) = ["n2"; "n2"].
Proof. eexists. split; reflexivity. Qed.

(** Two nodes created with different ids. *)
Lemma reachableClashFree_unique_witness :
  reachableClashFree (utils := Demo.utils)
    (call (utils := Demo.utils) (CreateNode (JsString "b"))
       (call (utils := Demo.utils) (CreateNode (JsString "a"))
          initialState).2).2 ∧
  unique
    (state
       (call (utils := Demo.utils) (CreateNode (JsString "b"))
          (call (utils := Demo.utils) (CreateNode (JsString "a"))
             initialState).2).2).
Proof.
  assert (reachableClashFree (utils := Demo.utils)
            (call (utils := Demo.utils) (CreateNode (JsString "b"))
               (call (utils := Demo.utils) (CreateNode (JsString "a"))
                  initialState).2).2) as Hreach.
  { eapply (reachableClashFree_call _ (CreateNode (JsString "b")));
      [eapply (reachableClashFree_call _ (CreateNode (JsString "a")));
         [apply reachableClashFree_initial| |reflexivity]
      | |reflexivity].
    - intros Hin. apply list_elem_of_In in Hin. destruct Hin.
    - intros Hin. apply list_elem_of_In in Hin. simpl in Hin.
      destruct Hin as [Hin|[]]. discriminate Hin. }
  split; [exact Hreach|].
  exact (reachableClashFree_unique _ Hreach).
Defined.

(** * More of the store: creation, deletion, updates, and what every call
      does *)

(** ** Lookup after an append *)

Section LookupAppend.
Context {T : Type} {entity : Item T}.
Implicit Types (items : list T) (new : T) (id : string).

(** An appended entity never hides an older one of the same id. *)
Lemma getItemById_snoc_old items new id :
  id ∈ ids items → getItemById (items ++ [new]) id = getItemById items id.
Proof.
  intros Hin.
  destruct (getItemById_found _ _ Hin) as (index & item & Hget & _).
  rewrite Hget. unfold getItemById in *.
  destruct (list_find _ items) as [[i x]|] eqn:Hfind; [|done].
  by rewrite (list_find_app_l _ _ _ _ _ Hfind).
Qed.

Lemma getItemById_snoc_fresh items new :
  item_id new ∉ ids items →
  getItemById (items ++ [new]) (item_id new) = Ok (new, length items).
Proof.
  intros Hfresh. pose proof (getItemById_absent _ _ Hfresh) as Habsent.
  unfold getItemById in *.
  destruct (list_find _ items) as [[i x]|] eqn:Hfind; [done|].
  rewrite list_find_app_r by done. simpl.
  by rewrite decide_True.
Qed.

Lemma delete_snoc items new : delete (length items) (items ++ [new]) = items.
Proof. by rewrite delete_middle, app_nil_r. Qed.

End LookupAppend.

(** ** Creation *)

Section Creation.
Context {utils : Collaborators}.

(** X1: [createNode] always returns; it appends the normalised node and
    leaves the other sequences alone.  A lookup by an id that was in the
    scene finds what it found before, so a new node with an id in use cannot
    be addressed by id; a new node with a fresh id is found at the end. *)
Theorem createNode_appends (st : Store) (input : JsValue) :
  ∃ st',
    createNode input st = (Ok tt, st') ∧
    nodes (state st') = nodes (state st) ++ [nodeInputToNode input] ∧
    icons (state st') = icons (state st) ∧
    connectors (state st') = connectors (state st) ∧
    textBoxes (state st') = textBoxes (state st) ∧
    rectangles (state st') = rectangles (state st) ∧
    (∀ id,
       id ∈ ids (nodes (state st)) →
       getItemById (nodes (state st')) id
       = getItemById (nodes (state st)) id) ∧
    (Node.id (nodeInputToNode input) ∉ ids (nodes (state st)) →
     getItemById (nodes (state st')) (Node.id (nodeInputToNode input))
     = Ok (nodeInputToNode input, length (nodes (state st)))).
Proof.
  eexists. unfold createNode, createNode_recipe. run.
  split; [reflexivity|]. simpl. do 5 (split; [done|]). split.
  - intros id Hin. by apply getItemById_snoc_old.
  - intros Hfresh.
    exact (getItemById_snoc_fresh (nodes (state st)) (nodeInputToNode input) Hfresh).
Qed.

(** X2: [createRectangle] always returns; it appends the normalised
    rectangle and leaves the other sequences alone; an older rectangle of
    the same id stays the one that a lookup finds. *)
Theorem createRectangle_appends (st : Store) (input : JsValue) :
  ∃ st',
    createRectangle input st = (Ok tt, st') ∧
    rectangles (state st')
    = rectangles (state st) ++ [rectangleInputToRectangle input] ∧
    icons (state st') = icons (state st) ∧
    nodes (state st') = nodes (state st) ∧
    connectors (state st') = connectors (state st) ∧
    textBoxes (state st') = textBoxes (state st) ∧
    (∀ id,
       id ∈ ids (rectangles (state st)) →
       getItemById (rectangles (state st')) id
       = getItemById (rectangles (state st)) id) ∧
    (Rectangle.id (rectangleInputToRectangle input)
       ∉ ids (rectangles (state st)) →
     getItemById (rectangles (state st'))
       (Rectangle.id (rectangleInputToRectangle input))
     = Ok (rectangleInputToRectangle input, length (rectangles (state st)))).
Proof.
  eexists. unfold createRectangle, createRectangle_recipe. run.
  split; [reflexivity|]. simpl. do 5 (split; [done|]). split.
  - intros id Hin. by apply getItemById_snoc_old.
  - intros Hfresh.
    exact (getItemById_snoc_fresh (rectangles (state st)) (rectangleInputToRectangle input) Hfresh).
Qed.

(** X3: [createTextBox] always returns; it appends the normalised text box
    as the normaliser made it (its size is not measured here) and leaves
    the other sequences alone; an older text box of the same id stays the
    one that a lookup finds. *)
Theorem createTextBox_appends (st : Store) (input : JsValue) :
  ∃ st',
    createTextBox input st = (Ok tt, st') ∧
    textBoxes (state st')
    = textBoxes (state st) ++ [textBoxInputToTextBox input] ∧
    icons (state st') = icons (state st) ∧
    nodes (state st') = nodes (state st) ∧
    connectors (state st') = connectors (state st) ∧
    rectangles (state st') = rectangles (state st) ∧
    (∀ id,
       id ∈ ids (textBoxes (state st)) →
       getItemById (textBoxes (state st')) id
       = getItemById (textBoxes (state st)) id) ∧
    (TextBox.id (textBoxInputToTextBox input) ∉ ids (textBoxes (state st)) →
     getItemById (textBoxes (state st'))
       (TextBox.id (textBoxInputToTextBox input))
     = Ok (textBoxInputToTextBox input, length (textBoxes (state st)))).
Proof.
  eexists. unfold createTextBox, createTextBox_recipe. run.
  split; [reflexivity|]. simpl. do 5 (split; [done|]). split.
  - intros id Hin. by apply getItemById_snoc_old.
  - intros Hfresh.
    exact (getItemById_snoc_fresh (textBoxes (state st)) (textBoxInputToTextBox input) Hfresh).
Qed.

(** X4: [createConnector] hands the normaliser the nodes and the anchors of
    all connectors of the published scene.  When the normaliser throws, the
    action throws the same and the store is as it was; when it returns, the
    connector is appended, its anchors come last among all anchors, and the
    other sequences are left alone. *)
Theorem createConnector_appends_or_throws (st : Store) (input : JsValue) :
  (∀ e,
     connectorInputToConnector input (nodes (state st))
       (getAllAnchors (connectors (state st))) = Throw e →
     createConnector input st = (Throw e, st))
  ∧
  (∀ new,
     connectorInputToConnector input (nodes (state st))
       (getAllAnchors (connectors (state st))) = Ok new →
     ∃ st',
       createConnector input st = (Ok tt, st') ∧
       connectors (state st') = connectors (state st) ++ [new] ∧
       getAllAnchors (connectors (state st'))
       = getAllAnchors (connectors (state st)) ++ Connector.anchors new ∧
       icons (state st') = icons (state st) ∧
       nodes (state st') = nodes (state st) ∧
       textBoxes (state st') = textBoxes (state st) ∧
       rectangles (state st') = rectangles (state st) ∧
       listenerCalls st' = listenerCalls st ++ [(state st', state st)]).
Proof.
  split.
  - intros e He. unfold createConnector, createConnector_recipe. run.
    by rewrite He.
  - intros new Hnew. eexists.
    unfold createConnector, createConnector_recipe. run. rewrite Hnew.
    simpl. split; [reflexivity|]. simpl. split; [done|]. split; [|done].
    unfold getAllAnchors. rewrite bind_app. simpl. by rewrite app_nil_r.
Qed.

End Creation.

(** ** Deletion without cascade *)

Section Deletion.
Context {T : Type} `{Item T}.

(** With unique ids, the id of a deleted element is no longer looked up. *)
Lemma getItemById_delete_NoDup (items : list T) (id : string) (index : nat)
    (removed : T) :
  getItemById items id = Ok (removed, index) →
  NoDup (ids items) →
  getItemById (delete index items) id = Throw (NotFound item_kind id).
Proof.
  intros (Hl & Hid & _)%getItemById_Ok Hnd. apply getItemById_absent.
  unfold ids. rewrite list_fmap_delete, <- Hid.
  apply not_elem_of_delete_NoDup; [|done]. by rewrite list_lookup_fmap, Hl.
Qed.

End Deletion.

(** X5: [deleteConnector] of an id that is in the scene removes the one
    connector that the lookup finds and nothing else: no node, and no other
    sequence, changes.  With unique ids, deleting the same id again throws
    [NotFound]. *)
Theorem deleteConnector_removes_one (st : Store) (id : string) :
  id ∈ ids (connectors (state st)) →
  ∃ index removed st',
    getItemById (connectors (state st)) id = Ok (removed, index) ∧
    deleteConnector id st = (Ok tt, st') ∧
    connectors (state st') = delete index (connectors (state st)) ∧
    S (length (connectors (state st'))) = length (connectors (state st)) ∧
    icons (state st') = icons (state st) ∧
    nodes (state st') = nodes (state st) ∧
    textBoxes (state st') = textBoxes (state st) ∧
    rectangles (state st') = rectangles (state st) ∧
    (NoDup (ids (connectors (state st))) →
     deleteConnector id st' = (Throw (NotFound KConnector id), st')).
Proof.
  intros Hin.
  destruct (getItemById_found _ _ Hin) as (index & removed & Hget & Hl & _).
  exists index, removed. eexists. split; [done|].
  unfold deleteConnector, deleteConnector_recipe. run. rewrite Hget. simpl.
  split; [reflexivity|]. simpl. split; [done|]. split.
  { rewrite length_delete by done. apply lookup_lt_Some in Hl. lia. }
  do 4 (split; [done|]). intros Hnd.
  by rewrite (getItemById_delete_NoDup _ _ _ _ Hget Hnd).
Qed.

(** X6: [deleteRectangle] of an id that is in the scene removes the one
    rectangle that the lookup finds and nothing else.  With unique ids,
    deleting the same id again throws [NotFound]. *)
Theorem deleteRectangle_removes_one (st : Store) (id : string) :
  id ∈ ids (rectangles (state st)) →
  ∃ index removed st',
    getItemById (rectangles (state st)) id = Ok (removed, index) ∧
    deleteRectangle id st = (Ok tt, st') ∧
    rectangles (state st') = delete index (rectangles (state st)) ∧
    S (length (rectangles (state st'))) = length (rectangles (state st)) ∧
    icons (state st') = icons (state st) ∧
    nodes (state st') = nodes (state st) ∧
    connectors (state st') = connectors (state st) ∧
    textBoxes (state st') = textBoxes (state st) ∧
    (NoDup (ids (rectangles (state st))) →
     deleteRectangle id st' = (Throw (NotFound KRectangle id), st')).
Proof.
  intros Hin.
  destruct (getItemById_found _ _ Hin) as (index & removed & Hget & Hl & _).
  exists index, removed. eexists. split; [done|].
  unfold deleteRectangle, deleteRectangle_recipe. run. rewrite Hget. simpl.
  split; [reflexivity|]. simpl. split; [done|]. split.
  { rewrite length_delete by done. apply lookup_lt_Some in Hl. lia. }
  do 4 (split; [done|]). intros Hnd.
  by rewrite (getItemById_delete_NoDup _ _ _ _ Hget Hnd).
Qed.

(** X7: [deleteTextBox] of an id that is in the scene removes the one text
    box that the lookup finds and nothing else.  With unique ids, deleting
    the same id again throws [NotFound]. *)
Theorem deleteTextBox_removes_one (st : Store) (id : string) :
  id ∈ ids (textBoxes (state st)) →
  ∃ index removed st',
    getItemById (textBoxes (state st)) id = Ok (removed, index) ∧
    deleteTextBox id st = (Ok tt, st') ∧
    textBoxes (state st') = delete index (textBoxes (state st)) ∧
    S (length (textBoxes (state st'))) = length (textBoxes (state st)) ∧
    icons (state st') = icons (state st) ∧
    nodes (state st') = nodes (state st) ∧
    connectors (state st') = connectors (state st) ∧
    rectangles (state st') = rectangles (state st) ∧
    (NoDup (ids (textBoxes (state st))) →
     deleteTextBox id st' = (Throw (NotFound KTextBox id), st')).
Proof.
  intros Hin.
  destruct (getItemById_found _ _ Hin) as (index & removed & Hget & Hl & _).
  exists index, removed. eexists. split; [done|].
  unfold deleteTextBox, deleteTextBox_recipe. run. rewrite Hget. simpl.
  split; [reflexivity|]. simpl. split; [done|]. split.
  { rewrite length_delete by done. apply lookup_lt_Some in Hl. lia. }
  do 4 (split; [done|]). intros Hnd.
  by rewrite (getItemById_delete_NoDup _ _ _ _ Hget Hnd).
Qed.

(** ** Creating, then deleting *)

Lemma filter_unbound_all (id : string) (cs : list Connector.t) :
  (∀ c, c ∈ cs → ¬ boundTo id c) → List.filter (unbound id) cs = cs.
Proof.
  intros Hnone. apply forallb_filter_id, forallb_forall.
  intros c Hc%list_elem_of_In. by apply unbound_spec, Hnone.
Qed.

Section CreateDelete.
Context {utils : Collaborators}.

(** X8: creating a node with an id that is not in use and deleting that id
    gives back the nodes as they were; the connectors come back without
    those that were bound to the id, so the scene as a whole comes back
    when no connector was.  The listeners are called twice. *)
Theorem createNode_then_deleteNode (st : Store) (input : JsValue) :
  Node.id (nodeInputToNode input) ∉ ids (nodes (state st)) →
  ∃ st1 st2,
    createNode input st = (Ok tt, st1) ∧
    deleteNode (Node.id (nodeInputToNode input)) st1 = (Ok tt, st2) ∧
    state st2
    = with_connectors
        (List.filter (unbound (Node.id (nodeInputToNode input)))) (state st) ∧
    ((∀ c, c ∈ connectors (state st) →
           ¬ boundTo (Node.id (nodeInputToNode input)) c) →
     state st2 = state st) ∧
    listenerCalls st2
    = listenerCalls st ++ [(state st1, state st); (state st2, state st1)].
Proof.
  intros Hfresh. eexists _, _.
  unfold createNode, createNode_recipe. run. split; [reflexivity|].
  unfold deleteNode, deleteNode_recipe. run.
  pose proof (getItemById_snoc_fresh (entity := Node_Item)
                (nodes (state st)) (nodeInputToNode input) Hfresh) as Hfound.
  simpl in Hfound. rewrite Hfound. simpl.
  split; [reflexivity|]. simpl. rewrite delete_snoc.
  destruct st as [[i n c t r] calls]. simpl in *.
  split; [done|]. split; [|by rewrite <- (assoc_L (++))].
  intros Hnone. unfold assign, with_connectors. simpl.
  by rewrite filter_unbound_all.
Qed.

(** X9: creating a rectangle with an id that is not in use and deleting
    that id gives back the scene as it was; the listeners are called
    twice. *)
Theorem createRectangle_then_deleteRectangle (st : Store) (input : JsValue) :
  Rectangle.id (rectangleInputToRectangle input)
    ∉ ids (rectangles (state st)) →
  ∃ st1 st2,
    createRectangle input st = (Ok tt, st1) ∧
    deleteRectangle (Rectangle.id (rectangleInputToRectangle input)) st1
    = (Ok tt, st2) ∧
    state st2 = state st ∧
    listenerCalls st2
    = listenerCalls st ++ [(state st1, state st); (state st2, state st1)].
Proof.
  intros Hfresh. eexists _, _.
  unfold createRectangle, createRectangle_recipe. run.
  split; [reflexivity|].
  unfold deleteRectangle, deleteRectangle_recipe. run.
  pose proof (getItemById_snoc_fresh (entity := Rectangle_Item)
                (rectangles (state st)) (rectangleInputToRectangle input)
                Hfresh) as Hfound.
  simpl in Hfound. rewrite Hfound. simpl.
  split; [reflexivity|]. simpl. rewrite delete_snoc.
  destruct st as [[i n c t r] calls]. simpl in *.
  split; [done|]. by rewrite <- (assoc_L (++)).
Qed.

End CreateDelete.

(** ** Updates of rectangles, and updates that change nothing *)

Section LookupInsert.
Context {T : Type} {entity : Item T}.

(** Replacing the element found by one of the same id keeps it found. *)
Lemma getItemById_insert_same_id (items : list T) (id : string)
    (index : nat) (old new : T) :
  getItemById items id = Ok (old, index) → item_id new = id →
  getItemById (<[index := new]> items) id = Ok (new, index).
Proof.
  intros (Hl & _ & Hfirst)%getItemById_Ok Hid. unfold getItemById.
  assert (list_find (λ item, item_id item = id) (<[index := new]> items)
          = Some (index, new)) as ->; [|done].
  apply list_find_Some. split; [|split; [done|]].
  - apply list_lookup_insert_eq. by eapply lookup_lt_Some.
  - intros j other Hj Hlt. rewrite list_lookup_insert_ne in Hj by lia.
    by eapply Hfirst.
Qed.

End LookupInsert.

Lemma Rectangle_merge_noUpdates (r : Rectangle.t) :
  Rectangle.merge r Rectangle_noUpdates = r.
Proof.
  destruct r as [id other]. unfold Rectangle.merge. simpl.
  by rewrite (left_id_L ∅ (∪)).
Qed.

Lemma Connector_merge_noUpdates (c : Connector.t) :
  Connector.merge c Connector_noUpdates = c.
Proof.
  destruct c as [id anchors path other]. unfold Connector.merge. simpl.
  by rewrite (left_id_L ∅ (∪)).
Qed.

Lemma TextBox_merge_noUpdates (t : TextBox.t) :
  TextBox.merge t TextBox_noUpdates = t.
Proof.
  destruct t as [id text fontSize size other]. unfold TextBox.merge. simpl.
  by rewrite (left_id_L ∅ (∪)).
Qed.

Lemma Rectangle_merge_merge (r : Rectangle.t)
    (first second : Rectangle.Updates) :
  Rectangle.merge (Rectangle.merge r first) second
  = Rectangle.merge r (Rectangle_bothUpdates first second).
Proof.
  unfold Rectangle.merge, Rectangle_bothUpdates. simpl.
  rewrite (assoc_L (∪)). f_equal.
  by destruct (Rectangle.u_id second), (Rectangle.u_id first).
Qed.

(** What [updateRectangle] does to the store for an id that is found. *)
Lemma updateRectangle_found (st : Store) (id : string)
    (updates : Rectangle.Updates) (index : nat) (old : Rectangle.t) :
  getItemById (rectangles (state st)) id = Ok (old, index) →
  updateRectangle id updates st
  = (Ok tt,
     published
       {| p_icons := None; p_nodes := None; p_connectors := None;
          p_textBoxes := None;
          p_rectangles :=
            Some (<[index := Rectangle.merge old updates]>
                    (rectangles (state st))) |} st).
Proof.
  intros Hget. pose proof (getItemById_Ok _ _ _ _ Hget) as (Hl & _).
  unfold updateRectangle, updateRectangle_recipe. run.
  rewrite Hget. simpl. by rewrite Hl.
Qed.

(** X10: [updateRectangle] of an id that is in the scene replaces the
    rectangle found by its shallow merge with the updates: its id is the one
    of the updates when they carry one, a property of the updates wins over
    the old one of that name, the other properties stay.  No other
    rectangle and no other sequence changes. *)
Theorem updateRectangle_merges (st : Store) (id : string)
    (updates : Rectangle.Updates) :
  id ∈ ids (rectangles (state st)) →
  ∃ index old new st',
    getItemById (rectangles (state st)) id = Ok (old, index) ∧
    updateRectangle id updates st = (Ok tt, st') ∧
    rectangles (state st') !! index = Some new ∧
    Rectangle.id new
    = match Rectangle.u_id updates with
      | Some id' => id'
      | None => id
      end ∧
    (∀ key,
       Rectangle.other new !! key
       = match Rectangle.u_other updates !! key with
         | Some value => Some value
         | None => Rectangle.other old !! key
         end) ∧
    (∀ j, j ≠ index →
          rectangles (state st') !! j = rectangles (state st) !! j) ∧
    length (rectangles (state st')) = length (rectangles (state st)) ∧
    icons (state st') = icons (state st) ∧
    nodes (state st') = nodes (state st) ∧
    connectors (state st') = connectors (state st) ∧
    textBoxes (state st') = textBoxes (state st).
Proof.
  intros Hin.
  destruct (getItemById_found _ _ Hin) as (index & old & Hget & Hl & Hid & _).
  exists index, old, (Rectangle.merge old updates). eexists.
  split; [done|]. split; [by apply updateRectangle_found|]. simpl.
  split. { apply list_lookup_insert_eq. by eapply lookup_lt_Some. }
  split. { simpl in Hid. rewrite <- Hid.
           by destruct (Rectangle.u_id updates). }
  split. { intros key. rewrite lookup_union.
           by destruct (Rectangle.u_other updates !! key),
                       (Rectangle.other old !! key). }
  split. { intros j Hj. by apply list_lookup_insert_ne. }
  split; [apply length_insert|done].
Qed.

(** X11: an update with no key, [{}], of a connector, a rectangle or a text
    box that is in the scene publishes a scene equal to the one before, and
    still calls the listeners, with twice that scene. *)
Theorem empty_update_publishes_equal_scene (st : Store) (id : string) :
  (id ∈ ids (connectors (state st)) →
   ∃ st',
     updateConnector id Connector_noUpdates st = (Ok tt, st') ∧
     state st' = state st ∧
     listenerCalls st' = listenerCalls st ++ [(state st, state st)])
  ∧
  (id ∈ ids (rectangles (state st)) →
   ∃ st',
     updateRectangle id Rectangle_noUpdates st = (Ok tt, st') ∧
     state st' = state st ∧
     listenerCalls st' = listenerCalls st ++ [(state st, state st)])
  ∧
  (∀ utils : Collaborators,
     id ∈ ids (textBoxes (state st)) →
     ∃ st',
       updateTextBox id TextBox_noUpdates st = (Ok tt, st') ∧
       state st' = state st ∧
       listenerCalls st' = listenerCalls st ++ [(state st, state st)]).
Proof.
  split; [|split]; [intros Hin..|intros utils Hin];
    destruct (getItemById_found _ _ Hin) as (index & old & Hget & Hl & _);
    eexists.
  - unfold updateConnector, updateConnector_recipe. run.
    rewrite Hget. simpl. rewrite Hl. simpl.
    rewrite Connector_merge_noUpdates, list_insert_id by done.
    split; [reflexivity|]. by destruct st as [[] ?].
  - rewrite (updateRectangle_found _ _ _ _ _ Hget).
    rewrite Rectangle_merge_noUpdates, list_insert_id by done.
    split; [reflexivity|]. by destruct st as [[] ?].
  - unfold updateTextBox, updateTextBox_recipe. run.
    rewrite Hget. simpl. rewrite Hl. simpl.
    rewrite TextBox_merge_noUpdates, list_insert_id by done.
    split; [reflexivity|]. by destruct st as [[] ?].
Qed.

(** X12: two updates of a rectangle, of which the first keeps the id,
    publish the scene that one update with [{...first, ...second}]
    publishes. *)
Theorem updateRectangle_twice (st : Store) (id : string)
    (first second : Rectangle.Updates) :
  id ∈ ids (rectangles (state st)) →
  Rectangle.u_id first = None ∨ Rectangle.u_id first = Some id →
  ∃ st1 st2 st12,
    updateRectangle id first st = (Ok tt, st1) ∧
    updateRectangle id second st1 = (Ok tt, st2) ∧
    updateRectangle id (Rectangle_bothUpdates first second) st
    = (Ok tt, st12) ∧
    state st2 = state st12.
Proof.
  intros Hin Hkeeps.
  destruct (getItemById_found _ _ Hin) as (index & old & Hget & Hl & Hid & _).
  assert (item_id (Rectangle.merge old first) = id) as Hid1.
  { simpl in *. by destruct Hkeeps as [->| ->]. }
  pose proof (getItemById_insert_same_id _ _ _ _ _ Hget Hid1) as Hget1.
  eexists _, _, _.
  split; [by apply updateRectangle_found|].
  split; [by apply (updateRectangle_found _ _ _ index
                      (Rectangle.merge old first))|].
  split; [by apply updateRectangle_found|].
  simpl. unfold assign. simpl.
  by rewrite list_insert_insert_eq, Rectangle_merge_merge.
Qed.

(** ** [updateTextBox] without a [text] or a [fontSize] key *)

(** X13: when the updates have neither a [text] key nor a [fontSize] key,
    [updateTextBox] measures nothing: the text box found is merged with the
    updates as it is, so it keeps its text and its font size, and it keeps
    its size unless the updates have a [size] key, whose value is then its
    size; the outcome is the same whatever the text measurement is.  (A key
    of [Updates] that is there carries a value: an object such as
    [{text: undefined}] is not among the updates meant here.) *)
Theorem updateTextBox_keeps_size_without_text (utils : Collaborators)
    (st : Store) (id : string) (updates : TextBox.Updates) :
  id ∈ ids (textBoxes (state st)) →
  TextBox.u_text updates = None →
  TextBox.u_fontSize updates = None →
  ∃ index old st',
    getItemById (textBoxes (state st)) id = Ok (old, index) ∧
    updateTextBox id updates st = (Ok tt, st') ∧
    textBoxes (state st') !! index = Some (TextBox.merge old updates) ∧
    TextBox.size (TextBox.merge old updates)
    = match TextBox.u_size updates with
      | Some size => size
      | None => TextBox.size old
      end ∧
    TextBox.text (TextBox.merge old updates) = TextBox.text old ∧
    TextBox.fontSize (TextBox.merge old updates) = TextBox.fontSize old ∧
    ∀ other : Collaborators,
      updateTextBox (utils := other) id updates st = (Ok tt, st').
Proof.
  intros Hin Htext HfontSize.
  destruct (updateTextBox_found st id updates Hin)
    as (index & old & st' & Hget & Hrun & Hboxes & Hlt).
  exists index, old, st'. split; [done|]. split; [done|].
  rewrite Htext, HfontSize in Hboxes. simpl in Hboxes.
  split. { by rewrite Hboxes, list_lookup_insert_eq. }
  split. { simpl. by destruct (TextBox.u_size updates). }
  split. { simpl. by rewrite Htext. }
  split. { simpl. by rewrite HfontSize. }
  intros other. rewrite <- Hrun.
  unfold updateTextBox, updateTextBox_recipe. run. rewrite Hget. simpl.
  by rewrite Htext, HfontSize.
Qed.

(** ** What every call does to the store *)

Lemma keys_absent (partial : PartialScene) :
  (KIcon ∉ keys partial → p_icons partial = None) ∧
  (KNode ∉ keys partial → p_nodes partial = None) ∧
  (KConnector ∉ keys partial → p_connectors partial = None) ∧
  (KTextBox ∉ keys partial → p_textBoxes partial = None) ∧
  (KRectangle ∉ keys partial → p_rectangles partial = None).
Proof.
  destruct partial as [[?|] [?|] [?|] [?|] [?|]]; unfold keys; simpl;
    repeat split; intros Hnin; try done; exfalso; apply Hnin;
    repeat first [apply list_elem_of_here | apply list_elem_of_further].
Qed.

Section Once.
Context {St : Type} {api : StoreApi St} {utils : Collaborators}.
Variable pub : PartialScene → St → St.
Hypothesis set_pub : ∀ partial st, set partial st = (Ok tt, pub partial st).
Hypothesis get_reads : readOnly (get (St := St)).

Lemma setsOnce_set (P : PartialScene → Prop) (partial : PartialScene) :
  P partial → setsOnce pub P (set partial).
Proof. intros HP st. right. exists tt, partial. by rewrite set_pub. Qed.

Lemma setsOnce_bind {A B} (P : PartialScene → Prop) (m : M St A)
    (k : A → M St B) :
  readOnly m → (∀ a, setsOnce pub P (k a)) → setsOnce pub P (bind m k).
Proof.
  intros Hm Hk st. unfold bind. specialize (Hm st).
  destruct (m st) as [[a|e] st1]; simpl in Hm; subst st1.
  - apply Hk.
  - left. by exists e.
Qed.

Lemma setsOnce_then_ret {A B} (P : PartialScene → Prop) (m : M St A) (b : B) :
  setsOnce pub P m → setsOnce pub P (bind m (λ _, mret b)).
Proof.
  intros Hm st. unfold bind.
  destruct (Hm st) as [[e ->]|(a & partial & HP & ->)].
  - left. by exists e.
  - right. by exists b, partial.
Qed.

(** Every action reads, then calls [set] once, with the keys of [keysOf],
    unless it throws first. *)
Lemma call_setsOnce (a : Action) :
  setsOnce pub (λ partial, keys partial = keysOf a) (call a).
Proof.
  destruct a; simpl;
    unfold setScene, updateScene, createNode, updateNode, deleteNode,
      createConnector, updateConnector, deleteConnector, createRectangle,
      createTextBox, updateTextBox, deleteTextBox, updateRectangle,
      deleteRectangle;
    unfold mbind, M_bind;
    repeat first
      [ apply setsOnce_set; reflexivity
      | apply setsOnce_then_ret
      | apply setsOnce_bind;
        [ first [ apply get_reads | apply readOnly_produce
                | apply readOnly_lift ]
        | intros ? ] ].
Qed.

End Once.

Section EveryCall.
Context {utils : Collaborators}.

Lemma call_Store_setsOnce (a : Action) :
  setsOnce published (λ partial, keys partial = keysOf a)
    (call (St := Store) a).
Proof. by apply call_setsOnce. Qed.

(** X14: a call of any action is all or nothing.  Either it throws and the
    store is as it was, whatever the recipe did to its draft before, or it
    returns, and then the published scene is the old one with the keys of
    the action assigned, and the listeners were called exactly once, with
    the new and the old scene. *)
Theorem call_is_atomic (a : Action) (st : Store) :
  (∃ e, call a st = (Throw e, st))
  ∨
  (∃ st' partial,
     call a st = (Ok tt, st') ∧
     keys partial = keysOf a ∧
     state st' = assign (state st) partial ∧
     listenerCalls st' = listenerCalls st ++ [(state st', state st)]).
Proof.
  destruct (call_Store_setsOnce a st) as [[e He]|([] & partial & Hkeys & Hp)].
  - left. by exists e.
  - right. by exists (published partial st), partial.
Qed.

(** X15: a call changes no sequence but those of the keys that its action
    passes to [set]: the icons change through [setScene] only, the text
    boxes through [setScene] and the text box actions only, and so on; and
    no action but those on nodes, connectors and scenes touches the
    connectors. *)
Theorem call_changes_only_its_keys (a : Action) (st : Store) :
  (KIcon ∉ keysOf a → icons (state (call a st).2) = icons (state st)) ∧
  (KNode ∉ keysOf a → nodes (state (call a st).2) = nodes (state st)) ∧
  (KConnector ∉ keysOf a →
   connectors (state (call a st).2) = connectors (state st)) ∧
  (KTextBox ∉ keysOf a →
   textBoxes (state (call a st).2) = textBoxes (state st)) ∧
  (KRectangle ∉ keysOf a →
   rectangles (state (call a st).2) = rectangles (state st)).
Proof.
  destruct (call_Store_setsOnce a st)
    as [[e ->]|([] & partial & Hkeys & ->)]; [done|].
  destruct (keys_absent partial) as (Hi & Hn & Hc & Ht & Hr).
  rewrite Hkeys in Hi, Hn, Hc, Ht, Hr. simpl.
  repeat split; intros Hnin;
    [rewrite Hi|rewrite Hn|rewrite Hc|rewrite Ht|rewrite Hr]; done.
Qed.

Lemma call_HeapStore_setsOnce (a : Action) :
  setsOnce publish (λ partial, keys partial = keysOf a)
    (call (St := HeapStore) a).
Proof. by apply call_setsOnce. Qed.

(** X16: on the store of objects, the state object that a call publishes
    refers, for every key that the action does not pass to [set], to the
    very array that the previous state object referred to: a reader of
    that key finds the same object after the call. *)
Theorem call_shares_untouched_arrays (a : Action) (hs : HeapStore) :
  let before := objectAt (heap hs) (current hs) in
  let after := objectAt (heap (call a hs).2) (current (call a hs).2) in
  (KIcon ∉ keysOf a → at_icons after = at_icons before) ∧
  (KNode ∉ keysOf a → at_nodes after = at_nodes before) ∧
  (KConnector ∉ keysOf a → at_connectors after = at_connectors before) ∧
  (KTextBox ∉ keysOf a → at_textBoxes after = at_textBoxes before) ∧
  (KRectangle ∉ keysOf a → at_rectangles after = at_rectangles before).
Proof.
  intros before after. subst before after.
  destruct (call_HeapStore_setsOnce a hs)
    as [[e ->]|([] & partial & Hkeys & ->)]; [done|].
  destruct (keys_absent partial) as (Hi & Hn & Hc & Ht & Hr).
  rewrite Hkeys in Hi, Hn, Hc, Ht, Hr.
  cbn [snd]. unfold publish at 2 4 6 8 10. cbn [current].
  erewrite objectAt_last; [|reflexivity]. simpl.
  repeat split; intros Hnin;
    [rewrite Hi|rewrite Hn|rewrite Hc|rewrite Ht|rewrite Hr]; done.
Qed.

End EveryCall.

(** ** References stay resolved *)

Lemma boundTo_anchors (id : string) (c c' : Connector.t) :
  Connector.anchors c = Connector.anchors c' → boundTo id c → boundTo id c'.
Proof. unfold boundTo. by intros ->. Qed.

Lemma boundTo_resolved (id : string) (c : Connector.t) (ns : list Node.t) :
  anchorsResolved (Connector.anchors c) ns → boundTo id c → id ∈ ids ns.
Proof. intros Hres (anchor & Hin & Htype & Hid). by eapply Hres. Qed.

Lemma elem_of_insert_inv {A} (l : list A) (i : nat) (x y : A) :
  x ∈ <[i := y]> l → x = y ∨ x ∈ l.
Proof.
  intros [j Hj]%list_elem_of_lookup_1.
  apply list_lookup_insert_Some in Hj as [(-> & -> & _)|[_ Hj]];
    [by left|right]. by eapply list_elem_of_lookup_2.
Qed.

(** Removing a node and the connectors bound to its id leaves no anchor
    dangling. *)
Lemma resolved_delete_filter (s : Scene) (id : string) (index : nat)
    (removed : Node.t) :
  nodes s !! index = Some removed → Node.id removed = id → resolved s →
  resolved
    (with_connectors (List.filter (unbound id)) (with_nodes (delete index) s)).
Proof.
  intros Hl Hid Hres c id' Hc Hbound. simpl in *.
  apply list_elem_of_In, filter_In in Hc as [Hc%list_elem_of_In Hunbound].
  apply unbound_spec in Hunbound.
  assert (id' ≠ id) as Hne by (intros ->; done).
  pose proof (Hres c id' Hc Hbound) as Hid'.
  unfold ids in *. rewrite list_fmap_delete.
  eapply elem_of_delete_other; [|done|].
  - by rewrite list_lookup_fmap, Hl.
  - simpl. by rewrite Hid.
Qed.

(** Replacing a node keeps the references resolved when the id stays or
    when no connector is bound to it. *)
Lemma resolved_insert_node (ns : list Node.t) (cs cs' : list Connector.t)
    (id : string) (index : nat) (old new : Node.t) :
  ns !! index = Some old → Node.id old = id →
  Node.id new = id ∨ (∀ c, c ∈ cs → ¬ boundTo id c) →
  Connector.anchors <$> cs' = Connector.anchors <$> cs →
  (∀ c id', c ∈ cs → boundTo id' c → id' ∈ ids ns) →
  ∀ c' id', c' ∈ cs' → boundTo id' c' → id' ∈ ids (<[index := new]> ns).
Proof.
  intros Hl Hid Hkeeps Hanchors Hres c' id' [i Hi]%list_elem_of_lookup_1 Hb'.
  assert (∃ c, cs !! i = Some c ∧ Connector.anchors c = Connector.anchors c')
    as (c & Hc & Hsame).
  { apply (f_equal (λ l, l !! i)) in Hanchors.
    rewrite !list_lookup_fmap, Hi in Hanchors. simpl in Hanchors.
    destruct (cs !! i) as [c|]; [|done]. exists c. split; [done|].
    by injection Hanchors. }
  apply list_elem_of_lookup_2 in Hc.
  assert (boundTo id' c) as Hb by by eapply boundTo_anchors.
  pose proof (Hres c id' Hc Hb) as Hin. unfold ids in *.
  rewrite list_fmap_insert.
  destruct Hkeeps as [Hsameid|Hnone].
  - rewrite list_insert_id; [done|].
    rewrite list_lookup_fmap, Hl. simpl. congruence.
  - assert (id' ≠ id) as Hne by (intros ->; by eapply Hnone).
    apply list_elem_of_lookup_1 in Hin as [j Hj].
    apply (list_elem_of_lookup_2 _ j).
    rewrite list_lookup_insert_ne; [done|]. intros ->.
    rewrite list_lookup_fmap, Hl in Hj. simpl in Hj. congruence.
Qed.

Section ResolvedReferences.
Context {utils : Collaborators}.

(** X17: referential integrity is kept by every call that brings no
    dangling reference (see [keepsReferences]): when every anchor bound to
    a node is bound to a node of the scene before the call, it is so after
    it, whether the call returns or throws.  Creating and deleting nodes,
    deleting connectors, and the actions on rectangles and text boxes need
    no condition. *)
Theorem call_preserves_resolved (a : Action) (st st' : Store)
    (r : Result unit) :
  resolved (state st) → keepsReferences a (state st) →
  call a st = (r, st') → resolved (state st').
Proof.
  intros Hres Hkeeps.
  destruct a; simpl in *.
  - unfold setScene, sceneInput_parse. run.
    destruct (validate scene); run; intros [= <- <-]; [|done].
    simpl. rewrite assign_allKeys. by apply Hkeeps.
  - unfold updateScene. run. by intros [= <- <-].
  - unfold createNode, createNode_recipe. run. intros [= <- <-].
    intros c id Hc Hb. simpl in *. unfold ids. rewrite fmap_app.
    apply elem_of_app. left. by eapply Hres.
  - unfold updateNode, updateNode_recipe, forEach. run.
    destruct (getItemById (nodes (state st)) id) as [[found index]|e]
      eqn:Hget; simpl; [|by intros [= <- <-]].
    apply getItemById_Ok in Hget as (Hl & Hid & _). rewrite Hl. simpl.
    destruct (forEach_from _ _ _ _ _) as [[[]|e] d'] eqn:Hloop;
      intros [= <- <-]; [|done].
    apply forEach_from_reroute in Hloop
      as (_ & Hn & _ & _ & Ha & _); [|done].
    intros c' id' Hc' Hb'. simpl in *. rewrite Hn. simpl.
    eapply (resolved_insert_node _ (connectors (state st))); try done.
    destruct Hkeeps as [Hsame|Hnone]; [left|by right]. simpl.
    destruct (Node.u_id updates) as [new|]; simpl; [|done].
    by rewrite (Hsame new).
  - unfold deleteNode, deleteNode_recipe. run.
    destruct (getItemById (nodes (state st)) id) as [[found index]|e]
      eqn:Hget; simpl; intros [= <- <-]; [|done].
    apply getItemById_Ok in Hget as (Hl & Hid & _).
    by apply (resolved_delete_filter (state st) id index found).
  - unfold createConnector, createConnector_recipe. run.
    destruct (connectorInputToConnector _ _ _) as [new|e] eqn:Hnew; simpl;
      intros [= <- <-]; [|done].
    intros c id [Hc|Hc%list_elem_of_singleton]%elem_of_app Hb; simpl in *.
    + by eapply Hres.
    + subst c. by eapply boundTo_resolved; [apply Hkeeps|].
  - unfold updateConnector, updateConnector_recipe. run.
    destruct (getItemById (connectors (state st)) id) as [[found index]|e]
      eqn:Hget; simpl; [|by intros [= <- <-]].
    apply getItemById_Ok in Hget as (Hl & Hid & _). rewrite Hl. simpl.
    intros [= <- <-]. intros c id' Hc Hb. simpl in *.
    apply elem_of_insert_inv in Hc as [->|Hc]; [|by eapply Hres].
    destruct Hb as (anchor & Hin & Htype & Hrefid). simpl in Hin.
    destruct (Connector.u_anchors updates) as [anchors|] eqn:Hanchors;
      simpl in Hin.
    + by eapply (Hkeeps anchors).
    + eapply (Hres found); [by eapply list_elem_of_lookup_2|].
      by exists anchor.
  - unfold deleteConnector, deleteConnector_recipe. run.
    destruct (getItemById (connectors (state st)) id) as [[found index]|e]
      eqn:Hget; simpl; intros [= <- <-]; [|done].
    intros c id' Hc%list_elem_of_delete_inv Hb. by eapply Hres.
  - unfold createRectangle, createRectangle_recipe. run.
    by intros [= <- <-].
  - unfold createTextBox, createTextBox_recipe. run. by intros [= <- <-].
  - unfold updateTextBox, updateTextBox_recipe. run.
    destruct (getItemById (textBoxes (state st)) id) as [[found index]|e]
      eqn:Hget; simpl; [|by intros [= <- <-]].
    destruct (defined _ || defined _); simpl;
      destruct (textBoxes (state st) !! index); simpl;
      rewrite ?list_lookup_alter_eq; simpl;
      try destruct (textBoxes (state st) !! index); simpl;
      by intros [= <- <-].
  - unfold deleteTextBox, deleteTextBox_recipe. run.
    destruct (getItemById (textBoxes (state st)) id) as [[found index]|e]
      eqn:Hget; simpl; by intros [= <- <-].
  - unfold updateRectangle, updateRectangle_recipe. run.
    destruct (getItemById (rectangles (state st)) id) as [[found index]|e]
      eqn:Hget; simpl; [|by intros [= <- <-]].
    destruct (rectangles (state st) !! index); simpl; by intros [= <- <-].
  - unfold deleteRectangle, deleteRectangle_recipe. run.
    destruct (getItemById (rectangles (state st)) id) as [[found index]|e]
      eqn:Hget; simpl; by intros [= <- <-].
Qed.

End ResolvedReferences.

(** ** What [updateNode] does not do: follow a new id *)

Lemma not_elem_of_insert_NoDup (l : list string) (index : nat)
    (id id' : string) :
  NoDup l → l !! index = Some id → id' ≠ id → id ∉ <[index := id']> l.
Proof.
  intros Hunique Hindex Hne (j & Hj)%list_elem_of_lookup.
  destruct (decide (j = index)) as [->|Hji].
  - rewrite list_lookup_insert_eq in Hj
      by (by eapply lookup_lt_Some). by injection Hj.
  - rewrite list_lookup_insert_ne in Hj by done.
    apply Hji. by eapply NoDup_lookup.
Qed.

Lemma boundTo_same_anchors (id : string) (c c' : Connector.t) :
  Connector.anchors c' = Connector.anchors c → boundTo id c → boundTo id c'.
Proof. unfold boundTo. by intros ->. Qed.

Section Rename.
Context {utils : Collaborators}.

(** X18: [updateNode] changes the id of a node and nothing that refers to
    it.  When the updates give a node of a scene with unique node ids
    another id, the connectors bound to the old id are rerouted and stay
    bound to the old id, which no node has any more: the published scene
    has dangling references. *)
Theorem updateNode_new_id_leaves_anchors (st st' : Store) (id id' : string)
    (updates : Node.Updates) :
  NoDup (ids (nodes (state st))) →
  Node.u_id updates = Some id' → id' ≠ id →
  updateNode id updates st = (Ok tt, st') →
  (id ∉ ids (nodes (state st'))) ∧
  (id' ∈ ids (nodes (state st'))) ∧
  (∀ (i : nat) (c : Connector.t),
     connectors (state st) !! i = Some c → boundTo id c →
     ∃ c',
       connectors (state st') !! i = Some c' ∧
       Connector.anchors c' = Connector.anchors c ∧ boundTo id c') ∧
  ((∃ c, c ∈ connectors (state st) ∧ boundTo id c) →
   ¬ resolved (state st')).
Proof.
  intros Hunique Hid' Hne Hrun.
  destruct (getItemById (nodes (state st)) id) as [[old index]|e] eqn:Hget.
  2:{ revert Hrun. unfold updateNode, updateNode_recipe. run.
      by rewrite Hget. }
  destruct (getItemById_Ok _ _ _ _ Hget) as (Hl & Holdid & _).
  destruct (updateNode_Ok st st' id updates index old Hget Hrun)
    as (Hnodes & Hanchors & _).
  assert (ids (nodes (state st')) = <[index := id']> (ids (nodes (state st))))
    as Hids.
  { rewrite Hnodes. unfold ids. rewrite list_fmap_insert. simpl.
    by rewrite Hid'. }
  assert (id ∉ ids (nodes (state st'))) as Hgone.
  { rewrite Hids. apply not_elem_of_insert_NoDup; [done| |done].
    unfold ids. rewrite list_lookup_fmap, Hl. simpl. simpl in Holdid.
    by rewrite Holdid. }
  assert (∀ (i : nat) (c : Connector.t),
            connectors (state st) !! i = Some c → boundTo id c →
            ∃ c',
              connectors (state st') !! i = Some c' ∧
              Connector.anchors c' = Connector.anchors c ∧ boundTo id c')
    as Hbound.
  { intros i c Hc Hb.
    assert ((Connector.anchors <$> connectors (state st')) !! i
            = Some (Connector.anchors c)) as Hi
        by (by rewrite Hanchors, list_lookup_fmap, Hc).
    rewrite list_lookup_fmap in Hi.
    destruct (connectors (state st') !! i) as [c'|] eqn:Hc'; [|done].
    injection Hi as Hi. exists c'. split; [done|]. split; [done|].
    by apply (boundTo_same_anchors id c). }
  split; [exact Hgone|]. split.
  - rewrite Hids. apply list_elem_of_lookup. exists index.
    apply list_lookup_insert_eq. unfold ids. rewrite length_fmap.
    by eapply lookup_lt_Some.
  - split; [exact Hbound|].
    intros (c & (i & Hc)%list_elem_of_lookup & Hb) Hresolved.
    destruct (Hbound i c Hc Hb) as (c' & Hc' & _ & Hb').
    apply Hgone. apply (Hresolved c'); [|done].
    apply list_elem_of_lookup. by exists i.
Qed.

End Rename.

(** ** The further properties on the example scenes *)

Lemma Demo_scene_resolved : resolved Demo.scene.
Proof.
  intros connector id Hin (anchor & Hanchor & Htype & Hid).
  apply list_elem_of_In in Hin. simpl in Hin.
  destruct Hin as [<-|[<-|[]]];
    apply list_elem_of_In in Hanchor; simpl in Hanchor;
    destruct Hanchor as [<-|[<-|[]]]; simpl in Hid; try discriminate;
    injection Hid as <-; simpl.
  - left.
  - right. left.
  - right. left.
Qed.

Lemma Sample_unbound_n3 (c : Connector.t) :
  c ∈ connectors (state Sample.store) → ¬ boundTo "n3" c.
Proof.
  intros Hin (anchor & Hanchor & Htype & Hid).
  apply list_elem_of_In in Hin. simpl in Hin.
  destruct Hin as [<-|[<-|[]]];
    apply list_elem_of_In in Hanchor; simpl in Hanchor;
    destruct Hanchor as [<-|[<-|[]]]; discriminate.
Qed.

(** A third node is found at index 2; [n1] is found where it was. *)
Lemma createNode_appends_witness :
  "n1" ∈ ids (nodes (state Sample.store)) ∧
  ("n3" ∉ ids (nodes (state Sample.store))) ∧
  ∃ st',
    createNode (utils := Demo.utils) (JsString "n3") Sample.store
    = (Ok tt, st') ∧
    getItemById (nodes (state st')) "n1" = Ok (Demo.n1, 0) ∧
    getItemById (nodes (state st')) "n3"
    = Ok ({| Node.id := "n3"; Node.other := ∅ |}, 2).
Proof.
  assert ("n1" ∈ ids (nodes (state Sample.store))) as Hin by (simpl; left).
  assert ("n3" ∉ ids (nodes (state Sample.store))) as Hfresh.
  { intros Hn. apply list_elem_of_In in Hn. simpl in Hn.
    destruct Hn as [Hn|[Hn|[]]]; discriminate Hn. }
  split; [exact Hin|]. split; [exact Hfresh|].
  destruct (createNode_appends (utils := Demo.utils) Sample.store
              (JsString "n3"))
    as (st' & Hrun & _ & _ & _ & _ & _ & Hold & Hnew).
  exists st'. split; [exact Hrun|]. split.
  - rewrite (Hold "n1" Hin). reflexivity.
  - exact (Hnew Hfresh).
Defined.

(** A second rectangle of the id [r1] is appended, and a lookup of [r1]
    still finds the first. *)
Lemma createRectangle_appends_witness :
  "r1" ∈ ids (rectangles (state Sample.store)) ∧
  ∃ st',
    createRectangle (utils := Demo.utils) (JsString "r1") Sample.store
    = (Ok tt, st') ∧
    ids (rectangles (state st')) = ["r1"; "r2"; "r1"] ∧
    getItemById (rectangles (state st')) "r1" = Ok (Sample.r1, 0).
Proof.
  assert ("r1" ∈ ids (rectangles (state Sample.store))) as Hin
      by (simpl; left).
  split; [exact Hin|].
  destruct (createRectangle_appends (utils := Demo.utils) Sample.store
              (JsString "r1"))
    as (st' & Hrun & Hrectangles & _ & _ & _ & _ & Hold & _).
  exists st'. split; [exact Hrun|]. split.
  - rewrite Hrectangles. reflexivity.
  - rewrite (Hold "r1" Hin). reflexivity.
Defined.

(** A second text box is found at index 1, with the size that the
    normaliser gave it. *)
Lemma createTextBox_appends_witness :
  ("t2" ∉ ids (textBoxes (state Sample.store))) ∧
  ∃ st' new,
    createTextBox (utils := Demo.utils) (JsString "t2") Sample.store
    = (Ok tt, st') ∧
    getItemById (textBoxes (state st')) "t2" = Ok (new, 1) ∧
    TextBox.size new = {| width := 0; height := 1 |}.
Proof.
  assert ("t2" ∉ ids (textBoxes (state Sample.store))) as Hfresh.
  { intros Hn. apply list_elem_of_In in Hn. simpl in Hn.
    destruct Hn as [Hn|[]]; discriminate Hn. }
  split; [exact Hfresh|].
  destruct (createTextBox_appends (utils := Demo.utils) Sample.store
              (JsString "t2"))
    as (st' & Hrun & _ & _ & _ & _ & _ & _ & Hnew).
  exists st', (textBoxInputToTextBox (Collaborators := Demo.utils)
                 (JsString "t2")).
  split; [exact Hrun|]. split; [exact (Hnew Hfresh)|reflexivity].
Defined.

(** With the strict router, a connector to a node that is not there is
    refused and the store is as it was; a connector to [n2] is appended. *)
Lemma createConnector_appends_or_throws_witness :
  createConnector (utils := Sample.strict) (JsString "nope") Sample.store
  = (Throw (NotFound KNode "nope"), Sample.store) ∧
  ∃ st',
    createConnector (utils := Sample.strict) (JsString "n2") Sample.store
    = (Ok tt, st') ∧
    ids (connectors (state st')) = ["c1"; "c2"; "to-n2"] ∧
    listenerCalls st' = [(state st', Sample.scene)].
Proof.
  split.
  - destruct (createConnector_appends_or_throws (utils := Sample.strict)
                Sample.store (JsString "nope")) as [Hthrows _].
    apply Hthrows. vm_compute. reflexivity.
  - destruct (createConnector_appends_or_throws (utils := Sample.strict)
                Sample.store (JsString "n2")) as [_ Hreturns].
    destruct (Hreturns
                {| Connector.id := "to-n2";
                   Connector.anchors := [Demo.anchorOn "n2"];
                   Connector.path := JsArray [JsString "n1"; JsString "n2"];
                   Connector.other := ∅ |})
      as (st' & Hrun & Hconnectors & _ & _ & _ & _ & _ & Hcalls).
    { vm_compute. reflexivity. }
    exists st'. split; [exact Hrun|]. split.
    + rewrite Hconnectors. reflexivity.
    + exact Hcalls.
Defined.

(** Deleting [c1] leaves [c2]; deleting it again throws. *)
Lemma deleteConnector_removes_one_witness :
  "c1" ∈ ids (connectors (state Sample.store)) ∧
  NoDup (ids (connectors (state Sample.store))) ∧
  ∃ st',
    deleteConnector "c1" Sample.store = (Ok tt, st') ∧
    connectors (state st') = [Demo.c2] ∧
    nodes (state st') = [Demo.n1; Demo.n2] ∧
    deleteConnector "c1" st' = (Throw (NotFound KConnector "c1"), st').
Proof.
  assert ("c1" ∈ ids (connectors (state Sample.store))) as Hin
      by (simpl; left).
  assert (NoDup (ids (connectors (state Sample.store)))) as Hunique
      by (apply (bool_decide_unpack _); vm_compute; exact I).
  split; [exact Hin|]. split; [exact Hunique|].
  destruct (deleteConnector_removes_one Sample.store "c1" Hin)
    as (index & removed & st' & Hget & Hrun & Hconnectors & _ & _ & Hnodes
        & _ & _ & Hagain).
  vm_compute in Hget. injection Hget as <- <-.
  exists st'. split; [exact Hrun|]. split; [exact Hconnectors|].
  split; [exact Hnodes|exact (Hagain Hunique)].
Defined.

(** Deleting [r1] leaves [r2]; deleting it again throws. *)
Lemma deleteRectangle_removes_one_witness :
  "r1" ∈ ids (rectangles (state Sample.store)) ∧
  NoDup (ids (rectangles (state Sample.store))) ∧
  ∃ st',
    deleteRectangle "r1" Sample.store = (Ok tt, st') ∧
    rectangles (state st') = [Sample.r2] ∧
    deleteRectangle "r1" st' = (Throw (NotFound KRectangle "r1"), st').
Proof.
  assert ("r1" ∈ ids (rectangles (state Sample.store))) as Hin
      by (simpl; left).
  assert (NoDup (ids (rectangles (state Sample.store)))) as Hunique
      by (apply (bool_decide_unpack _); vm_compute; exact I).
  split; [exact Hin|]. split; [exact Hunique|].
  destruct (deleteRectangle_removes_one Sample.store "r1" Hin)
    as (index & removed & st' & Hget & Hrun & Hrectangles & _ & _ & _
        & _ & _ & Hagain).
  vm_compute in Hget. injection Hget as <- <-.
  exists st'. split; [exact Hrun|]. split; [exact Hrectangles|].
  exact (Hagain Hunique).
Defined.

(** Deleting [t1] leaves no text box; deleting it again throws. *)
Lemma deleteTextBox_removes_one_witness :
  "t1" ∈ ids (textBoxes (state Sample.store)) ∧
  NoDup (ids (textBoxes (state Sample.store))) ∧
  ∃ st',
    deleteTextBox "t1" Sample.store = (Ok tt, st') ∧
    textBoxes (state st') = [] ∧
    deleteTextBox "t1" st' = (Throw (NotFound KTextBox "t1"), st').
Proof.
  assert ("t1" ∈ ids (textBoxes (state Sample.store))) as Hin
      by (simpl; left).
  assert (NoDup (ids (textBoxes (state Sample.store)))) as Hunique
      by (apply (bool_decide_unpack _); vm_compute; exact I).
  split; [exact Hin|]. split; [exact Hunique|].
  destruct (deleteTextBox_removes_one Sample.store "t1" Hin)
    as (index & removed & st' & Hget & Hrun & HtextBoxes & _ & _ & _
        & _ & _ & Hagain).
  vm_compute in Hget. injection Hget as <- <-.
  exists st'. split; [exact Hrun|]. split; [exact HtextBoxes|].
  exact (Hagain Hunique).
Defined.

(** Creating [n3], to which no connector is bound, and deleting it gives
    back the scene. *)
Lemma createNode_then_deleteNode_witness :
  ("n3" ∉ ids (nodes (state Sample.store))) ∧
  ∃ st1 st2,
    createNode (utils := Demo.utils) (JsString "n3") Sample.store
    = (Ok tt, st1) ∧
    deleteNode "n3" st1 = (Ok tt, st2) ∧
    state st2 = Sample.scene ∧
    length (listenerCalls st2) = 2.
Proof.
  assert ("n3" ∉ ids (nodes (state Sample.store))) as Hfresh.
  { intros Hn. apply list_elem_of_In in Hn. simpl in Hn.
    destruct Hn as [Hn|[Hn|[]]]; discriminate Hn. }
  split; [exact Hfresh|].
  destruct (createNode_then_deleteNode (utils := Demo.utils) Sample.store
              (JsString "n3") Hfresh)
    as (st1 & st2 & Hcreate & Hdelete & _ & Hback & Hcalls).
  exists st1, st2. split; [exact Hcreate|]. split; [exact Hdelete|].
  split; [exact (Hback Sample_unbound_n3)|].
  rewrite Hcalls. reflexivity.
Defined.

(** Creating [r3] and deleting it gives back the scene. *)
Lemma createRectangle_then_deleteRectangle_witness :
  ("r3" ∉ ids (rectangles (state Sample.store))) ∧
  ∃ st1 st2,
    createRectangle (utils := Demo.utils) (JsString "r3") Sample.store
    = (Ok tt, st1) ∧
    deleteRectangle "r3" st1 = (Ok tt, st2) ∧
    state st2 = Sample.scene.
Proof.
  assert ("r3" ∉ ids (rectangles (state Sample.store))) as Hfresh.
  { intros Hn. apply list_elem_of_In in Hn. simpl in Hn.
    destruct Hn as [Hn|[Hn|[]]]; discriminate Hn. }
  split; [exact Hfresh|].
  destruct (createRectangle_then_deleteRectangle (utils := Demo.utils)
              Sample.store (JsString "r3") Hfresh)
    as (st1 & st2 & Hcreate & Hdelete & Hback & _).
  exists st1, st2. split; [exact Hcreate|]. split; [exact Hdelete|].
  exact Hback.
Defined.

(** Painting [r1] red replaces its colour and keeps its id. *)
Lemma updateRectangle_merges_witness :
  "r1" ∈ ids (rectangles (state Sample.store)) ∧
  ∃ st' new,
    updateRectangle "r1" Sample.painted Sample.store = (Ok tt, st') ∧
    rectangles (state st') !! 0 = Some new ∧
    Rectangle.id new = "r1" ∧
    Rectangle.other new !! "color" = Some (JsString "red") ∧
    rectangles (state st') !! 1 = Some Sample.r2.
Proof.
  assert ("r1" ∈ ids (rectangles (state Sample.store))) as Hin
      by (simpl; left).
  split; [exact Hin|].
  destruct (updateRectangle_merges Sample.store "r1" Sample.painted Hin)
    as (index & old & new & st' & Hget & Hrun & Hnew & Hid & Hother & Hrest
        & _).
  vm_compute in Hget. injection Hget as <- <-.
  exists st', new. split; [exact Hrun|]. split; [exact Hnew|].
  split; [exact Hid|]. split.
  - rewrite (Hother "color"). vm_compute. reflexivity.
  - rewrite (Hrest 1); [reflexivity|discriminate].
Defined.

(** The updates [{}] of [c1], of [r1] and of [t1] publish the scene again. *)
Lemma empty_update_publishes_equal_scene_witness :
  "c1" ∈ ids (connectors (state Sample.store)) ∧
  "r1" ∈ ids (rectangles (state Sample.store)) ∧
  "t1" ∈ ids (textBoxes (state Sample.store)) ∧
  (∃ st',
     updateConnector "c1" Connector_noUpdates Sample.store = (Ok tt, st') ∧
     state st' = Sample.scene ∧
     listenerCalls st' = [(Sample.scene, Sample.scene)]) ∧
  (∃ st',
     updateRectangle "r1" Rectangle_noUpdates Sample.store = (Ok tt, st') ∧
     state st' = Sample.scene ∧
     listenerCalls st' = [(Sample.scene, Sample.scene)]) ∧
  (∃ st',
     updateTextBox (utils := Demo.utils) "t1" TextBox_noUpdates Sample.store
     = (Ok tt, st') ∧
     state st' = Sample.scene ∧
     listenerCalls st' = [(Sample.scene, Sample.scene)]).
Proof.
  assert ("c1" ∈ ids (connectors (state Sample.store))) as Hc
      by (simpl; left).
  assert ("r1" ∈ ids (rectangles (state Sample.store))) as Hr
      by (simpl; left).
  assert ("t1" ∈ ids (textBoxes (state Sample.store))) as Ht
      by (simpl; left).
  split; [exact Hc|]. split; [exact Hr|]. split; [exact Ht|].
  destruct (empty_update_publishes_equal_scene Sample.store "c1")
    as (Hconnector & _ & _).
  destruct (empty_update_publishes_equal_scene Sample.store "r1")
    as (_ & Hrectangle & _).
  destruct (empty_update_publishes_equal_scene Sample.store "t1")
    as (_ & _ & HtextBox).
  split; [exact (Hconnector Hc)|].
  split; [exact (Hrectangle Hr)|exact (HtextBox Demo.utils Ht)].
Defined.

(** Painting [r1] and then framing it is painting and framing it at once. *)
Lemma updateRectangle_twice_witness :
  "r1" ∈ ids (rectangles (state Sample.store)) ∧
  Rectangle.u_id Sample.painted = None ∧
  ∃ st1 st2 new,
    updateRectangle "r1" Sample.painted Sample.store = (Ok tt, st1) ∧
    updateRectangle "r1" Sample.framed st1 = (Ok tt, st2) ∧
    state st2
    = state (updateRectangle "r1"
               (Rectangle_bothUpdates Sample.painted Sample.framed)
               Sample.store).2 ∧
    rectangles (state st2) !! 0 = Some new ∧
    Rectangle.other new !! "color" = Some (JsString "red") ∧
    Rectangle.other new !! "border" = Some (JsNumber 2).
Proof.
  assert ("r1" ∈ ids (rectangles (state Sample.store))) as Hin
      by (simpl; left).
  split; [exact Hin|]. split; [reflexivity|].
  destruct (updateRectangle_twice Sample.store "r1" Sample.painted
              Sample.framed Hin (or_introl eq_refl))
    as (st1 & st2 & st12 & Hfirst & Hsecond & Hboth & Hsame).
  exists st1, st2, (Rectangle.merge Sample.r1
                      (Rectangle_bothUpdates Sample.painted Sample.framed)).
  split; [exact Hfirst|]. split; [exact Hsecond|].
  rewrite Hsame. rewrite Hboth. split; [reflexivity|].
  vm_compute in Hboth. injection Hboth as <-.
  split; [reflexivity|]. split; vm_compute; reflexivity.
Defined.

(** Moving [t1] keeps its size of 5 by 1, with every text measurement. *)
Lemma updateTextBox_keeps_size_without_text_witness :
  "t1" ∈ ids (textBoxes (state Sample.store)) ∧
  TextBox.u_text Sample.shifted = None ∧
  TextBox.u_fontSize Sample.shifted = None ∧
  ∃ st' new,
    updateTextBox (utils := Demo.utils) "t1" Sample.shifted Sample.store
    = (Ok tt, st') ∧
    textBoxes (state st') !! 0 = Some new ∧
    TextBox.size new = {| width := 5; height := 1 |} ∧
    TextBox.other new !! "tile" = Some (JsNumber 4) ∧
    updateTextBox (utils := Sample.strict) "t1" Sample.shifted Sample.store
    = (Ok tt, st').
Proof.
  assert ("t1" ∈ ids (textBoxes (state Sample.store))) as Hin
      by (simpl; left).
  split; [exact Hin|]. split; [reflexivity|]. split; [reflexivity|].
  destruct (updateTextBox_keeps_size_without_text Demo.utils Sample.store
              "t1" Sample.shifted Hin eq_refl eq_refl)
    as (index & old & st' & Hget & Hrun & Hnew & Hsize & _ & _ & Hany).
  vm_compute in Hget. injection Hget as <- <-.
  exists st', (TextBox.merge Demo.t1 Sample.shifted).
  split; [exact Hrun|]. split; [exact Hnew|]. split; [exact Hsize|].
  split; [vm_compute; reflexivity|exact (Hany Sample.strict)].
Defined.

(** With the strict router, moving [n1] reroutes [c1] on the draft and then
    throws at [c3]: nothing of it is published. *)
Lemma call_is_atomic_witness :
  call (utils := Sample.strict) (UpdateNode "n1" Demo.moved) Sample.dangling
  = (Throw (NotFound KNode "ghost"), Sample.dangling).
Proof.
  destruct (call_is_atomic (utils := Sample.strict)
              (UpdateNode "n1" Demo.moved) Sample.dangling)
    as [[e Hthrows]|(st' & partial & Hreturns & _)].
  - pose proof Hthrows as Hrun. vm_compute in Hrun.
    injection Hrun as <-. exact Hthrows.
  - vm_compute in Hreturns. discriminate Hreturns.
Defined.

(** Creating a rectangle leaves the connectors and the text boxes. *)
Lemma call_changes_only_its_keys_witness :
  (KConnector ∉ keysOf (CreateRectangle (JsString "r3"))) ∧
  (KTextBox ∉ keysOf (CreateRectangle (JsString "r3"))) ∧
  connectors
    (state (call (utils := Demo.utils) (CreateRectangle (JsString "r3"))
              Sample.store).2)
  = [Demo.c1; Demo.c2] ∧
  textBoxes
    (state (call (utils := Demo.utils) (CreateRectangle (JsString "r3"))
              Sample.store).2)
  = [Demo.t1].
Proof.
  assert (KConnector ∉ keysOf (CreateRectangle (JsString "r3"))) as Hc.
  { intros Hn. apply list_elem_of_In in Hn. simpl in Hn.
    destruct Hn as [Hn|[]]; discriminate Hn. }
  assert (KTextBox ∉ keysOf (CreateRectangle (JsString "r3"))) as Ht.
  { intros Hn. apply list_elem_of_In in Hn. simpl in Hn.
    destruct Hn as [Hn|[]]; discriminate Hn. }
  split; [exact Hc|]. split; [exact Ht|].
  destruct (call_changes_only_its_keys (utils := Demo.utils)
              (CreateRectangle (JsString "r3")) Sample.store)
    as (_ & _ & Hconnectors & HtextBoxes & _).
  split; [exact (Hconnectors Hc)|exact (HtextBoxes Ht)].
Defined.

(** After a node is created in the initial store of objects, the new state
    object refers to the connectors array of the old one, at address 0, and
    to a new nodes array. *)
Lemma call_shares_untouched_arrays_witness :
  (KConnector ∉ keysOf (CreateNode (JsString "a"))) ∧
  at_connectors
    (objectAt
       (heap (call (utils := Demo.utils) (CreateNode (JsString "a"))
                initialHeapStore).2)
       (current (call (utils := Demo.utils) (CreateNode (JsString "a"))
                   initialHeapStore).2))
  = 0 ∧
  at_nodes
    (objectAt
       (heap (call (utils := Demo.utils) (CreateNode (JsString "a"))
                initialHeapStore).2)
       (current (call (utils := Demo.utils) (CreateNode (JsString "a"))
                   initialHeapStore).2))
  = 1.
Proof.
  assert (KConnector ∉ keysOf (CreateNode (JsString "a"))) as Hc.
  { intros Hn. apply list_elem_of_In in Hn. simpl in Hn.
    destruct Hn as [Hn|[]]; discriminate Hn. }
  split; [exact Hc|].
  destruct (call_shares_untouched_arrays (utils := Demo.utils)
              (CreateNode (JsString "a")) initialHeapStore)
    as (_ & _ & Hconnectors & _).
  split; [exact (Hconnectors Hc)|reflexivity].
Defined.

(** A connector created on [n2] keeps the example scene resolved. *)
Lemma call_preserves_resolved_witness :
  resolved (state Demo.store) ∧
  keepsReferences (utils := Demo.utils) (CreateConnector (JsString "n2"))
    (state Demo.store) ∧
  resolved
    (state (call (utils := Demo.utils) (CreateConnector (JsString "n2"))
              Demo.store).2).
Proof.
  assert (keepsReferences (utils := Demo.utils)
            (CreateConnector (JsString "n2")) (state Demo.store)) as Hkeeps.
  { intros new [= <-] anchor id Hanchor _ Hid.
    apply list_elem_of_In in Hanchor. simpl in Hanchor.
    destruct Hanchor as [<-|[]]. injection Hid as <-. simpl. right. left. }
  split; [exact Demo_scene_resolved|]. split; [exact Hkeeps|].
  exact (call_preserves_resolved (utils := Demo.utils)
           (CreateConnector (JsString "n2")) Demo.store _ _
           Demo_scene_resolved Hkeeps (surjective_pairing _)).
Defined.

(** Giving [n1] the id [n9] leaves [c1] bound to [n1], which is no node of
    the scene any more. *)
Lemma updateNode_new_id_leaves_anchors_witness :
  NoDup (ids (nodes (state Demo.store))) ∧
  ∃ st' c',
    updateNode (utils := Demo.utils) "n1"
      {| Node.u_id := Some "n9"; Node.u_other := ∅ |} Demo.store
    = (Ok tt, st') ∧
    ids (nodes (state st')) = ["n9"; "n2"] ∧
    connectors (state st') !! 0 = Some c' ∧
    boundTo "n1" c' ∧
    ¬ resolved (state st').
Proof.
  assert (NoDup (ids (nodes (state Demo.store)))) as Hunique
      by (apply (bool_decide_unpack _); vm_compute; exact I).
  split; [exact Hunique|].
  assert (boundTo "n1" Demo.c1) as Hbound.
  { exists (Demo.anchorOn "n1"). split; [left|split; reflexivity]. }
  destruct (updateNode (utils := Demo.utils) "n1"
              {| Node.u_id := Some "n9"; Node.u_other := ∅ |} Demo.store)
    as [r st'] eqn:Hrun.
  assert (r = Ok tt) as ->
      by (vm_compute in Hrun; injection Hrun as <- _; reflexivity).
  assert ("n9" ≠ "n1") as Hne by discriminate.
  destruct (updateNode_new_id_leaves_anchors (utils := Demo.utils)
              Demo.store st' "n1" "n9"
              {| Node.u_id := Some "n9"; Node.u_other := ∅ |} Hunique eq_refl
              Hne Hrun)
    as (_ & _ & Hconnectors & Hdangling).
  destruct (Hconnectors 0 Demo.c1 eq_refl Hbound) as (c' & Hc' & _ & Hb').
  exists st', c'. split; [reflexivity|].
  split; [vm_compute in Hrun; injection Hrun as <-; reflexivity|].
  split; [exact Hc'|]. split; [exact Hb'|].
  apply Hdangling. exists Demo.c1. split; [left|exact Hbound].
Defined.

(** * The store as objects that are written in place *)

Section MutableHeap.
Import Mutable.

(** ** Extensions of the heap *)

Lemma extends_arraysOf {T} (key : Key T) (h h' : Heap) :
  extends h h' → arraysOf key h `prefix_of` arraysOf key h'.
Proof. intros (? & ? & ? & ? & ? & ?). by destruct key. Qed.

Lemma extends_length {T} (key : Key T) (h h' : Heap) :
  extends h h' → length (arraysOf key h) ≤ length (arraysOf key h').
Proof. intros Hext. by apply prefix_length, extends_arraysOf. Qed.

Lemma extends_trans (h1 h2 h3 : Heap) :
  extends h1 h2 → extends h2 h3 → extends h1 h3.
Proof.
  intros (? & ? & ? & ? & ? & ?) (? & ? & ? & ? & ? & ?).
  repeat split; by etrans.
Qed.

Lemma prefix_snoc {A} (l0 l : list A) (x : A) :
  l0 `prefix_of` l → l0 `prefix_of` l ++ [x].
Proof. intros [more ->]. exists (more ++ [x]). by rewrite (assoc_L (++)). Qed.

(** A write past a prefix leaves the prefix. *)
Lemma prefix_alter {A} (f : A → A) (l0 l : list A) (i : nat) :
  l0 `prefix_of` l → length l0 ≤ i → l0 `prefix_of` alter f i l.
Proof.
  intros [more ->] Hi. exists (alter f (i - length l0) more).
  by rewrite alter_app_r_alt by done.
Qed.

Lemma extends_new {T} (key : Key T) (items : list T) (h0 h : Heap) :
  extends h0 h → extends h0 (withArrays key (λ arrays, arrays ++ [items]) h).
Proof.
  intros (? & ? & ? & ? & ? & ?).
  destruct key; repeat split; simpl; try done; by apply prefix_snoc.
Qed.

Lemma extends_mutate {T} (key : Key T) (f : list T → list T) (array : nat)
    (h0 h : Heap) :
  extends h0 h → length (arraysOf key h0) ≤ array →
  extends h0 (withArrays key (alter f array) h).
Proof.
  intros (? & ? & ? & ? & ? & ?) Harray.
  destruct key; repeat split; simpl in *; try done; by apply prefix_alter.
Qed.

Lemma extends_newObject (o : StateObject) (h0 h : Heap) :
  extends h0 h → extends h0 (withObjects (λ objects, objects ++ [o]) h).
Proof.
  intros (? & ? & ? & ? & ? & ?).
  repeat split; simpl; try done. by apply prefix_snoc.
Qed.

Lemma extends_assignField (g : StateObject → StateObject) (object : nat)
    (h0 h : Heap) :
  extends h0 h → length (stateObjects h0) ≤ object →
  extends h0 (withObjects (alter g object) h).
Proof.
  intros (? & ? & ? & ? & ? & ?) Hobject.
  repeat split; simpl; try done. by apply prefix_alter.
Qed.

Lemma objectAt_withArrays {T} (key : Key T)
    (f : list (list T) → list (list T)) (h : Heap) (address : nat) :
  objectAt (withArrays key f h) address = objectAt h address.
Proof. by destruct key. Qed.

Lemma objectAt_alter (g : StateObject → StateObject) (object address : nat)
    (h : Heap) :
  objectAt (withObjects (alter g object) h) address
  = if decide (address = object ∧ object < length (stateObjects h))
    then g (objectAt h address)
    else objectAt h address.
Proof.
  unfold objectAt. simpl. destruct (decide (address = object)) as [->|Hne].
  - destruct (stateObjects h !! object) as [o|] eqn:Ho.
    + rewrite list_lookup_alter_eq, Ho. simpl.
      rewrite decide_True; [done|]. split; [done|]. by eapply lookup_lt_Some.
    + rewrite list_lookup_alter_eq, Ho. simpl.
      rewrite decide_False; [done|]. intros [_ Hlt].
      apply lookup_ge_None in Ho. lia.
  - rewrite list_lookup_alter_ne by done.
    rewrite decide_False; [done|]. by intros [? _].
Qed.

(** ** What a recipe writes *)

Section Drafts.
Variables (h0 : Heap) (d : nat).

Lemma writesDraft_gets {A} (f : HeapStore → A) : writesDraft h0 d (gets f).
Proof. by intros hs Hext Howned. Qed.

Lemma writesDraft_ret {A} (a : A) : writesDraft h0 d (mret a).
Proof. by intros hs Hext Howned. Qed.

Lemma writesDraft_lift {A} (r : Result A) : writesDraft h0 d (lift r).
Proof. by intros hs Hext Howned. Qed.

Lemma writesDraft_bind {A B} (m : M HeapStore A) (k : A → M HeapStore B) :
  writesDraft h0 d m → (∀ a, writesDraft h0 d (k a)) →
  writesDraft h0 d (bind m k).
Proof.
  intros Hm Hk hs Hext Howned. unfold bind.
  destruct (Hm hs Hext Howned) as (Hext1 & Howned1 & Hcur1 & Hcalls1).
  destruct (m hs) as [[a|e] hs1]; simpl in *; [|done].
  destruct (Hk a hs1 Hext1 Howned1) as (? & ? & Hcur2 & Hcalls2).
  by rewrite Hcur2, Hcalls2.
Qed.

Lemma writesDraft_field {T} (key : Key T) (object : nat) :
  writesDraft h0 d (field key object).
Proof. apply writesDraft_gets. Qed.

Lemma writesDraft_read {T} (key : Key T) (object : nat) :
  writesDraft h0 d (read key object).
Proof.
  apply writesDraft_bind; [apply writesDraft_gets|].
  intros array. apply writesDraft_gets.
Qed.

Lemma writesDraft_deref {T} (key : Key T) (object index : nat) (item : T) :
  writesDraft h0 d (deref key object index item).
Proof.
  apply writesDraft_bind; [apply writesDraft_read|].
  intros items. apply writesDraft_ret.
Qed.

(** A write to an array of the draft. *)
Lemma writesDraft_update {T} (key : Key T) (f : list T → list T) :
  writesDraft h0 d (update key d f).
Proof.
  intros hs Hext Howned. unfold update, field, mutate.
  unfold mbind, M_bind, bind, gets, modify. simpl.
  split; [|split; [|done]].
  - apply extends_mutate; [done|]. by apply Howned.
  - destruct Howned as [Hd Hrefs]. split; [done|]. intros T' key'.
    simpl. rewrite objectAt_withArrays. apply Hrefs.
Qed.

(** An assignment of a new array to a key of the draft. *)
Lemma writesDraft_replace {T} (key : Key T) (items : list T) :
  writesDraft h0 d (replace key d items).
Proof.
  intros hs Hext Howned. unfold replace, new, assignField.
  unfold mbind, M_bind, bind, modify. simpl.
  destruct Howned as [Hd Hrefs].
  split; [|split; [|done]].
  - apply extends_assignField; [|done]. by apply extends_new.
  - split; [done|]. intros T' key'. simpl. rewrite objectAt_alter.
    destruct (decide _) as [_|_].
    + rewrite objectAt_withArrays.
      pose proof (extends_length key h0 (heap hs) Hext) as Hlen.
      destruct key, key'; simpl in *;
        first [ exact Hlen | exact (Hrefs _ Icons) | exact (Hrefs _ Nodes)
              | exact (Hrefs _ Connectors) | exact (Hrefs _ TextBoxes)
              | exact (Hrefs _ Rectangles) ].
    + rewrite objectAt_withArrays. apply Hrefs.
Qed.

End Drafts.

Lemma writesDraft_forEach_from {T} (h0 : Heap) (d : nat)
    (array : HeapStore → list T) (callback : T → nat → M HeapStore unit)
    (i n : nat) :
  (∀ item j, writesDraft h0 d (callback item j)) →
  writesDraft h0 d (forEach_from array callback i n).
Proof.
  intros Hcallback. revert i. induction n as [|n IH]; intros i; simpl.
  - apply writesDraft_ret.
  - apply writesDraft_bind; [apply writesDraft_gets|]. intros items.
    apply writesDraft_bind; [|intros _; apply IH].
    destruct (items !! i); [apply Hcallback|apply writesDraft_ret].
Qed.

Lemma writesDraft_forEach {T} (h0 : Heap) (d : nat)
    (array : HeapStore → list T) (callback : T → nat → M HeapStore unit) :
  (∀ item j, writesDraft h0 d (callback item j)) →
  writesDraft h0 d (forEach array callback).
Proof.
  intros Hcallback. apply writesDraft_bind; [apply writesDraft_gets|].
  intros len. by apply writesDraft_forEach_from.
Qed.

(** Takes a recipe apart into its reads and its writes to the draft. *)
Ltac writes_draft :=
  unfold mbind, M_bind;
  repeat
    lazymatch goal with
    | |- writesDraft _ _ (update _ _ _) => apply writesDraft_update
    | |- writesDraft _ _ (replace _ _ _) => apply writesDraft_replace
    | |- writesDraft _ _ (read _ _) => apply writesDraft_read
    | |- writesDraft _ _ (deref _ _ _ _) => apply writesDraft_deref
    | |- writesDraft _ _ (field _ _) => apply writesDraft_field
    | |- writesDraft _ _ (lift _) => apply writesDraft_lift
    | |- writesDraft _ _ (mret _) => apply writesDraft_ret
    | |- writesDraft _ _ (forEach _ _) =>
        apply writesDraft_forEach; intros ? ?
    | |- writesDraft _ _ (bind _ _) => apply writesDraft_bind; [|intros ?]
    | |- writesDraft _ _ (if ?b then _ else _) => destruct b
    | |- writesDraft _ _ (let '(_, _) := ?p in _) => destruct p
    end.

Section Recipes.
Context {utils : Collaborators}.
Variables (h0 : Heap) (d : nat).

Lemma createNode_recipe_writesDraft input :
  writesDraft h0 d (createNode_recipe input d).
Proof. unfold createNode_recipe. writes_draft. Qed.

Lemma reroute_writesDraft id connector i :
  writesDraft h0 d (reroute id d connector i).
Proof. unfold reroute. writes_draft. Qed.

Lemma updateNode_recipe_writesDraft id updates :
  writesDraft h0 d (updateNode_recipe id updates d).
Proof.
  unfold updateNode_recipe. writes_draft. apply reroute_writesDraft.
Qed.

Lemma deleteNode_recipe_writesDraft id :
  writesDraft h0 d (deleteNode_recipe id d).
Proof. unfold deleteNode_recipe. writes_draft. Qed.

Lemma createConnector_recipe_writesDraft input :
  writesDraft h0 d (createConnector_recipe input d).
Proof. unfold createConnector_recipe. writes_draft. Qed.

Lemma updateConnector_recipe_writesDraft id updates :
  writesDraft h0 d (updateConnector_recipe id updates d).
Proof. unfold updateConnector_recipe. writes_draft. Qed.

Lemma deleteConnector_recipe_writesDraft id :
  writesDraft h0 d (deleteConnector_recipe id d).
Proof. unfold deleteConnector_recipe. writes_draft. Qed.

Lemma createRectangle_recipe_writesDraft input :
  writesDraft h0 d (createRectangle_recipe input d).
Proof. unfold createRectangle_recipe. writes_draft. Qed.

Lemma createTextBox_recipe_writesDraft input :
  writesDraft h0 d (createTextBox_recipe input d).
Proof. unfold createTextBox_recipe. writes_draft. Qed.

Lemma updateTextBox_recipe_writesDraft id updates :
  writesDraft h0 d (updateTextBox_recipe id updates d).
Proof. unfold updateTextBox_recipe. writes_draft. Qed.

Lemma deleteTextBox_recipe_writesDraft id :
  writesDraft h0 d (deleteTextBox_recipe id d).
Proof. unfold deleteTextBox_recipe. writes_draft. Qed.

Lemma updateRectangle_recipe_writesDraft id updates :
  writesDraft h0 d (updateRectangle_recipe id updates d).
Proof. unfold updateRectangle_recipe. writes_draft. Qed.

Lemma deleteRectangle_recipe_writesDraft id :
  writesDraft h0 d (deleteRectangle_recipe id d).
Proof. unfold deleteRectangle_recipe. writes_draft. Qed.

End Recipes.

(** ** What an action writes *)

(** A draft is made of new objects only. *)
Lemma draft_owned (base : nat) (hs : HeapStore) :
  ∃ d,
    (draft base hs).1 = Ok d ∧
    extends (heap hs) (heap (draft base hs).2) ∧
    owned (heap hs) (draft base hs).2 d ∧
    current (draft base hs).2 = current hs ∧
    listened (draft base hs).2 = listened hs.
Proof.
  eexists. split; [reflexivity|].
  unfold draft, copy, read, field, elements, new, newObject.
  unfold mbind, M_bind, bind, gets. simpl.
  split; [|split; [|done]].
  - repeat split; simpl; try apply prefix_app_r; done.
  - split; [done|]. intros T key.
    unfold objectAt. simpl. rewrite list_lookup_middle by done.
    destruct key; simpl; rewrite ?length_app; simpl; lia.
Qed.

Lemma quiet_gets {A} (f : HeapStore → A) : quiet (gets f).
Proof. intros hs. split; [apply extends_refl|done]. Qed.

Lemma quiet_lift {A} (r : Result A) : quiet (lift r).
Proof. intros hs. split; [apply extends_refl|done]. Qed.

Lemma quiet_new {T} (key : Key T) (items : list T) : quiet (new key items).
Proof.
  intros hs. split; [|done]. apply extends_new, extends_refl.
Qed.

Lemma quiet_bind {A B} (m : M HeapStore A) (k : A → M HeapStore B) :
  quiet m → (∀ a, quiet (k a)) → quiet (bind m k).
Proof.
  intros Hm Hk hs. unfold bind.
  destruct (Hm hs) as (Hext1 & Hcur1 & Hcalls1).
  destruct (m hs) as [[a|e] hs1]; simpl in *; [|done].
  destruct (Hk a hs1) as (Hext2 & Hcur2 & Hcalls2).
  rewrite Hcur2, Hcalls2. split; [|done]. by eapply extends_trans.
Qed.

(** [produce] writes no object that was there when its recipe writes its
    draft only. *)
Lemma quiet_produce (base : nat) (recipe : nat → M HeapStore unit) :
  (∀ h0 d, writesDraft h0 d (recipe d)) → quiet (produce base recipe).
Proof.
  intros Hrecipe hs. unfold produce, mbind, M_bind, bind.
  destruct (draft_owned base hs) as (d & Hd & Hext & Howned & Hcur & Hcalls).
  destruct (draft base hs) as [r hs1]. simpl in *. subst r.
  destruct (Hrecipe (heap hs) d hs1 Hext Howned)
    as (Hext2 & _ & Hcur2 & Hcalls2).
  destruct (recipe d hs1) as [[[]|e] hs2]; simpl in *;
    by rewrite Hcur2, Hcalls2.
Qed.

Lemma publishes_set (partial : Partial) : publishes (set partial).
Proof.
  intros hs. unfold set, modify. simpl. split; [|done].
  apply extends_newObject, extends_refl.
Qed.

Lemma publishes_bind {A B} (m : M HeapStore A) (k : A → M HeapStore B) :
  quiet m → (∀ a, publishes (k a)) → publishes (bind m k).
Proof.
  intros Hm Hk hs. unfold bind.
  destruct (Hm hs) as (Hext1 & Hcur1 & Hcalls1).
  destruct (m hs) as [[a|e] hs1]; simpl in *; [|done].
  destruct (Hk a hs1) as (Hext2 & Hpub).
  split; [by eapply extends_trans|].
  destruct ((k a hs1).1); rewrite <- Hcur1, <- Hcalls1; [|done].
  destruct Hpub as [Hnew Hcalls]. split; [|done].
  destruct Hext1 as (_ & _ & _ & _ & _ & Hobjects).
  apply prefix_length in Hobjects. lia.
Qed.

Lemma publishes_then_ret {A B} (m : M HeapStore A) (b : B) :
  publishes m → publishes (bind m (λ _, mret b)).
Proof.
  intros Hm hs. unfold bind. specialize (Hm hs).
  by destruct (m hs) as [[a|e] hs1].
Qed.

(** Takes an action apart into what comes before its [set], and the
    [set]. *)
Ltac publishes_once :=
  unfold mbind, M_bind; cbv zeta;
  repeat
    lazymatch goal with
    | |- publishes (set _) => apply publishes_set
    | |- publishes (bind _ (λ _, mret _)) => apply publishes_then_ret
    | |- publishes (bind get _) =>
        apply publishes_bind; [apply quiet_gets|intros ?; cbv zeta]
    | |- publishes (bind (field _ _) _) =>
        apply publishes_bind; [apply quiet_gets|intros ?; cbv zeta]
    | |- publishes (bind (lift _) _) =>
        apply publishes_bind; [apply quiet_lift|intros ?; cbv zeta]
    | |- publishes (bind (new _ _) _) =>
        apply publishes_bind; [apply quiet_new|intros ?; cbv zeta]
    | |- publishes (bind (produce _ _) _) =>
        apply publishes_bind;
        [apply quiet_produce; intros ? ?|intros ?; cbv zeta]
    end.

Section Calls.
Context {utils : Collaborators}.

Lemma call_publishes (a : Action) : publishes (Mutable.call a).
Proof.
  destruct a; unfold Mutable.call, setScene, updateScene, createNode,
    updateNode, deleteNode, createConnector, updateConnector,
    deleteConnector, createRectangle, createTextBox, updateTextBox,
    deleteTextBox, updateRectangle, deleteRectangle;
    publishes_once.
  - apply createNode_recipe_writesDraft.
  - apply updateNode_recipe_writesDraft.
  - apply deleteNode_recipe_writesDraft.
  - apply createConnector_recipe_writesDraft.
  - apply updateConnector_recipe_writesDraft.
  - apply deleteConnector_recipe_writesDraft.
  - apply createRectangle_recipe_writesDraft.
  - apply createTextBox_recipe_writesDraft.
  - apply updateTextBox_recipe_writesDraft.
  - apply deleteTextBox_recipe_writesDraft.
  - apply updateRectangle_recipe_writesDraft.
  - apply deleteRectangle_recipe_writesDraft.
Qed.

End Calls.

(** ** The actions on objects do what the actions on values do *)

Lemma arrayAt_alter {T} (f : list T → list T) (arrays : list (list T))
    (address : nat) :
  address < length arrays →
  arrayAt (alter f address arrays) address = f (arrayAt arrays address).
Proof.
  intros Hlt. unfold arrayAt.
  destruct (lookup_lt_is_Some_2 _ _ Hlt) as [array Harray].
  by rewrite list_lookup_alter_eq, Harray.
Qed.

Lemma arrayAt_snoc {T} (arrays : list (list T)) (items : list T) :
  arrayAt (arrays ++ [items]) (length arrays) = items.
Proof. unfold arrayAt. by rewrite list_lookup_middle. Qed.

Lemma sequence_snapshot {T} (key : Key T) (h : Heap) (d : nat) :
  sequence key (snapshot h d)
  = arrayAt (arraysOf key h) (refOf key (objectAt h d)).
Proof. by destruct key. Qed.

Lemma allocated_grows (h h' : Heap) (o : StateObject) :
  (∀ T (key : Key T), length (arraysOf key h) ≤ length (arraysOf key h')) →
  allocated h o → allocated h' o.
Proof.
  intros Hlen (? & ? & ? & ? & ?).
  pose proof (Hlen _ Icons). pose proof (Hlen _ Nodes).
  pose proof (Hlen _ Connectors). pose proof (Hlen _ TextBoxes).
  pose proof (Hlen _ Rectangles). simpl in *. unfold allocated. lia.
Qed.

Lemma live_allocated (hs : HeapStore) (d : nat) :
  live hs d → allocated (heap hs) (objectAt (heap hs) d).
Proof.
  intros [Hd Hall]. unfold objectAt.
  destruct (lookup_lt_is_Some_2 _ _ Hd) as [o Ho]. rewrite Ho. simpl.
  by eapply Forall_lookup_1.
Qed.

Lemma length_arraysOf_alter {T T'} (key : Key T) (key' : Key T')
    (f : list T → list T) (address : nat) (h : Heap) :
  length (arraysOf key' (withArrays key (alter f address) h))
  = length (arraysOf key' h).
Proof. destruct key, key'; simpl; by rewrite ?length_alter. Qed.

Lemma length_arraysOf_snoc {T T'} (key : Key T) (key' : Key T')
    (items : list T) (h : Heap) :
  length (arraysOf key' h)
  ≤ length (arraysOf key' (withArrays key (λ arrays, arrays ++ [items]) h)).
Proof. destruct key, key'; simpl; rewrite ?length_app; lia. Qed.

(** A write to an array of the draft is the assignment to its sequence. *)
Lemma snapshot_update {T} (key : Key T) (f : list T → list T) (h : Heap)
    (d : nat) :
  allocated h (objectAt h d) →
  snapshot (withArrays key (alter f (refOf key (objectAt h d))) h) d
  = withSequence key f (snapshot h d).
Proof.
  intros (? & ? & ? & ? & ?).
  destruct key; unfold snapshot; simpl; unfold with_nodes, with_connectors,
    with_textBoxes, with_rectangles; simpl; f_equal;
    change (objectAt _ d) with (objectAt h d); by apply arrayAt_alter.
Qed.

Lemma snapshot_replace {T} (key : Key T) (items : list T) (h : Heap)
    (d : nat) :
  d < length (stateObjects h) →
  snapshot
    (withObjects (alter (withRef key (length (arraysOf key h))) d)
       (withArrays key (λ arrays, arrays ++ [items]) h)) d
  = withSequence key (λ _, items) (snapshot h d).
Proof.
  intros Hd. unfold snapshot. rewrite objectAt_alter.
  rewrite decide_True by (by destruct key).
  rewrite objectAt_withArrays.
  destruct key; simpl; unfold with_nodes, with_connectors, with_textBoxes,
    with_rectangles; simpl; f_equal; apply arrayAt_snoc.
Qed.

Section Mirrors.
Variable d : nat.

Lemma mirrors_ret {A} (a : A) : mirrors d (mret a) (mret a).
Proof. by intros hs Hlive. Qed.

Lemma mirrors_lift {A} (r : Result A) : mirrors d (lift r) (lift r).
Proof. by intros hs Hlive. Qed.

Lemma mirrors_bind {A B} (m : M HeapStore A) (k : A → M HeapStore B)
    (m' : M Scene A) (k' : A → M Scene B) :
  mirrors d m m' → (∀ a, mirrors d (k a) (k' a)) →
  mirrors d (bind m k) (bind m' k').
Proof.
  intros Hm Hk hs Hlive. unfold bind.
  destruct (Hm hs Hlive) as [-> Hlive1].
  destruct (m hs) as [[a|e] hs1]; simpl in *; [|done].
  by apply Hk.
Qed.

Lemma mirrors_read {T} (key : Key T) :
  mirrors d (read key d) (gets (sequence key)).
Proof.
  intros hs Hlive. split; [|done].
  unfold read, field, elements, mbind, M_bind, bind, gets. simpl.
  by rewrite sequence_snapshot.
Qed.

(** Reading the whole draft on values is reading two of its arrays. *)
Lemma mirrors_read2 {T1 T2 B} (key1 : Key T1) (key2 : Key T2)
    (k : list T1 → list T2 → M HeapStore B) (k' : Scene → M Scene B) :
  (∀ s, mirrors d (k (sequence key1 s) (sequence key2 s)) (k' s)) →
  mirrors d (bind (read key1 d) (λ a, bind (read key2 d) (k a)))
    (bind (gets (λ s, s)) k').
Proof.
  intros Hk hs Hlive.
  unfold read, field, elements, mbind, M_bind, bind, gets. simpl.
  rewrite <- !sequence_snapshot. by apply Hk.
Qed.

Lemma mirrors_deref {T} (key : Key T) (index : nat) (item : T) :
  mirrors d (Mutable.deref key d index item)
    (gets (λ draftState, default item (sequence key draftState !! index))).
Proof.
  intros hs Hlive. split; [|done].
  unfold Mutable.deref, read, field, elements, mbind, M_bind, bind, gets,
    mret, M_ret, ret.
  simpl. by rewrite sequence_snapshot.
Qed.

Lemma live_update {T} (key : Key T) (f : list T → list T) (address : nat)
    (hs : HeapStore) :
  live hs d → live (onHeap (withArrays key (alter f address)) hs) d.
Proof.
  intros [Hd Hall]. split; simpl.
  - by destruct key.
  - replace (stateObjects (withArrays key (alter f address) (heap hs)))
      with (stateObjects (heap hs)) by (by destruct key).
    eapply Forall_impl; [done|]. intros o. apply allocated_grows.
    intros T' key'. by rewrite length_arraysOf_alter.
Qed.

Lemma mirrors_update {T} (key : Key T) (f : list T → list T) :
  mirrors d (update key d f) (modify (withSequence key f)).
Proof.
  intros hs Hlive.
  unfold update, field, mutate, mbind, M_bind, bind, gets, modify. simpl.
  split; [|by apply live_update].
  rewrite snapshot_update; [done|]. by apply live_allocated.
Qed.

Lemma live_replace {T} (key : Key T) (items : list T) (hs : HeapStore) :
  live hs d →
  live
    (onHeap
       (withObjects (alter (withRef key (length (arraysOf key (heap hs)))) d))
       (onHeap (withArrays key (λ arrays, arrays ++ [items])) hs)) d.
Proof.
  intros [Hd Hall]. split; simpl.
  - rewrite length_alter. by destruct key.
  - replace (stateObjects
               (withArrays key (λ arrays, arrays ++ [items]) (heap hs)))
      with (stateObjects (heap hs)) by (by destruct key).
    assert (Forall
              (allocated
                 (withArrays key (λ arrays, arrays ++ [items]) (heap hs)))
              (stateObjects (heap hs))) as Hall'.
    { eapply Forall_impl; [done|]. intros o. apply allocated_grows.
      intros T' key'. apply length_arraysOf_snoc. }
    apply (Forall_impl
             (allocated
                (withArrays key (λ arrays, arrays ++ [items]) (heap hs))));
      [|by intros o Ho].
    apply Forall_alter; [done|].
    intros o _ (? & ? & ? & ? & ?).
    destruct key; unfold allocated in *; simpl in *;
      rewrite ?length_app in *; simpl; repeat split; lia.
Qed.

Lemma mirrors_replace {T} (key : Key T) (items : list T) :
  mirrors d (replace key d items) (modify (withSequence key (λ _, items))).
Proof.
  intros hs Hlive.
  unfold replace, new, assignField, mbind, M_bind, bind, modify. simpl.
  split; [|by apply live_replace].
  rewrite snapshot_replace; [done|]. apply Hlive.
Qed.

(** An assignment of the array filtered, or mapped, from the old one. *)
Lemma mirrors_read_replace {T} (key : Key T) (g : list T → list T) :
  mirrors d (bind (read key d) (λ items, replace key d (g items)))
    (modify (withSequence key g)).
Proof.
  intros hs Hlive.
  set (items := arrayAt (arraysOf key (heap hs))
                  (refOf key (objectAt (heap hs) d))).
  assert (bind (read key d) (λ items, replace key d (g items)) hs
          = replace key d (g items) hs) as -> by reflexivity.
  destruct (mirrors_replace key (g items) hs Hlive) as [Hsame Hlive'].
  split; [|done]. rewrite <- Hsame. unfold modify. f_equal.
  unfold items. rewrite <- sequence_snapshot. by destruct key.
Qed.

End Mirrors.

(** The [forEach] over the array that the draft refers to, when its
    callback leaves the draft object alone. *)
Lemma mirrors_forEach_from (d array : nat)
    (callback : Connector.t → nat → M HeapStore unit)
    (callback' : Connector.t → nat → M Scene unit) (n i : nat)
    (hs : HeapStore) :
  (∀ item j, mirrors d (callback item j) (callback' item j)) →
  (∀ item j hs,
     objectAt (heap (callback item j hs).2) d = objectAt (heap hs) d) →
  live hs d →
  at_connectors (objectAt (heap hs) d) = array →
  forEach_from connectors callback' i n (snapshot (heap hs) d)
  = ((forEach_from (λ hs, arrayAt (connectorArrays (heap hs)) array)
        callback i n hs).1,
     snapshot
       (heap (forEach_from (λ hs, arrayAt (connectorArrays (heap hs)) array)
                callback i n hs).2) d) ∧
  live (forEach_from (λ hs, arrayAt (connectorArrays (heap hs)) array)
          callback i n hs).2 d.
Proof.
  intros Hcallback Hobject. revert i hs.
  induction n as [|n IH]; intros i hs Hlive Harray; simpl; [done|].
  unfold mbind, M_bind, bind, gets. simpl. rewrite Harray.
  destruct (arrayAt (connectorArrays (heap hs)) array !! i) as [item|];
    simpl.
  - destruct (Hcallback item i hs Hlive) as [-> Hlive1].
    pose proof (Hobject item i hs) as Hsame.
    destruct (callback item i hs) as [[[]|e] hs1]; simpl in *; [|done].
    apply IH; [done|]. by rewrite Hsame.
  - by apply IH.
Qed.

Lemma mirrors_forEach (d : nat)
    (callback : Connector.t → nat → M HeapStore unit)
    (callback' : Connector.t → nat → M Scene unit) :
  (∀ item j, mirrors d (callback item j) (callback' item j)) →
  (∀ item j hs,
     objectAt (heap (callback item j hs).2) d = objectAt (heap hs) d) →
  mirrors d
    (bind (field Connectors d)
       (λ array,
          forEach (λ hs, arrayAt (connectorArrays (heap hs)) array) callback))
    (forEach connectors callback').
Proof.
  intros Hcallback Hobject hs Hlive.
  unfold forEach, field, mbind, M_bind, bind, gets. simpl.
  by apply mirrors_forEach_from.
Qed.

End MutableHeap.

(** Takes a recipe on objects and the recipe on values apart, step by
    step. *)
Ltac mirrors_step :=
  unfold mbind, M_bind;
  repeat
    lazymatch goal with
    | |- Mutable.mirrors _ (mret _) _ => apply mirrors_ret
    | |- Mutable.mirrors _ (lift _) _ => apply mirrors_lift
    | |- Mutable.mirrors _ (Mutable.read ?key _) _ => apply (mirrors_read _ key)
    | |- Mutable.mirrors _ (Mutable.deref ?key _ _ _) _ =>
        apply (mirrors_deref _ key)
    | |- Mutable.mirrors _ (Mutable.update ?key _ ?f) _ =>
        apply (mirrors_update _ key f)
    | |- Mutable.mirrors _ (bind (Mutable.read ?key _) (λ _, Mutable.replace _ _ _))
           _ =>
        apply (mirrors_read_replace _ key)
    | |- Mutable.mirrors _
           (bind (Mutable.read ?key1 _)
              (λ _, bind (Mutable.read ?key2 _) _))
           (bind (gets (λ s, s)) _) =>
        apply (mirrors_read2 _ key1 key2); intros ?
    | |- Mutable.mirrors _ (bind _ _) (bind _ _) =>
        apply mirrors_bind; [|intros ?]
    | |- Mutable.mirrors _ (if ?b then _ else _) _ => destruct b
    | |- Mutable.mirrors _ (let '(_, _) := ?p in _) _ => destruct p
    end.

Section RecipesMirror.
Context {utils : Collaborators}.
Variable d : nat.

Lemma createNode_recipe_mirrors input :
  Mutable.mirrors d (Mutable.createNode_recipe input d) (createNode_recipe input).
Proof.
  unfold Mutable.createNode_recipe, createNode_recipe. mirrors_step.
Qed.

Lemma reroute_mirrors id connector i :
  Mutable.mirrors d (Mutable.reroute id d connector i) (reroute id connector i).
Proof. unfold Mutable.reroute, reroute. mirrors_step. Qed.

Lemma reroute_keeps_object id connector i (hs : HeapStore) :
  objectAt (heap (Mutable.reroute id d connector i hs).2) d
  = objectAt (heap hs) d.
Proof.
  unfold Mutable.reroute.
  destruct (defined _); [|done].
  unfold Mutable.read, Mutable.update, Mutable.field, Mutable.elements,
    Mutable.mutate, mbind, M_bind, bind, gets, lift, modify.
  simpl. by destruct (getConnectorPath _ _ _).
Qed.

Lemma updateNode_recipe_mirrors id updates :
  Mutable.mirrors d (Mutable.updateNode_recipe id updates d)
    (updateNode_recipe id updates).
Proof.
  unfold Mutable.updateNode_recipe, updateNode_recipe, deref. mirrors_step.
  apply mirrors_forEach.
  - intros item j. apply reroute_mirrors.
  - intros item j hs. apply reroute_keeps_object.
Qed.

Lemma deleteNode_recipe_mirrors id :
  Mutable.mirrors d (Mutable.deleteNode_recipe id d) (deleteNode_recipe id).
Proof.
  unfold Mutable.deleteNode_recipe, deleteNode_recipe. mirrors_step.
Qed.

Lemma createConnector_recipe_mirrors input :
  Mutable.mirrors d (Mutable.createConnector_recipe input d)
    (createConnector_recipe input).
Proof.
  unfold Mutable.createConnector_recipe, createConnector_recipe.
  mirrors_step.
Qed.

Lemma updateConnector_recipe_mirrors id updates :
  Mutable.mirrors d (Mutable.updateConnector_recipe id updates d)
    (updateConnector_recipe id updates).
Proof.
  unfold Mutable.updateConnector_recipe, updateConnector_recipe, deref.
  mirrors_step.
Qed.

Lemma deleteConnector_recipe_mirrors id :
  Mutable.mirrors d (Mutable.deleteConnector_recipe id d) (deleteConnector_recipe id).
Proof.
  unfold Mutable.deleteConnector_recipe, deleteConnector_recipe.
  mirrors_step.
Qed.

Lemma createRectangle_recipe_mirrors input :
  Mutable.mirrors d (Mutable.createRectangle_recipe input d)
    (createRectangle_recipe input).
Proof.
  unfold Mutable.createRectangle_recipe, createRectangle_recipe.
  mirrors_step.
Qed.

Lemma createTextBox_recipe_mirrors input :
  Mutable.mirrors d (Mutable.createTextBox_recipe input d)
    (createTextBox_recipe input).
Proof.
  unfold Mutable.createTextBox_recipe, createTextBox_recipe. mirrors_step.
Qed.

Lemma updateTextBox_recipe_mirrors id updates :
  Mutable.mirrors d (Mutable.updateTextBox_recipe id updates d)
    (updateTextBox_recipe id updates).
Proof.
  unfold Mutable.updateTextBox_recipe, updateTextBox_recipe, deref.
  mirrors_step.
Qed.

Lemma deleteTextBox_recipe_mirrors id :
  Mutable.mirrors d (Mutable.deleteTextBox_recipe id d) (deleteTextBox_recipe id).
Proof.
  unfold Mutable.deleteTextBox_recipe, deleteTextBox_recipe. mirrors_step.
Qed.

Lemma updateRectangle_recipe_mirrors id updates :
  Mutable.mirrors d (Mutable.updateRectangle_recipe id updates d)
    (updateRectangle_recipe id updates).
Proof.
  unfold Mutable.updateRectangle_recipe, updateRectangle_recipe, deref.
  mirrors_step.
Qed.

Lemma deleteRectangle_recipe_mirrors id :
  Mutable.mirrors d (Mutable.deleteRectangle_recipe id d) (deleteRectangle_recipe id).
Proof.
  unfold Mutable.deleteRectangle_recipe, deleteRectangle_recipe.
  mirrors_step.
Qed.

End RecipesMirror.

(** ** From the recipes to the actions *)

(** A store whose heap has more objects, and nothing else changed, stands
    for the same store of values. *)
Lemma abstraction_extends (hs hs' : HeapStore) :
  wellFormed hs → extends (heap hs) (heap hs') →
  current hs' = current hs → listened hs' = listened hs →
  abstraction hs' = abstraction hs.
Proof.
  intros Hwf Hext Hcur Hcalls. pose proof Hwf as (Hlt & _ & Hrange).
  assert (∀ address, address < length (stateObjects (heap hs)) →
            snapshot (heap hs') address = snapshot (heap hs) address)
    as Hsame.
  { intros address Haddress.
    apply snapshot_extends; [done|by apply allocated_objectAt|done]. }
  unfold abstraction. rewrite Hcur, Hcalls. f_equal; [by apply Hsame|].
  apply Forall_fmap_ext_1. eapply Forall_impl; [done|].
  intros [next previous] [Hnext Hprevious]. simpl in Hnext, Hprevious.
  cbv beta. by rewrite !Hsame.
Qed.

Lemma wellFormed_extends (hs hs' : HeapStore) :
  wellFormed hs → extends (heap hs) (heap hs') →
  current hs' = current hs → listened hs' = listened hs →
  Forall (allocated (heap hs')) (stateObjects (heap hs')) →
  wellFormed hs'.
Proof.
  intros (Hlt & _ & Hrange) (_ & _ & _ & _ & _ & Hobjects) Hcur Hcalls Hall.
  apply prefix_length in Hobjects.
  split; [|split; [done|]].
  - rewrite Hcur. lia.
  - rewrite Hcalls. eapply Forall_impl; [done|]. simpl. lia.
Qed.

(** The heap after a draft of [base] is made. *)
Lemma draft_eq (base : nat) (hs : HeapStore) :
  Mutable.draft base hs
  = (Ok (length (stateObjects (heap hs))),
     let h := heap hs in
     let o := objectAt h base in
     {| heap :=
          {| iconArrays := iconArrays h ++ [arrayAt (iconArrays h) (at_icons o)];
             nodeArrays := nodeArrays h ++ [arrayAt (nodeArrays h) (at_nodes o)];
             connectorArrays :=
               connectorArrays h ++
               [arrayAt (connectorArrays h) (at_connectors o)];
             textBoxArrays :=
               textBoxArrays h ++ [arrayAt (textBoxArrays h) (at_textBoxes o)];
             rectangleArrays :=
               rectangleArrays h ++
               [arrayAt (rectangleArrays h) (at_rectangles o)];
             stateObjects :=
               stateObjects h ++
               [{| at_icons := length (iconArrays h);
                   at_nodes := length (nodeArrays h);
                   at_connectors := length (connectorArrays h);
                   at_textBoxes := length (textBoxArrays h);
                   at_rectangles := length (rectangleArrays h) |}] |};
        current := current hs;
        listened := listened hs |}).
Proof. reflexivity. Qed.

(** The draft of the published state shows the published scene. *)
Lemma draft_snapshot (hs : HeapStore) :
  wellFormed hs →
  (Mutable.draft (current hs) hs).1 = Ok (length (stateObjects (heap hs))) ∧
  snapshot (heap (Mutable.draft (current hs) hs).2)
    (length (stateObjects (heap hs)))
  = snapshot (heap hs) (current hs) ∧
  Mutable.live (Mutable.draft (current hs) hs).2
    (length (stateObjects (heap hs))).
Proof.
  intros Hwf. pose proof Hwf as (Hlt & Hall & _).
  rewrite draft_eq. cbv zeta. split; [done|]. split.
  - unfold snapshot. erewrite objectAt_last; [|reflexivity]. simpl.
    f_equal; apply arrayAt_snoc.
  - split; simpl; [rewrite length_app; simpl; lia|].
    apply Forall_app. split.
    + eapply Forall_impl; [done|]. intros o (? & ? & ? & ? & ?).
      unfold allocated. simpl. rewrite !length_app. simpl. lia.
    + apply Forall_singleton. unfold allocated. simpl.
      rewrite !length_app. simpl. lia.
Qed.

Section Produce.
Variables (recipe : nat → M HeapStore unit) (recipe' : M Scene unit).
Hypothesis recipe_mirrors : ∀ d, Mutable.mirrors d (recipe d) recipe'.
Hypothesis recipe_writesDraft : ∀ h0 d, Mutable.writesDraft h0 d (recipe d).

Lemma produce_mirrors (hs : HeapStore) :
  wellFormed hs →
  wellFormed (Mutable.produce (current hs) recipe hs).2 ∧
  abstraction (Mutable.produce (current hs) recipe hs).2 = abstraction hs ∧
  match (Mutable.produce (current hs) recipe hs).1 with
  | Ok d =>
      recipe' (snapshot (heap hs) (current hs))
      = (Ok tt,
         snapshot (heap (Mutable.produce (current hs) recipe hs).2) d) ∧
      Mutable.live (Mutable.produce (current hs) recipe hs).2 d
  | Throw e => (recipe' (snapshot (heap hs) (current hs))).1 = Throw e
  end.
Proof.
  intros Hwf.
  destruct (quiet_produce (current hs) recipe recipe_writesDraft hs)
    as (Hext & Hcur & Hcalls).
  destruct (draft_snapshot hs Hwf) as (Hd & Hsame & Hlive).
  revert Hext Hcur Hcalls.
  unfold Mutable.produce, mbind, M_bind, bind.
  destruct (Mutable.draft (current hs) hs) as [r hs1]. simpl in *. subst r.
  destruct (recipe_mirrors _ hs1 Hlive) as [Hrun Hlive2].
  rewrite Hsame in Hrun.
  destruct (recipe (length (stateObjects (heap hs))) hs1) as [[[]|e] hs2];
    simpl in *; intros Hext Hcur Hcalls.
  all: split; [apply (wellFormed_extends hs); try done; apply Hlive2|].
  all: split; [by apply abstraction_extends|].
  - done.
  - by rewrite Hrun.
Qed.

(** An action that hands the published state to [produce] and goes on with
    the result. *)
Lemma refines_produce_then (k : nat → M HeapStore unit)
    (k' : Scene → M Store unit) :
  (∀ d, Mutable.continues d (k d) k') →
  refines
    (bind Mutable.get (λ base, bind (Mutable.produce base recipe) k))
    (bind get (λ base, bind (produce base recipe') k')).
Proof.
  intros Hk hs Hwf.
  destruct (produce_mirrors hs Hwf) as (Hwf1 & Hsame & Hrun).
  unfold Mutable.get, get, Store_api, bind, gets, produce. simpl.
  destruct (Mutable.produce (current hs) recipe hs) as [[d|e] hs1];
    simpl in *.
  - destruct Hrun as [-> Hlive]. rewrite <- Hsame. by apply Hk.
  - destruct (recipe' (snapshot (heap hs) (current hs))) as [r s].
    simpl in Hrun. subst r. by rewrite Hsame.
Qed.

End Produce.

(** [set] on objects publishes what [set] on values publishes. *)
Lemma set_refines (partial : Mutable.Partial) (hs : HeapStore) :
  wellFormed hs → Mutable.refersWithin (heap hs) partial →
  Store_set (Mutable.valuesOf (heap hs) partial) (abstraction hs)
  = (Ok tt, abstraction (Mutable.set partial hs).2) ∧
  wellFormed (Mutable.set partial hs).2.
Proof.
  intros Hwf Hrefs. pose proof Hwf as (Hlt & Hall & Hrange).
  pose proof (allocated_objectAt hs (current hs) Hwf Hlt)
    as (? & ? & ? & ? & ?).
  destruct Hrefs as (Hi & Hn & Hc & Ht & Hr).
  set (hs' := (Mutable.set partial hs).2).
  assert (extends (heap hs) (heap hs')) as Hext
      by (apply extends_newObject, extends_refl).
  assert (∀ address, address < length (stateObjects (heap hs)) →
            snapshot (heap hs') address = snapshot (heap hs) address)
    as Hsame.
  { intros address Haddress.
    apply snapshot_extends; [done|by apply allocated_objectAt|done]. }
  assert (snapshot (heap hs') (current hs')
          = assign (snapshot (heap hs) (current hs))
              (Mutable.valuesOf (heap hs) partial)) as Hnew.
  { unfold snapshot.
    change (current hs') with (length (stateObjects (heap hs))).
    erewrite (objectAt_last (heap hs') (stateObjects (heap hs)));
      [|reflexivity].
    unfold assign, Mutable.valuesOf. simpl.
    destruct partial as [[?|] [?|] [?|] [?|] [?|]]; reflexivity. }
  split.
  - unfold Store_set, modify, abstraction. f_equal.
    rewrite Hnew. f_equal.
    change (listened hs') with (listened hs ++ [(current hs', current hs)]).
    rewrite fmap_app. f_equal.
    + apply Forall_fmap_ext_1. eapply Forall_impl; [done|].
      intros [next previous] [Hnext Hprevious]. simpl in Hnext, Hprevious.
      cbv beta. by rewrite !Hsame.
    + cbn [fmap list_fmap fst snd]. by rewrite Hnew, (Hsame (current hs)).
  - unfold hs', Mutable.set, modify, wellFormed. simpl.
    rewrite length_app. simpl. split; [lia|]. split.
    + apply Forall_app. split; [done|]. apply Forall_singleton.
      unfold allocated. simpl.
      destruct partial as [[?|] [?|] [?|] [?|] [?|]]; simpl in *;
        repeat split; first [done | by apply Hi | by apply Hn | by apply Hc
                            | by apply Ht | by apply Hr ].
    + apply Forall_app. split.
      * eapply Forall_impl; [done|]. simpl. lia.
      * apply Forall_singleton. simpl. lia.
Qed.

(** What follows [produce]: the keys of the result that are passed to
    [set]. *)
Ltac continues_set :=
  intros hs Hwf Hlive;
  pose proof (live_allocated hs _ Hlive) as (? & ? & ? & ? & ?);
  unfold Mutable.field, mbind, M_bind, bind, gets; cbv beta iota;
  lazymatch goal with
  | |- context [Mutable.set ?partial hs] =>
      apply (set_refines partial hs Hwf)
  end;
  repeat split; simpl; intros ? [= <-]; done.

Section Continues.
Variable d : nat.

Lemma continues_nodes :
  Mutable.continues d
    (n ← Mutable.field Mutable.Nodes d;
     Mutable.set
       {| Mutable.ref_icons := None; Mutable.ref_nodes := Some n;
          Mutable.ref_connectors := None; Mutable.ref_textBoxes := None;
          Mutable.ref_rectangles := None |})
    (λ newScene,
       set {| p_icons := None; p_nodes := Some (nodes newScene);
              p_connectors := None; p_textBoxes := None;
              p_rectangles := None |}).
Proof. continues_set. Qed.

Lemma continues_nodes_connectors :
  Mutable.continues d
    (n ← Mutable.field Mutable.Nodes d;
     c ← Mutable.field Mutable.Connectors d;
     Mutable.set
       {| Mutable.ref_icons := None; Mutable.ref_nodes := Some n;
          Mutable.ref_connectors := Some c; Mutable.ref_textBoxes := None;
          Mutable.ref_rectangles := None |})
    (λ newScene,
       set {| p_icons := None; p_nodes := Some (nodes newScene);
              p_connectors := Some (connectors newScene);
              p_textBoxes := None; p_rectangles := None |}).
Proof. continues_set. Qed.

Lemma continues_connectors :
  Mutable.continues d
    (c ← Mutable.field Mutable.Connectors d;
     Mutable.set
       {| Mutable.ref_icons := None; Mutable.ref_nodes := None;
          Mutable.ref_connectors := Some c; Mutable.ref_textBoxes := None;
          Mutable.ref_rectangles := None |})
    (λ newScene,
       set {| p_icons := None; p_nodes := None;
              p_connectors := Some (connectors newScene);
              p_textBoxes := None; p_rectangles := None |}).
Proof. continues_set. Qed.

Lemma continues_textBoxes :
  Mutable.continues d
    (t ← Mutable.field Mutable.TextBoxes d;
     Mutable.set
       {| Mutable.ref_icons := None; Mutable.ref_nodes := None;
          Mutable.ref_connectors := None; Mutable.ref_textBoxes := Some t;
          Mutable.ref_rectangles := None |})
    (λ newScene,
       set {| p_icons := None; p_nodes := None; p_connectors := None;
              p_textBoxes := Some (textBoxes newScene);
              p_rectangles := None |}).
Proof. continues_set. Qed.

Lemma continues_rectangles :
  Mutable.continues d
    (r ← Mutable.field Mutable.Rectangles d;
     Mutable.set
       {| Mutable.ref_icons := None; Mutable.ref_nodes := None;
          Mutable.ref_connectors := None; Mutable.ref_textBoxes := None;
          Mutable.ref_rectangles := Some r |})
    (λ newScene,
       set {| p_icons := None; p_nodes := None; p_connectors := None;
              p_textBoxes := None;
              p_rectangles := Some (rectangles newScene) |}).
Proof. continues_set. Qed.

End Continues.

(** New arrays leave the store of values as it is. *)
Lemma new_arrays_refine (hs hs' : HeapStore) :
  wellFormed hs →
  (∀ T (key : Mutable.Key T),
     Mutable.arraysOf key (heap hs)
     `prefix_of` Mutable.arraysOf key (heap hs')) →
  stateObjects (heap hs') = stateObjects (heap hs) →
  current hs' = current hs → listened hs' = listened hs →
  wellFormed hs' ∧ abstraction hs' = abstraction hs.
Proof.
  intros Hwf Harrays Hobjects Hcur Hcalls.
  assert (extends (heap hs) (heap hs')) as Hext.
  { repeat split;
      [ apply (Harrays _ Mutable.Icons) | apply (Harrays _ Mutable.Nodes)
      | apply (Harrays _ Mutable.Connectors)
      | apply (Harrays _ Mutable.TextBoxes)
      | apply (Harrays _ Mutable.Rectangles) | by rewrite Hobjects ]. }
  split; [|by apply abstraction_extends].
  apply (wellFormed_extends hs); try done.
  destruct Hwf as (_ & Hall & _). rewrite Hobjects.
  eapply Forall_impl; [done|]. intros o. apply allocated_grows.
  intros T key. apply prefix_length, Harrays.
Qed.

Section CallsRefine.
Context {utils : Collaborators}.

Lemma updateScene_refines (scene : Scene) :
  refines (Mutable.updateScene scene) (updateScene scene).
Proof.
  intros hs Hwf.
  set (hs3 :=
         Mutable.onHeap
           (Mutable.withArrays Mutable.Rectangles
              (λ arrays, arrays ++ [rectangles scene]))
           (Mutable.onHeap
              (Mutable.withArrays Mutable.Connectors
                 (λ arrays, arrays ++ [connectors scene]))
              (Mutable.onHeap
                 (Mutable.withArrays Mutable.Nodes
                    (λ arrays, arrays ++ [nodes scene])) hs))).
  set (partial :=
         {| Mutable.ref_icons := None;
            Mutable.ref_nodes := Some (length (nodeArrays (heap hs)));
            Mutable.ref_connectors :=
              Some (length (connectorArrays (heap hs)));
            Mutable.ref_textBoxes := None;
            Mutable.ref_rectangles :=
              Some (length (rectangleArrays (heap hs))) |}).
  assert (Mutable.updateScene scene hs = Mutable.set partial hs3) as ->
      by reflexivity.
  destruct (new_arrays_refine hs hs3 Hwf) as [Hwf3 Hsame]; try done.
  { intros T key. destruct key; simpl; try done; by apply prefix_app_r. }
  destruct (set_refines partial hs3 Hwf3) as [Hset Hwf4].
  { repeat split; simpl; intros ? [= <-]; rewrite ?length_app; simpl; lia. }
  split; [|done]. refine (eq_trans _ Hset). rewrite Hsame.
  unfold updateScene. change (@set Store _) with Store_set. f_equal.
  unfold Mutable.valuesOf. simpl. by rewrite !arrayAt_snoc.
Qed.

Lemma setScene_refines (scene : JsValue) :
  refines (Mutable.setScene scene) (setScene scene).
Proof.
  unfold Mutable.setScene, setScene, mbind, M_bind.
  apply refines_bind; [apply refines_lift|]. intros _. cbv zeta.
  set (newScene := sceneInputToScene scene).
  intros hs Hwf.
  set (hs5 :=
         Mutable.onHeap
           (Mutable.withArrays Mutable.Rectangles
              (λ arrays, arrays ++ [rectangles newScene]))
           (Mutable.onHeap
              (Mutable.withArrays Mutable.TextBoxes
                 (λ arrays, arrays ++ [textBoxes newScene]))
              (Mutable.onHeap
                 (Mutable.withArrays Mutable.Connectors
                    (λ arrays, arrays ++ [connectors newScene]))
                 (Mutable.onHeap
                    (Mutable.withArrays Mutable.Nodes
                       (λ arrays, arrays ++ [nodes newScene]))
                    (Mutable.onHeap
                       (Mutable.withArrays Mutable.Icons
                          (λ arrays, arrays ++ [icons newScene])) hs))))).
  set (partial :=
         {| Mutable.ref_icons := Some (length (iconArrays (heap hs)));
            Mutable.ref_nodes := Some (length (nodeArrays (heap hs)));
            Mutable.ref_connectors :=
              Some (length (connectorArrays (heap hs)));
            Mutable.ref_textBoxes := Some (length (textBoxArrays (heap hs)));
            Mutable.ref_rectangles :=
              Some (length (rectangleArrays (heap hs))) |}).
  match goal with
  | |- _ = ((?m hs).1, _) ∧ _ =>
      assert (m hs = (Ok newScene, (Mutable.set partial hs5).2)) as ->
        by reflexivity
  end.
  destruct (new_arrays_refine hs hs5 Hwf) as [Hwf5 Hsame]; try done.
  { intros T key. destruct key; simpl; by apply prefix_app_r. }
  destruct (set_refines partial hs5 Hwf5) as [Hset Hwf6].
  { repeat split; simpl; intros ? [= <-]; rewrite ?length_app; simpl; lia. }
  split; [|done]. rewrite Hsame in Hset.
  assert (Mutable.valuesOf (heap hs5) partial = allKeys newScene) as Hkeys
      by (unfold Mutable.valuesOf, allKeys; simpl; by rewrite !arrayAt_snoc).
  rewrite Hkeys in Hset. unfold bind.
  change (@set Store _) with Store_set. by rewrite Hset.
Qed.

Lemma call_on_objects_refines (a : Action) :
  refines (Mutable.call a) (call a).
Proof.
  destruct a; simpl.
  - unfold mbind, M_bind. apply refines_bind; [apply setScene_refines|].
    intros _. apply refines_ret.
  - apply updateScene_refines.
  - apply refines_produce_then;
      [ intros d; apply createNode_recipe_mirrors
      | intros h0 d; apply createNode_recipe_writesDraft
      | intros d; apply continues_nodes ].
  - apply refines_produce_then;
      [ intros d; apply updateNode_recipe_mirrors
      | intros h0 d; apply updateNode_recipe_writesDraft
      | intros d; apply continues_nodes_connectors ].
  - apply refines_produce_then;
      [ intros d; apply deleteNode_recipe_mirrors
      | intros h0 d; apply deleteNode_recipe_writesDraft
      | intros d; apply continues_nodes_connectors ].
  - apply refines_produce_then;
      [ intros d; apply createConnector_recipe_mirrors
      | intros h0 d; apply createConnector_recipe_writesDraft
      | intros d; apply continues_connectors ].
  - apply refines_produce_then;
      [ intros d; apply updateConnector_recipe_mirrors
      | intros h0 d; apply updateConnector_recipe_writesDraft
      | intros d; apply continues_connectors ].
  - apply refines_produce_then;
      [ intros d; apply deleteConnector_recipe_mirrors
      | intros h0 d; apply deleteConnector_recipe_writesDraft
      | intros d; apply continues_connectors ].
  - apply refines_produce_then;
      [ intros d; apply createRectangle_recipe_mirrors
      | intros h0 d; apply createRectangle_recipe_writesDraft
      | intros d; apply continues_rectangles ].
  - apply refines_produce_then;
      [ intros d; apply createTextBox_recipe_mirrors
      | intros h0 d; apply createTextBox_recipe_writesDraft
      | intros d; apply continues_textBoxes ].
  - apply refines_produce_then;
      [ intros d; apply updateTextBox_recipe_mirrors
      | intros h0 d; apply updateTextBox_recipe_writesDraft
      | intros d; apply continues_textBoxes ].
  - apply refines_produce_then;
      [ intros d; apply deleteTextBox_recipe_mirrors
      | intros h0 d; apply deleteTextBox_recipe_writesDraft
      | intros d; apply continues_textBoxes ].
  - apply refines_produce_then;
      [ intros d; apply updateRectangle_recipe_mirrors
      | intros h0 d; apply updateRectangle_recipe_writesDraft
      | intros d; apply continues_rectangles ].
  - apply refines_produce_then;
      [ intros d; apply deleteRectangle_recipe_mirrors
      | intros h0 d; apply deleteRectangle_recipe_writesDraft
      | intros d; apply continues_rectangles ].
Qed.

(** C8: on a heap where every object can be written in place and a caller
    holds a snapshot by its address, a call of an action writes no object
    that was there before the call: every array and every state object is
    where and what it was, so the scene seen through any state object held
    from before is the same after the call.  A call that returns has
    published a state object that did not exist before, and called the
    listeners once; a call that throws has published nothing.  The scene
    seen through the published state object is the one that the action on
    values publishes. *)
Theorem call_writes_no_held_object (a : Action) (hs hs' : HeapStore)
    (r : Result unit) (held : nat) :
  wellFormed hs →
  held < length (stateObjects (heap hs)) →
  Mutable.call a hs = (r, hs') →
  snapshot (heap hs') held = snapshot (heap hs) held ∧
  extends (heap hs) (heap hs') ∧
  (r = Ok tt →
   length (stateObjects (heap hs)) ≤ current hs' ∧ current hs' ≠ held ∧
   listened hs' = listened hs ++ [(current hs', current hs)]) ∧
  (∀ e, r = Throw e →
        current hs' = current hs ∧ listened hs' = listened hs) ∧
  call a (abstraction hs) = (r, abstraction hs') ∧
  snapshot (heap hs') (current hs') = state (call a (abstraction hs)).2.
Proof.
  intros Hwf Hheld Hcall.
  destruct (call_publishes a hs) as [Hext Hpub].
  destruct (call_on_objects_refines a hs Hwf) as [Hvalues _].
  rewrite Hcall in *. simpl in *.
  split; [|split; [done|split; [|split; [|split]]]].
  - apply snapshot_extends; [done| |done]. by apply allocated_objectAt.
  - intros ->. destruct Hpub as [Hnew Hcalls].
    split; [done|]. split; [lia|done].
  - by intros e ->.
  - done.
  - by rewrite Hvalues.
Qed.

End CallsRefine.

(** ** The store of objects that are written in place, on examples *)

(** The heap tells a write in place from a write to a draft: the recipe of
    [createNode] run on the published state object itself, without
    [produce], pushes on the published array, and whoever holds that state
    object sees the node. *)
Lemma recipe_on_published_state_is_seen {utils : Collaborators}
    (input : JsValue) (hs : HeapStore) :
  wellFormed hs →
  nodes
    (snapshot
       (heap (Mutable.createNode_recipe input (current hs) hs).2)
       (current hs))
  = nodes (snapshot (heap hs) (current hs)) ++ [nodeInputToNode input].
Proof.
  intros (Hlt & Hall & _).
  destruct (createNode_recipe_mirrors (current hs) input hs) as [Hrun _];
    [by split|].
  symmetry. exact (f_equal (λ p, nodes p.2) Hrun).
Qed.

(** A node is created and then moved: the state object published by the
    creation, held at its address, still shows the node as it was created,
    and the state object published by the move shows it moved. *)
Lemma call_writes_no_held_object_witness :
  let created :=
    (Mutable.call (utils := Demo.utils) (CreateNode (JsString "a"))
       initialHeapStore).2 in
  let moved :=
    (Mutable.call (utils := Demo.utils) (UpdateNode "a" Demo.moved)
       created).2 in
  wellFormed created ∧
  current created < length (stateObjects (heap created)) ∧
  snapshot (heap moved) (current created)
  = snapshot (heap created) (current created) ∧
  nodes (snapshot (heap created) (current created))
  = [{| Node.id := "a"; Node.other := ∅ |}] ∧
  nodes (snapshot (heap moved) (current moved))
  = [{| Node.id := "a"; Node.other := {[ "tile" := JsNumber 7 ]} |}] ∧
  current moved ≠ current created.
Proof.
  intros created moved.
  assert (wellFormed initialHeapStore) as Hwf0.
  { repeat split; simpl; try lia; repeat constructor. }
  assert (wellFormed created) as Hwf.
  { apply (call_on_objects_refines (utils := Demo.utils)
             (CreateNode (JsString "a")) initialHeapStore Hwf0). }
  assert (current created < length (stateObjects (heap created))) as Hheld
      by apply Hwf.
  split; [exact Hwf|]. split; [exact Hheld|].
  destruct (call_writes_no_held_object (utils := Demo.utils)
              (UpdateNode "a" Demo.moved) created moved
              (Mutable.call (utils := Demo.utils)
                 (UpdateNode "a" Demo.moved) created).1
              (current created) Hwf Hheld (surjective_pairing _))
    as (Hsame & _ & Hnew & _).
  split; [exact Hsame|]. split; [vm_compute; reflexivity|]. split.
  - vm_compute. reflexivity.
  - apply Hnew. vm_compute. reflexivity.
Defined.
